(** * RouteBus: the event bus and its in-memory transport

    A shallow embedding of [createRouteBus] (src/index.ts), of
    [createInMemoryTransport] (src/transports/in-memory.ts) and of
    [createRedisTransport] (src/transports/redis.ts).

    The JavaScript closures of the program are first-order data here:
    a handler is identified by reference, the two [Map]s and the [Set]
    keep their insertion order, and the functions that call back into
    caller code (publish, emit, drain) are fuelled, because a handler may
    call the bus again. *)

From Stdlib Require Import List String Bool Arith Lia.
Import ListNotations.
Local Open Scope string_scope.
Local Open Scope list_scope.

Set Implicit Arguments.

(** ** Insertion-ordered maps and sets

    A JavaScript [Map] iterates in insertion order; [set] on a key that is
    present updates the value in place, [delete] removes the key. *)

Module OMap.
Section Defs.
Variables K V : Type.
Variable eq_dec : forall x y : K, {x = y} + {x <> y}.

Definition t := list (K * V).

Fixpoint get (k : K) (m : t) : option V :=
  match m with
  | [] => None
  | (k', v) :: m' => if eq_dec k k' then Some v else get k m'
  end.

Definition has (k : K) (m : t) : bool :=
  match get k m with Some _ => true | None => false end.

Fixpoint set (k : K) (v : V) (m : t) : t :=
  match m with
  | [] => [(k, v)]
  | (k', v') :: m' =>
      if eq_dec k k' then (k, v) :: m' else (k', v') :: set k v m'
  end.

Fixpoint delete (k : K) (m : t) : t :=
  match m with
  | [] => []
  | (k', v') :: m' =>
      if eq_dec k k' then delete k m' else (k', v') :: delete k m'
  end.

Definition values (m : t) : list V := map snd m.
Definition size (m : t) : nat := List.length m.

End Defs.
End OMap.

(** A JavaScript [Set] of references: [add] appends unless the element is
    present, [delete] removes it, iteration is in insertion order. *)

Module OSet.
Section Defs.
Variable A : Type.
Variable eq_dec : forall x y : A, {x = y} + {x <> y}.

Definition t := list A.

Definition add (a : A) (s : t) : t :=
  if in_dec eq_dec a s then s else s ++ [a].

Fixpoint delete (a : A) (s : t) : t :=
  match s with
  | [] => []
  | b :: s' => if eq_dec a b then delete a s' else b :: delete a s'
  end.

Definition size (s : t) : nat := List.length s.

End Defs.
End OSet.

(** ** Data model *)

(** Event names are the string keys of the event map
    ([TEventMap extends Record<string, any>]). *)
Definition event := string.

(** [getEventKey = (event) => String(event)]; on a string it is the
    identity. *)
Definition getEventKey (e : event) : string := e.

(** Handlers are compared by reference.  [Fn id] is a function of the
    caller, [id] standing for its identity.  [Wrapped a e id] is the
    [wrappedHandler] closure that the [a]-th closure allocation of [once]
    creates for event [e] around the caller's function [Fn id]. *)
Inductive handler : Type :=
| Fn (id : nat)
| Wrapped (alloc : nat) (e : event) (inner : nat).

Definition handler_eq_dec (x y : handler) : {x = y} + {x <> y}.
Proof.
  decide equality; try apply Nat.eq_dec; apply string_dec.
Defined.

(** The closure returned by the transport's [subscribe]: it captures
    [event] and [handler]. *)
Inductive tunsub : Type :=
| TUnsub (e : event) (h : handler).

(** The closure returned by the bus's [on]: it captures the transport's
    [unsubscribe], [eventKey] and [handler]. *)
Inductive unsub : Type :=
| BusUnsub (unsubscribe : tunsub) (eventKey : string) (h : handler).

(** How a call ends: it returns, or it throws. *)
Inductive completion : Type :=
| Normal
| Throws (err : string).

Section RouteBus.
Variable payload : Type.

(** The bus calls a body of caller code can make.  [On], [Once] and [Off]
    pass the caller's function [Fn h]; [Call u] invokes an unsubscribe
    function obtained earlier; [Throw] raises. *)
Inductive cmd : Type :=
| On (e : event) (h : nat)
| Once (e : event) (h : nat)
| Off (e : event) (h : nat)
| Emit (e : event) (p : payload)
| Clear
| Enqueue (e : event) (p : payload)
| Drain (processor : option nat)
| Call (u : unsub)
| Throw (err : string).

(** What an observer of the run sees: a handler called with a payload, a
    drain processor called with an item, the transport's [close] called.
    [depth] counts the handler and processor calls in progress when the
    call is made: 0 for a call made by a bus operation that the program
    calls directly, 1 for a call made from within such a call (the
    function a wrapper of [once] wraps, the handlers of an emit made by a
    handler), and so on. *)
Inductive obs : Type :=
| Invoked (depth : nat) (h : handler) (p : payload)
| Processed (depth : nat) (processor : nat) (e : event) (p : payload)
| Closed.

(** [listeners] belongs to the transport; [unsubscribeFunctions] and
    [queue] to the bus.  [next_closure] numbers the closures [once]
    allocates.  [trace] and [console] are the observations: the calls
    made so far, and the errors handed to [console.error] by the [catch]
    callbacks, in the order in which the promises were rejected. *)
Record state : Type := mkState {
  listeners : OMap.t event (list handler);
  unsubscribeFunctions : OMap.t string (OMap.t handler tunsub);
  queue : list (event * payload);
  next_closure : nat;
  trace : list obs;
  console : list string
}.

Definition createRouteBus : state := mkState [] [] [] 0 [] [].

Definition set_listeners (ls : OMap.t event (list handler)) (st : state) : state :=
  mkState ls (unsubscribeFunctions st) (queue st) (next_closure st) (trace st) (console st).
Definition set_unsubscribeFunctions (r : OMap.t string (OMap.t handler tunsub)) (st : state) : state :=
  mkState (listeners st) r (queue st) (next_closure st) (trace st) (console st).
Definition set_queue (q : list (event * payload)) (st : state) : state :=
  mkState (listeners st) (unsubscribeFunctions st) q (next_closure st) (trace st) (console st).
Definition set_next_closure (n : nat) (st : state) : state :=
  mkState (listeners st) (unsubscribeFunctions st) (queue st) n (trace st) (console st).
Definition observe (o : obs) (st : state) : state :=
  mkState (listeners st) (unsubscribeFunctions st) (queue st) (next_closure st) (trace st ++ [o]) (console st).
Definition console_error (err : string) (st : state) : state :=
  mkState (listeners st) (unsubscribeFunctions st) (queue st) (next_closure st) (trace st) (console st ++ [err]).

(** *** The in-memory transport *)

(** The subscribers of [e], in the order [Array.from] lists them. *)
Definition subscribers (e : event) (st : state) : list handler :=
  match OMap.get string_dec e (listeners st) with
  | Some handlers => handlers
  | None => []
  end.

(** [subscribe(event, handler)] *)
Definition subscribe (e : event) (h : handler) (st : state) : tunsub * state :=
  let ls1 :=
    if OMap.has string_dec e (listeners st) then listeners st
    else OMap.set string_dec e [] (listeners st) in
  let ls2 :=
    match OMap.get string_dec e ls1 with
    | Some handlers => OMap.set string_dec e (OSet.add handler_eq_dec h handlers) ls1
    | None => ls1
    end in
  (TUnsub e h, set_listeners ls2 st).

(** Calling the closure returned by [subscribe]. *)
Definition transport_unsubscribe (u : tunsub) (st : state) : state :=
  match u with
  | TUnsub e h =>
      match OMap.get string_dec e (listeners st) with
      | Some handlers =>
          let handlers' := OSet.delete handler_eq_dec h handlers in
          let ls1 := OMap.set string_dec e handlers' (listeners st) in
          if Nat.eqb (OSet.size handlers') 0
          then set_listeners (OMap.delete string_dec e ls1) st
          else set_listeners ls1 st
      | None => st
      end
  end.

(** [close()]: [listeners.clear()]. *)
Definition close (st : state) : state :=
  set_listeners [] (observe Closed st).

(** *** The bus: operations that call no caller code *)

(** [on(event, handler)] *)
Definition on (e : event) (h : handler) (st : state) : unsub * state :=
  let (unsubscribe, st1) := subscribe e h st in
  let eventKey := getEventKey e in
  let r1 :=
    if OMap.has string_dec eventKey (unsubscribeFunctions st1)
    then unsubscribeFunctions st1
    else OMap.set string_dec eventKey [] (unsubscribeFunctions st1) in
  let r2 :=
    match OMap.get string_dec eventKey r1 with
    | Some eventHandlers =>
        OMap.set string_dec eventKey (OMap.set handler_eq_dec h unsubscribe eventHandlers) r1
    | None => r1
    end in
  (BusUnsub unsubscribe eventKey h, set_unsubscribeFunctions r2 st1).

(** Removing [handler] from the registry entry of [eventKey], and the
    entry with it once it is empty: the tail shared by the closure that
    [on] returns and by [off]. *)
Definition forget (eventKey : string) (h : handler)
    (eventHandlers : OMap.t handler tunsub) (st : state) : state :=
  let eventHandlers' := OMap.delete handler_eq_dec h eventHandlers in
  let r1 := OMap.set string_dec eventKey eventHandlers' (unsubscribeFunctions st) in
  if Nat.eqb (OMap.size eventHandlers') 0
  then set_unsubscribeFunctions (OMap.delete string_dec eventKey r1) st
  else set_unsubscribeFunctions r1 st.

(** Calling the closure returned by [on]. *)
Definition unsubscribe_call (u : unsub) (st : state) : state :=
  match u with
  | BusUnsub unsubscribe eventKey h =>
      let st1 := transport_unsubscribe unsubscribe st in
      match OMap.get string_dec eventKey (unsubscribeFunctions st1) with
      | Some eventHandlers => forget eventKey h eventHandlers st1
      | None => st1
      end
  end.

(** [once(event, handler)].  The wrapper's [unsubscribe] variable is
    assigned when [on] returns; [on] calls no handler, so the wrapper
    never runs while the variable is still [null], and the closure is
    determined by its allocation number, [event] and [handler]. *)
Definition once (e : event) (h : nat) (st : state) : unsub * state :=
  let wrappedHandler := Wrapped (next_closure st) e h in
  on e wrappedHandler (set_next_closure (S (next_closure st)) st).

(** The [unsubscribe] a wrapper holds: what [on(event, wrappedHandler)]
    returned. *)
Definition wrapper_unsubscribe (e : event) (w : handler) : unsub :=
  BusUnsub (TUnsub e w) (getEventKey e) w.

(** [off(event, handler)] *)
Definition off (e : event) (h : handler) (st : state) : state :=
  let eventKey := getEventKey e in
  match OMap.get string_dec eventKey (unsubscribeFunctions st) with
  | Some eventHandlers =>
      match OMap.get handler_eq_dec h eventHandlers with
      | Some unsubscribe =>
          let st1 := transport_unsubscribe unsubscribe st in
          forget eventKey h eventHandlers st1
      | None => st
      end
  | None => st
  end.

(** [clear()].  The in-memory transport has a [close], which returns no
    promise. *)
Definition clear (st : state) : state :=
  let st1 := set_queue [] st in
  let st2 :=
    fold_left
      (fun s eventHandlers =>
         fold_left (fun s' unsubscribe => transport_unsubscribe unsubscribe s')
                   (OMap.values eventHandlers) s)
      (OMap.values (unsubscribeFunctions st1)) st1 in
  close (set_unsubscribeFunctions [] st2).

(** [enqueue(event, payload)] *)
Definition enqueue (e : event) (p : payload) (st : state) : state :=
  set_queue (queue st ++ [(e, p)]) st.

(** *** Caller code

    [code id p] is the body of the caller's function [Fn id] run on
    payload [p]; [pcode id e p] the body of the drain processor [id] run
    on the item [(e, p)]. *)
Variable code : nat -> payload -> list cmd.
Variable pcode : nat -> event -> payload -> list cmd.

Inductive callee : Type :=
| Handler (h : handler) (p : payload)
| Processor (id : nat) (e : event) (p : payload).

(** The operations that call caller code, over the function [invoke] that
    runs a callee.  [None] is a run that needs more fuel. *)
Section Calls.
Variable invoke : callee -> state -> option (completion * state).

(** [for (const handler of handlersCopy) handler(payload)] *)
Fixpoint dispatch (handlersCopy : list handler) (p : payload) (st : state)
  : option (completion * state) :=
  match handlersCopy with
  | [] => Some (Normal, st)
  | h :: rest =>
      match invoke (Handler h p) st with
      | Some (Normal, st1) => dispatch rest p st1
      | r => r
      end
  end.

(** [publish(event, payload)].  The function is [async] and awaits
    nothing: its body runs within the call, and the completion is how
    the returned promise settles ([Throws]: rejected). *)
Definition publish (e : event) (p : payload) (st : state)
  : option (completion * state) :=
  match OMap.get string_dec e (listeners st) with
  | Some handlers => dispatch handlers p st
  | None => Some (Normal, st)
  end.

(** [emit(event, payload)]: [publish(...).catch(error => console.error(...))] *)
Definition emit (e : event) (p : payload) (st : state) : option state :=
  match publish e p st with
  | Some (Normal, st1) => Some st1
  | Some (Throws err, st1) => Some (console_error err st1)
  | None => None
  end.

(** [defaultProcessor = (event, payload) => { emit(event, payload) }] *)
Definition defaultProcessor (e : event) (p : payload) (st : state)
  : option (completion * state) :=
  match emit e p st with
  | Some st1 => Some (Normal, st1)
  | None => None
  end.

(** [while (queue.length > 0) { const item = queue.shift()!; proc(item.event, item.payload) }] *)
Fixpoint drain_loop (k : nat)
    (proc : event -> payload -> state -> option (completion * state))
    (st : state) : option (completion * state) :=
  match queue st with
  | [] => Some (Normal, st)
  | item :: rest =>
      match k with
      | 0 => None
      | S k' =>
          match proc (fst item) (snd item) (set_queue rest st) with
          | Some (Normal, st1) => drain_loop k' proc st1
          | r => r
          end
      end
  end.

(** [const proc = processor || defaultProcessor] *)
Definition processor_of (processor : option nat)
  : event -> payload -> state -> option (completion * state) :=
  match processor with
  | Some id => fun e p => invoke (Processor id e p)
  | None => defaultProcessor
  end.

(** [drain(processor?)] *)
Definition drain (k : nat) (processor : option nat) (st : state)
  : option (completion * state) :=
  drain_loop k (processor_of processor) st.

(** One call made by caller code.  Only [drain] with a processor that
    throws, and [Throw], complete by throwing; [k] is the fuel of the drain
    loop. *)
Definition exec (k : nat) (c : cmd) (st : state) : option (completion * state) :=
  match c with
  | On e h => Some (Normal, snd (on e (Fn h) st))
  | Once e h => Some (Normal, snd (once e h st))
  | Off e h => Some (Normal, off e (Fn h) st)
  | Emit e p =>
      match emit e p st with
      | Some st1 => Some (Normal, st1)
      | None => None
      end
  | Clear => Some (Normal, clear st)
  | Enqueue e p => Some (Normal, enqueue e p st)
  | Drain processor => drain k processor st
  | Call u => Some (Normal, unsubscribe_call u st)
  | Throw err => Some (Throws err, st)
  end.

(** A body of caller code: its calls in order, up to the first that
    throws. *)
Fixpoint run (k : nat) (body : list cmd) (st : state)
  : option (completion * state) :=
  match body with
  | [] => Some (Normal, st)
  | c :: rest =>
      match exec k c st with
      | Some (Normal, st1) => run k rest st1
      | r => r
      end
  end.
End Calls.

(** Running a callee at nesting [d] with fuel [n].  A wrapper of [once]
    is [handler(payload); if (unsubscribe) unsubscribe()]. *)
Fixpoint call (n d : nat) (f : callee) (st : state) {struct n}
  : option (completion * state) :=
  match n with
  | 0 => None
  | S n' =>
      match f with
      | Handler (Fn id) p =>
          run (call n' (S d)) n' (code id p) (observe (Invoked d (Fn id) p) st)
      | Handler (Wrapped a e inner) p =>
          match call n' (S d) (Handler (Fn inner) p)
                     (observe (Invoked d (Wrapped a e inner) p) st) with
          | Some (Normal, st1) =>
              Some (Normal,
                    unsubscribe_call (wrapper_unsubscribe e (Wrapped a e inner)) st1)
          | r => r
          end
      | Processor id e p =>
          run (call n' (S d)) n' (pcode id e p) (observe (Processed d id e p) st)
      end
  end.

(** A program calling the bus directly: its handlers run at nesting 0. *)
Definition bus_emit (n : nat) (e : event) (p : payload) (st : state) : option state :=
  emit (call n 0) e p st.
Definition bus_drain (n : nat) (processor : option nat) (st : state)
  : option (completion * state) :=
  drain (call n 0) n processor st.
Definition program (n : nat) (body : list cmd) (st : state)
  : option (completion * state) :=
  run (call n 0) n body st.

(** *** Reading the trace *)

(** The call was made at nesting [d]. *)
Definition at_depth (d : nat) (o : obs) : bool :=
  match o with
  | Invoked d' _ _ => Nat.eqb d' d
  | Processed d' _ _ _ => Nat.eqb d' d
  | Closed => false
  end.

(** The call was made at nesting [d] or deeper. *)
Definition reaches (d : nat) (o : obs) : Prop :=
  match o with
  | Invoked d' _ _ => d <= d'
  | Processed d' _ _ _ => d <= d'
  | Closed => True
  end.

(** What was observed between [st] and a later [st']. *)
Definition since (st st' : state) : list obs :=
  skipn (List.length (trace st)) (trace st').

(** The calls made at nesting [d] between [st] and [st']. *)
Definition direct (d : nat) (st st' : state) : list obs :=
  filter (at_depth d) (since st st').

Definition is_call_of (id : nat) (o : obs) : bool :=
  match o with
  | Invoked _ (Fn id') _ => Nat.eqb id' id
  | _ => false
  end.

(** How many times the caller's function [Fn id] has run. *)
Definition calls_of (id : nat) (st : state) : nat :=
  List.length (filter (is_call_of id) (trace st)).

Definition is_close (o : obs) : bool :=
  match o with Closed => true | _ => false end.

(** How many times the transport's [close] has run. *)
Definition closes (st : state) : nat :=
  List.length (filter is_close (trace st)).

(** *** Reading the registry *)

(** The capability the registry holds for [(e, h)], if any. *)
Definition registered (e : event) (h : handler) (st : state) : option tunsub :=
  match OMap.get string_dec (getEventKey e) (unsubscribeFunctions st) with
  | Some eventHandlers => OMap.get handler_eq_dec h eventHandlers
  | None => None
  end.

(** Every capability in the registry is the one [subscribe] returned for
    its own key. *)
Definition registry_ok (st : state) : Prop :=
  forall e h u, registered e h st = Some u -> u = TUnsub e h.

(** No handler is listed twice among the subscribers of an event. *)
Definition distinct (st : state) : Prop :=
  forall e, NoDup (subscribers e st).

(** Every call through [invoke] takes the state to a related one. *)
Definition respects (R : state -> state -> Prop)
    (invoke : callee -> state -> option (completion * state)) : Prop :=
  forall f st c st', invoke f st = Some (c, st') -> R st st'.

(** The observation a call of [f] at nesting [d] leaves in the trace. *)
Definition observation (d : nat) (f : callee) : obs :=
  match f with
  | Handler h p => Invoked d h p
  | Processor id e p => Processed d id e p
  end.

(** [st'] has the trace of [st] and then calls at nesting [d] or deeper. *)
Definition grows (d : nat) (st st' : state) : Prop :=
  exists added, trace st' = trace st ++ added /\ Forall (reaches d) added.

(** [R], indexed by the nesting, relates the state before and after every
    call, dispatch, emit and drain, and every body made of [ok] commands. *)
Definition sound (R : nat -> state -> state -> Prop) (ok : cmd -> Prop) : Prop :=
  (forall n d, respects (R d) (call n d)) /\
  (forall n d k body st r st',
      Forall ok body -> run (call n d) k body st = Some (r, st') -> R d st st') /\
  (forall n d hs p st c st',
      dispatch (call n d) hs p st = Some (c, st') -> R d st st') /\
  (forall n d e p st c st',
      publish (call n d) e p st = Some (c, st') -> R d st st') /\
  (forall n d e p st st',
      emit (call n d) e p st = Some st' -> R d st st') /\
  (forall n d k processor st c st',
      ok (Drain processor) ->
      drain (call n d) k processor st = Some (c, st') -> R d st st').

(** [invoke'] returns whatever [invoke] returns. *)
Definition covers
    (invoke invoke' : callee -> state -> option (completion * state)) : Prop :=
  forall f st r, invoke f st = Some r -> invoke' f st = Some r.

(** *** Classes of caller code *)

(** The command dispatches nothing: it is neither [emit] nor [drain]. *)
Definition quiet (c : cmd) : Prop :=
  match c with
  | Emit _ _ | Drain _ => False
  | _ => True
  end.

(** The command cannot touch the queue. *)
Definition keeps_queue (c : cmd) : Prop :=
  match c with
  | Enqueue _ _ | Clear | Drain _ => False
  | _ => True
  end.

(** The command is not [clear]. *)
Definition not_clear (c : cmd) : Prop :=
  match c with
  | Clear => False
  | _ => True
  end.

(** The command is not [on(e, Fn id)]. *)
Definition not_on (e : event) (id : nat) (c : cmd) : Prop :=
  match c with
  | On e' id' => e' <> e \/ id' <> id
  | _ => True
  end.

(** *** The drain loop over given items

    What the [while] loop of [drain] does when the queue holds [items] and
    [proc] leaves the queue alone: [proc] is called on each item in turn,
    the item and those before it shifted off the queue, and, as in the
    loop, a call that throws ends the pass there. *)
Fixpoint for_each
    (proc : event -> payload -> state -> option (completion * state))
    (items : list (event * payload)) (st : state)
  : option (completion * state) :=
  match items with
  | [] => Some (Normal, st)
  | item :: rest =>
      match proc (fst item) (snd item) (set_queue rest st) with
      | Some (Normal, st1) => for_each proc rest st1
      | r => r
      end
  end.

(** *** How the calls of caller code end

    [returning invoke p hs st st']: called in turn with [p], the first of
    them in [st], every handler of [hs] returns, and the last one leaves
    [st']. *)
Inductive returning
    (invoke : callee -> state -> option (completion * state)) (p : payload)
  : list handler -> state -> state -> Prop :=
| returning_nil st : returning invoke p [] st st
| returning_cons h hs st st1 st' :
    invoke (Handler h p) st = Some (Normal, st1) ->
    returning invoke p hs st1 st' ->
    returning invoke p (h :: hs) st st'.

(** Whatever the state it is called in, [f] returns. *)
Definition returns
    (invoke : callee -> state -> option (completion * state)) (f : callee) : Prop :=
  forall s, exists s', invoke f s = Some (Normal, s').

(** Whatever the state it is called in, [f] returns and leaves the queue
    as it found it. *)
Definition keeping
    (invoke : callee -> state -> option (completion * state)) (f : callee) : Prop :=
  forall s, exists s', invoke f s = Some (Normal, s') /\ queue s' = queue s.

(** Whatever the state it is called in, [f] throws [err], the queue as it
    found it. *)
Definition failing
    (invoke : callee -> state -> option (completion * state)) (f : callee)
    (err : string) : Prop :=
  forall s, exists s', invoke f s = Some (Throws err, s') /\ queue s' = queue s.

(** Whatever the state it is called in, [f] returns and leaves the queue
    and the subscriptions as it found them. *)
Definition steady
    (invoke : callee -> state -> option (completion * state)) (f : callee) : Prop :=
  forall s, exists s',
    invoke f s = Some (Normal, s') /\ queue s' = queue s /\ listeners s' = listeners s.

End RouteBus.

Arguments On {payload} e h.
Arguments Once {payload} e h.
Arguments Off {payload} e h.
Arguments Emit {payload} e p.
Arguments Clear {payload}.
Arguments Enqueue {payload} e p.
Arguments Drain {payload} processor.
Arguments Call {payload} u.
Arguments Throw {payload} err.
Arguments Closed {payload}.
Arguments createRouteBus {payload}.
Arguments quiet {payload} c.
Arguments keeps_queue {payload} c.
Arguments not_clear {payload} c.
Arguments not_on {payload} e id c.
Arguments reaches {payload} d o.
Arguments at_depth {payload} d o.
Arguments grows {payload} d st st'.

(** ** A concrete program

    Payloads are numbers.  The caller's functions, by identity:
    1, 2, 3 do nothing; 10 removes itself with [off]; 11 throws; 12 removes
    function 2 with [off]; 20 emits ["f"]; 21 unsubscribes itself and
    emits ["e"].  Processor 1 enqueues [("x", 7)] when it is given payload
    0; processor 2 throws; the others do nothing. *)
Module Demo.

Definition code (id : nat) (p : nat) : list (cmd nat) :=
  match id with
  | 10 => [Off "e" 10]
  | 11 => [Throw "boom"]
  | 12 => [Off "e" 2]
  | 20 => [Emit "f" p]
  | 21 => [Call (BusUnsub (TUnsub "f" (Fn 21)) "f" (Fn 21)); Emit "e" p]
  | _ => []
  end.

Definition pcode (id : nat) (e : event) (p : nat) : list (cmd nat) :=
  match id, p with
  | 1, 0 => [Enqueue "x" 7]
  | 2, _ => [Throw "stop"]
  | _, _ => []
  end.

(** The state a program reaches from a fresh bus, with fuel 8. *)
Definition after (body : list (cmd nat)) : state nat :=
  match program code pcode 8 body createRouteBus with
  | Some (_, st) => st
  | None => createRouteBus
  end.

(** The state [publish(e, p)] leaves, called directly by the program. *)
Definition published (e : event) (p : nat) (st : state nat) : state nat :=
  match publish (call code pcode 8 0) e p st with
  | Some (_, st') => st'
  | None => st
  end.

(** The state [drain(processor)] leaves, called directly by the program. *)
Definition drained (processor : option nat) (st : state nat) : state nat :=
  match bus_drain code pcode 8 processor st with
  | Some (_, st') => st'
  | None => st
  end.

(** The calls of the caller's functions in a trace, oldest first: the
    function and the payload it was given. *)
Definition log (st : state nat) : list (nat * nat) :=
  flat_map (fun o => match o with
                     | Invoked _ (Fn id) p => [(id, p)]
                     | _ => []
                     end) (trace st).

(** The calls of the drain processors in a trace, oldest first. *)
Definition processed (st : state nat) : list (nat * event * nat) :=
  flat_map (fun o => match o with
                     | Processed _ id e p => [(id, e, p)]
                     | _ => []
                     end) (trace st).

End Demo.

(** Drain processors that fail on one item: processor 1 throws on payload
    2, and does nothing on any other item. *)
Module Faulty.

Definition pcode (id : nat) (e : event) (p : nat) : list (cmd nat) :=
  match id, p with
  | 1, 2 => [Throw "late"]
  | _, _ => []
  end.

End Faulty.

(** ** Shapes the bus keeps

    What the two maps look like in the states the bus goes through. *)

Section Shapes.
Variable payload : Type.

(** No event is left with an empty set of listeners, no event key with an
    empty map of unsubscribe functions. *)
Definition compact (st : state payload) : Prop :=
  (forall e, OMap.get string_dec e (listeners st) <> Some []) /\
  (forall key, OMap.get string_dec key (unsubscribeFunctions st) <> Some []).

(** The registry has an entry for [(e, h)] exactly when the transport
    lists [h] among the subscribers of [e]. *)
Definition mirrored (st : state payload) : Prop :=
  forall e h, registered e h st <> None <-> In h (subscribers e st).

(** The wrappers subscribed were allocated before [next_closure]. *)
Definition fresh (st : state payload) : Prop :=
  forall e a e' id, In (Wrapped a e' id) (subscribers e st) -> a < next_closure st.

(** An unsubscribe function that caller code calls is one [on]
    returned: its three captured values belong together. *)
Definition genuine (c : cmd payload) : Prop :=
  match c with
  | Call (BusUnsub (TUnsub e h) key h') => key = getEventKey e /\ h' = h
  | _ => True
  end.

Definition well_formed (st : state payload) : Prop :=
  registry_ok st /\ mirrored st /\ compact st /\ fresh st.

End Shapes.

(** ** The Redis transport

    [createRedisTransport] (src/transports/redis.ts).  The Redis client and
    [JSON] are outside the program: the client is the list of commands it
    is given, its methods taken to return, and [JSON] is two functions of
    the setting. *)

Module Redis.

(** The calls made on the client. *)
Inductive command : Type :=
| Subscribe (channel : string)
| Unsubscribe (channel : string)
| Publish (channel : string) (message : string)
| Quit.

(** The channels the client has been asked to listen to and has not since
    been asked to leave, read off the calls made on it, oldest first. *)
Definition requested (cs : list command) : list string :=
  fold_left
    (fun chs c =>
       match c with
       | Subscribe ch => OSet.add string_dec ch chs
       | Unsubscribe ch => OSet.delete string_dec ch chs
       | Publish _ _ => chs
       | Quit => []
       end) cs [].

Section Transport.
Variable payload : Type.

(** What [JSON.parse(message)] gives the message callback: it throws (so
    does reading [data.event] of [null]), or there is a value, with the
    event name [data.event] when that is a string, and [data.payload]. *)
Inductive parsed : Type :=
| Unreadable (err : string)
| Data (name : option event) (p : payload).

(** The calls a handler body, or the program, makes on the transport.
    [Unlisten e h] calls the function [subscribe(e, h)] returned. *)
Inductive tcall : Type :=
| Listen (e : event) (h : handler)
| Unlisten (e : event) (h : handler)
| Send (e : event) (p : payload)
| Close
| Raise (err : string).

(** The setting of a transport: [JSON.stringify] on [{event, payload}]
    (the string, or the error thrown), [JSON.parse], the optional methods
    the client has, [options?.prefix], and the bodies of the handlers. *)
Record setting : Type := mkSetting {
  stringify : event -> payload -> string + string;
  parse : string -> parsed;
  has_unsubscribe : bool;
  has_quit : bool;
  options_prefix : option string;
  body : handler -> payload -> list tcall
}.

(** [listeners] and [subscribedChannels] are the transport's; [sent] is
    what the client was asked, [calls] the handler calls made and
    [console] the errors given to [console.error], oldest first. *)
Record tstate : Type := mkT {
  listeners : OMap.t event (list handler);
  subscribedChannels : list string;
  sent : list command;
  calls : list (handler * payload);
  console : list string
}.

Definition createRedisTransport : tstate := mkT [] [] [] [] [].

Variable cfg : setting.

(** [options?.prefix || 'routebus'] *)
Definition prefix : string :=
  match options_prefix cfg with
  | Some s => if String.eqb s "" then "routebus" else s
  | None => "routebus"
  end.

(** [`${prefix}:${String(event)}`] *)
Definition getChannelName (e : event) : string :=
  (prefix ++ ":" ++ e)%string.

Definition handlers_of (e : event) (st : tstate) : list handler :=
  match OMap.get string_dec e (listeners st) with
  | Some handlers => handlers
  | None => []
  end.

(** [subscribe(event, handler)] *)
Definition subscribe (e : event) (h : handler) (st : tstate) : tstate :=
  let channel := getChannelName e in
  let st1 :=
    if in_dec string_dec channel (subscribedChannels st) then st
    else mkT (listeners st) (OSet.add string_dec channel (subscribedChannels st))
             (sent st ++ [Subscribe channel]) (calls st) (console st) in
  let ls1 :=
    if OMap.has string_dec e (listeners st1) then listeners st1
    else OMap.set string_dec e [] (listeners st1) in
  let ls2 :=
    match OMap.get string_dec e ls1 with
    | Some handlers => OMap.set string_dec e (OSet.add handler_eq_dec h handlers) ls1
    | None => ls1
    end in
  mkT ls2 (subscribedChannels st1) (sent st1) (calls st1) (console st1).

(** Calling the function [subscribe(event, handler)] returned. *)
Definition unsubscribe (e : event) (h : handler) (st : tstate) : tstate :=
  let channel := getChannelName e in
  match OMap.get string_dec e (listeners st) with
  | Some handlers =>
      let handlers' := OSet.delete handler_eq_dec h handlers in
      let ls1 := OMap.set string_dec e handlers' (listeners st) in
      if Nat.eqb (OSet.size handlers') 0
      then mkT (OMap.delete string_dec e ls1)
               (OSet.delete string_dec channel (subscribedChannels st))
               (if has_unsubscribe cfg then sent st ++ [Unsubscribe channel] else sent st)
               (calls st) (console st)
      else mkT ls1 (subscribedChannels st) (sent st) (calls st) (console st)
  | None => st
  end.

(** [publish(event, payload)]; [Throws]: the promise is rejected. *)
Definition publish (e : event) (p : payload) (st : tstate) : completion * tstate :=
  match stringify cfg e p with
  | inl json =>
      (Normal,
       mkT (listeners st) (subscribedChannels st)
           (sent st ++ [Publish (getChannelName e) json]) (calls st) (console st))
  | inr err => (Throws err, st)
  end.

(** [close()] *)
Definition close (st : tstate) : tstate :=
  mkT [] [] (if has_quit cfg then sent st ++ [Quit] else sent st) (calls st) (console st).

Definition console_error (err : string) (st : tstate) : tstate :=
  mkT (listeners st) (subscribedChannels st) (sent st) (calls st) (console st ++ [err]).

(** One call on the transport.  [publish] and [close] return promises: a
    rejection is not thrown to the caller. *)
Definition exec (c : tcall) (st : tstate) : completion * tstate :=
  match c with
  | Listen e h => (Normal, subscribe e h st)
  | Unlisten e h => (Normal, unsubscribe e h st)
  | Send e p => (Normal, snd (publish e p st))
  | Close => (Normal, close st)
  | Raise err => (Throws err, st)
  end.

Fixpoint run (cs : list tcall) (st : tstate) : completion * tstate :=
  match cs with
  | [] => (Normal, st)
  | c :: rest =>
      match exec c st with
      | (Normal, st1) => run rest st1
      | r => r
      end
  end.

(** [for (const handler of handlersCopy) handler(data.payload)] *)
Fixpoint deliver (handlersCopy : list handler) (p : payload) (st : tstate)
  : completion * tstate :=
  match handlersCopy with
  | [] => (Normal, st)
  | h :: rest =>
      let st0 := mkT (listeners st) (subscribedChannels st) (sent st)
                     (calls st ++ [(h, p)]) (console st) in
      match run (body cfg h p) st0 with
      | (Normal, st1) => deliver rest p st1
      | r => r
      end
  end.

(** The callback given to [redis.on('message', ...)]: all of it is inside
    [try ... catch]. *)
Definition on_message (channel message : string) (st : tstate) : tstate :=
  match parse cfg message with
  | Unreadable err => console_error err st
  | Data None _ => st
  | Data (Some e) p =>
      match OMap.get string_dec e (listeners st) with
      | Some handlers =>
          match deliver handlers p st with
          | (Normal, st1) => st1
          | (Throws err, st1) => console_error err st1
          end
      | None => st
      end
  end.

(** What happens to a transport: the program calls it, or the client
    hands it a message. *)
Inductive input : Type :=
| Calls (c : tcall)
| Message (channel message : string).

Definition step (i : input) (st : tstate) : tstate :=
  match i with
  | Calls c => snd (exec c st)
  | Message channel message => on_message channel message st
  end.

Definition after (inputs : list input) : tstate :=
  fold_left (fun st i => step i st) inputs createRedisTransport.

(** A channel is in [subscribedChannels] exactly when it is the channel
    of an event that has listeners; no event has an empty set of
    listeners, and no set lists a handler twice. *)
Definition tracked (st : tstate) : Prop :=
  (forall ch, In ch (subscribedChannels st) <->
              exists e, ch = getChannelName e /\
                        OMap.get string_dec e (listeners st) <> None) /\
  (forall e, OMap.get string_dec e (listeners st) <> Some []) /\
  (forall e, NoDup (handlers_of e st)).

(** Every channel the transport holds has been requested of the client. *)
Definition asked (st : tstate) : Prop :=
  forall ch, In ch (subscribedChannels st) -> In ch (requested (sent st)).

(** With a client that has both optional methods the two sets agree. *)
Definition exact (st : tstate) : Prop :=
  has_unsubscribe cfg = true -> has_quit cfg = true ->
  requested (sent st) = subscribedChannels st.

End Transport.
End Redis.

Arguments Redis.Unreadable {payload} err.
Arguments Redis.Listen {payload} e h.
Arguments Redis.Unlisten {payload} e h.
Arguments Redis.Close {payload}.
Arguments Redis.Raise {payload} err.
Arguments Redis.Message {payload} channel message.

(** A transport over a client that has [unsubscribe] and [quit], with no
    prefix given, natural numbers as payloads and a few handlers: 1 does
    nothing, 2 removes 1 from ["e"], 3 throws, 4 publishes ["f"].  A
    payload of 99 cannot be stringified. *)
Module RedisDemo.
Import Redis.

Definition stringify (e : event) (p : nat) : string + string :=
  if Nat.eqb p 99 then inr "TypeError: cyclic object value"
  else inl (e ++ (if Nat.eqb p 0 then "#0" else "#1"))%string.

Definition parse (message : string) : parsed nat :=
  if String.eqb message "e#0" then Data (Some "e") 0
  else if String.eqb message "e#1" then Data (Some "e") 1
  else if String.eqb message "f#1" then Data (Some "f") 1
  else if String.eqb message "{}" then Data None 0
  else Unreadable "SyntaxError".

Definition body (h : handler) (p : nat) : list (tcall nat) :=
  match h with
  | Fn 2 => [Unlisten "e" (Fn 1)]
  | Fn 3 => [Raise "boom"]
  | Fn 4 => [Send "f" p]
  | _ => []
  end.

Definition cfg : setting nat := mkSetting stringify parse true true None body.

Definition bare : setting nat := mkSetting stringify parse false false (Some "") body.

End RedisDemo.

Unset Implicit Arguments.

(** * Facts *)

(** ** Maps and sets *)

Module OMapFacts.
Section Facts.
Variables K V : Type.
Variable eq_dec : forall x y : K, {x = y} + {x <> y}.
Implicit Types (k : K) (v : V) (m : OMap.t K V).

Lemma get_set_eq k v m : OMap.get eq_dec k (OMap.set eq_dec k v m) = Some v.
Proof.
  induction m as [|[k' v'] m IH]; simpl.
  - destruct (eq_dec k k); congruence.
  - destruct (eq_dec k k') as [E|N]; simpl.
    + destruct (eq_dec k k); congruence.
    + destruct (eq_dec k k'); congruence.
Qed.

Lemma get_set_neq k k' v m :
  k' <> k -> OMap.get eq_dec k' (OMap.set eq_dec k v m) = OMap.get eq_dec k' m.
Proof.
  intros Hne. induction m as [|[k2 v2] m IH]; simpl.
  - destruct (eq_dec k' k); congruence.
  - destruct (eq_dec k k2) as [E|N]; simpl.
    + subst. destruct (eq_dec k' k2); congruence.
    + destruct (eq_dec k' k2); congruence.
Qed.

Lemma get_delete_eq k m : OMap.get eq_dec k (OMap.delete eq_dec k m) = None.
Proof.
  induction m as [|[k' v'] m IH]; simpl; auto.
  destruct (eq_dec k k') as [E|N]; simpl; auto.
  destruct (eq_dec k k'); congruence.
Qed.

Lemma get_delete_neq k k' m :
  k' <> k -> OMap.get eq_dec k' (OMap.delete eq_dec k m) = OMap.get eq_dec k' m.
Proof.
  intros Hne. induction m as [|[k2 v2] m IH]; simpl; auto.
  destruct (eq_dec k k2) as [E|N]; simpl.
  - subst. destruct (eq_dec k' k2); congruence.
  - destruct (eq_dec k' k2); congruence.
Qed.

Lemma delete_absent k m : OMap.get eq_dec k m = None -> OMap.delete eq_dec k m = m.
Proof.
  induction m as [|[k' v'] m IH]; simpl; auto.
  destruct (eq_dec k k'); [discriminate|].
  intros H. now rewrite IH.
Qed.

Lemma set_same k v m : OMap.get eq_dec k m = Some v -> OMap.set eq_dec k v m = m.
Proof.
  induction m as [|[k' v'] m IH]; simpl; [discriminate|].
  destruct (eq_dec k k') as [E|N].
  - intros [= ->]. now subst.
  - intros H. now rewrite IH.
Qed.

Lemma has_true k m : OMap.has eq_dec k m = true -> exists v, OMap.get eq_dec k m = Some v.
Proof.
  unfold OMap.has. destruct (OMap.get eq_dec k m) as [v|]; [eauto|discriminate].
Qed.

Lemma has_false k m : OMap.has eq_dec k m = false -> OMap.get eq_dec k m = None.
Proof.
  unfold OMap.has. destruct (OMap.get eq_dec k m); [discriminate|auto].
Qed.

Lemma size_zero m : Nat.eqb (OMap.size m) 0 = true -> m = [].
Proof.
  destruct m; [auto|discriminate].
Qed.
End Facts.
End OMapFacts.

Module OSetFacts.
Section Facts.
Variable A : Type.
Variable eq_dec : forall x y : A, {x = y} + {x <> y}.
Implicit Types (a b : A) (s : OSet.t A).

Lemma in_add a b s : In b (OSet.add eq_dec a s) <-> b = a \/ In b s.
Proof.
  unfold OSet.add. destruct (in_dec eq_dec a s) as [Hin|Hni].
  - split; [auto|]. intros [->|H]; auto.
  - rewrite in_app_iff. simpl. intuition congruence.
Qed.

Lemma in_delete a b s : In b (OSet.delete eq_dec a s) <-> b <> a /\ In b s.
Proof.
  induction s as [|c s IH]; simpl; [tauto|].
  destruct (eq_dec a c) as [E|N]; simpl; rewrite IH; intuition congruence.
Qed.

Lemma delete_missing a s : ~ In a s -> OSet.delete eq_dec a s = s.
Proof.
  induction s as [|c s IH]; simpl; auto.
  intros H. destruct (eq_dec a c) as [E|N]; [subst; tauto|].
  rewrite IH; tauto.
Qed.

Lemma delete_idem a s :
  OSet.delete eq_dec a (OSet.delete eq_dec a s) = OSet.delete eq_dec a s.
Proof.
  apply delete_missing. rewrite in_delete. tauto.
Qed.

Lemma delete_app a s1 s2 :
  OSet.delete eq_dec a (s1 ++ s2) = OSet.delete eq_dec a s1 ++ OSet.delete eq_dec a s2.
Proof.
  induction s1 as [|c s1 IH]; simpl; auto.
  destruct (eq_dec a c); simpl; now rewrite IH.
Qed.

Lemma delete_add_absent a s : ~ In a s -> OSet.delete eq_dec a (OSet.add eq_dec a s) = s.
Proof.
  intros H. unfold OSet.add. destruct (in_dec eq_dec a s); [tauto|].
  rewrite delete_app, (delete_missing a s H). simpl.
  destruct (eq_dec a a); [|congruence]. apply app_nil_r.
Qed.

Lemma nodup_add a s : NoDup s -> NoDup (OSet.add eq_dec a s).
Proof.
  intros H. unfold OSet.add. destruct (in_dec eq_dec a s) as [Hin|Hni]; [exact H|].
  apply NoDup_app; [exact H|repeat constructor; simpl; tauto|].
  intros x Hx [<-|[]]. contradiction.
Qed.

Lemma nodup_delete a s : NoDup s -> NoDup (OSet.delete eq_dec a s).
Proof.
  induction 1 as [|c s Hc Hs IH]; simpl; [constructor|].
  destruct (eq_dec a c); [exact IH|].
  constructor; [|exact IH]. rewrite in_delete. tauto.
Qed.

Lemma empty_of_size s : Nat.eqb (OSet.size s) 0 = true -> s = [].
Proof.
  destruct s; [auto|discriminate].
Qed.
End Facts.
End OSetFacts.

(** ** The transport and the registry *)

Section Registrations.
Variable payload : Type.
Implicit Types (st : state payload) (e : event) (h : handler).

Lemma set_listeners_same st : set_listeners (listeners st) st = st.
Proof. now destruct st. Qed.

Lemma set_unsubscribeFunctions_same st :
  set_unsubscribeFunctions (unsubscribeFunctions st) st = st.
Proof. now destruct st. Qed.

Lemma subscribers_subscribe e h e' st :
  subscribers e' (snd (subscribe e h st)) =
  if string_dec e' e then OSet.add handler_eq_dec h (subscribers e st)
  else subscribers e' st.
Proof.
  unfold subscribe, subscribers. simpl.
  destruct (OMap.has string_dec e (listeners st)) eqn:Hhas.
  - apply OMapFacts.has_true in Hhas. destruct Hhas as [hs Hhs]. rewrite Hhs.
    destruct (string_dec e' e) as [->|Hne].
    + now rewrite OMapFacts.get_set_eq.
    + now rewrite OMapFacts.get_set_neq.
  - apply OMapFacts.has_false in Hhas. rewrite Hhas.
    rewrite OMapFacts.get_set_eq.
    destruct (string_dec e' e) as [->|Hne].
    + now rewrite OMapFacts.get_set_eq.
    + now rewrite !OMapFacts.get_set_neq.
Qed.

Lemma subscribers_transport_unsubscribe e h e' st :
  subscribers e' (transport_unsubscribe (TUnsub e h) st) =
  if string_dec e' e then OSet.delete handler_eq_dec h (subscribers e st)
  else subscribers e' st.
Proof.
  unfold transport_unsubscribe, subscribers.
  destruct (OMap.get string_dec e (listeners st)) as [hs|] eqn:Hhs.
  - destruct (Nat.eqb _ 0) eqn:Hsz; simpl.
    + apply OSetFacts.empty_of_size in Hsz. rewrite Hsz.
      destruct (string_dec e' e) as [->|Hne].
      * now rewrite OMapFacts.get_delete_eq.
      * now rewrite OMapFacts.get_delete_neq, OMapFacts.get_set_neq.
    + destruct (string_dec e' e) as [->|Hne].
      * now rewrite OMapFacts.get_set_eq.
      * now rewrite OMapFacts.get_set_neq.
  - destruct (string_dec e' e) as [->|Hne]; [now rewrite Hhs|reflexivity].
Qed.

Lemma transport_unsubscribe_frame u st :
  unsubscribeFunctions (transport_unsubscribe u st) = unsubscribeFunctions st /\
  queue (transport_unsubscribe u st) = queue st /\
  next_closure (transport_unsubscribe u st) = next_closure st /\
  trace (transport_unsubscribe u st) = trace st /\
  console (transport_unsubscribe u st) = console st.
Proof.
  destruct u as [e h]. unfold transport_unsubscribe.
  destruct (OMap.get string_dec e (listeners st)); [|tauto].
  destruct (Nat.eqb _ 0); simpl; tauto.
Qed.

Lemma transport_unsubscribe_idem u st :
  transport_unsubscribe u (transport_unsubscribe u st) = transport_unsubscribe u st.
Proof.
  destruct u as [e h]. unfold transport_unsubscribe.
  destruct (OMap.get string_dec e (listeners st)) as [hs|] eqn:Hhs.
  - destruct (Nat.eqb _ 0) eqn:Hsz; simpl.
    + now rewrite OMapFacts.get_delete_eq.
    + rewrite OMapFacts.get_set_eq.
      rewrite OSetFacts.delete_idem, Hsz.
      rewrite OMapFacts.set_same by apply OMapFacts.get_set_eq.
      reflexivity.
  - now rewrite Hhs.
Qed.

Lemma transport_unsubscribe_set_registry u r st :
  transport_unsubscribe u (set_unsubscribeFunctions r st) =
  set_unsubscribeFunctions r (transport_unsubscribe u st).
Proof.
  destruct u as [e h]. unfold transport_unsubscribe. simpl.
  destruct (OMap.get string_dec e (listeners st)); [|reflexivity].
  destruct (Nat.eqb _ 0); reflexivity.
Qed.

Lemma transport_unsubscribe_forget u key h m st :
  transport_unsubscribe u (forget key h m st) =
  forget key h m (transport_unsubscribe u st).
Proof.
  unfold forget.
  destruct (transport_unsubscribe_frame u st) as (Hr & _).
  rewrite Hr.
  destruct (Nat.eqb _ 0); apply transport_unsubscribe_set_registry.
Qed.

Lemma forget_frame key h m st :
  listeners (forget key h m st) = listeners st /\
  queue (forget key h m st) = queue st /\
  next_closure (forget key h m st) = next_closure st /\
  trace (forget key h m st) = trace st /\
  console (forget key h m st) = console st.
Proof.
  unfold forget. destruct (Nat.eqb _ 0); simpl; tauto.
Qed.

Lemma registered_forget e h m e' h' st :
  OMap.get string_dec (getEventKey e) (unsubscribeFunctions st) = Some m ->
  registered e' h' (forget (getEventKey e) h m st) =
  if string_dec e' e then
    if handler_eq_dec h' h then None else registered e' h' st
  else registered e' h' st.
Proof.
  unfold registered, forget, getEventKey. intros Hm.
  destruct (Nat.eqb _ 0) eqn:Hsz; simpl.
  - apply OMapFacts.size_zero in Hsz.
    destruct (string_dec e' e) as [->|Hne].
    + rewrite OMapFacts.get_delete_eq, Hm.
      destruct (handler_eq_dec h' h) as [->|Hh]; [reflexivity|].
      rewrite <- (OMapFacts.get_delete_neq _ _ handler_eq_dec h h' m Hh).
      now rewrite Hsz.
    + now rewrite OMapFacts.get_delete_neq, OMapFacts.get_set_neq.
  - destruct (string_dec e' e) as [->|Hne].
    + rewrite OMapFacts.get_set_eq, Hm.
      destruct (handler_eq_dec h' h) as [->|Hh].
      * apply OMapFacts.get_delete_eq.
      * now apply OMapFacts.get_delete_neq.
    + now rewrite OMapFacts.get_set_neq.
Qed.

Lemma forget_idem key h m st :
  OMap.get string_dec key (unsubscribeFunctions st) = Some m ->
  match OMap.get string_dec key (unsubscribeFunctions (forget key h m st)) with
  | Some m' => forget key h m' (forget key h m st)
  | None => forget key h m st
  end = forget key h m st.
Proof.
  intros Hm. unfold forget at 1.
  destruct (Nat.eqb (OMap.size (OMap.delete handler_eq_dec h m)) 0) eqn:Hsz; simpl.
  - now rewrite OMapFacts.get_delete_eq.
  - rewrite OMapFacts.get_set_eq.
    unfold forget at 1.
    rewrite (OMapFacts.delete_absent _ _ handler_eq_dec h (OMap.delete handler_eq_dec h m))
      by apply OMapFacts.get_delete_eq.
    rewrite Hsz.
    unfold forget. rewrite Hsz. simpl.
    rewrite OMapFacts.set_same by apply OMapFacts.get_set_eq.
    reflexivity.
Qed.

Lemma on_returns e h st :
  fst (on e h st) = BusUnsub (TUnsub e h) (getEventKey e) h.
Proof. reflexivity. Qed.

Lemma subscribers_on e h e' st :
  subscribers e' (snd (on e h st)) =
  if string_dec e' e then OSet.add handler_eq_dec h (subscribers e st)
  else subscribers e' st.
Proof.
  rewrite <- subscribers_subscribe. reflexivity.
Qed.

Lemma registered_on e h e' h' st :
  registered e' h' (snd (on e h st)) =
  if string_dec e' e then
    if handler_eq_dec h' h then Some (TUnsub e h) else registered e' h' st
  else registered e' h' st.
Proof.
  unfold registered, on, getEventKey. simpl.
  destruct (OMap.has string_dec e (unsubscribeFunctions st)) eqn:Hhas.
  - apply OMapFacts.has_true in Hhas. destruct Hhas as [m Hm]. rewrite Hm.
    destruct (string_dec e' e) as [->|Hne].
    + rewrite OMapFacts.get_set_eq, Hm.
      destruct (handler_eq_dec h' h) as [->|Hh].
      * apply OMapFacts.get_set_eq.
      * now apply OMapFacts.get_set_neq.
    + now rewrite OMapFacts.get_set_neq.
  - apply OMapFacts.has_false in Hhas.
    rewrite OMapFacts.get_set_eq.
    destruct (string_dec e' e) as [->|Hne].
    + rewrite OMapFacts.get_set_eq, Hhas. simpl.
      destruct (handler_eq_dec h' h) as [->|Hh]; reflexivity.
    + now rewrite !OMapFacts.get_set_neq.
Qed.

Lemma on_frame e h st :
  queue (snd (on e h st)) = queue st /\
  next_closure (snd (on e h st)) = next_closure st /\
  trace (snd (on e h st)) = trace st /\
  console (snd (on e h st)) = console st.
Proof. unfold on; simpl; tauto. Qed.

Lemma once_frame e id st :
  queue (snd (once e id st)) = queue st /\
  trace (snd (once e id st)) = trace st /\
  console (snd (once e id st)) = console st.
Proof. unfold once, on; simpl; tauto. Qed.

Lemma unsubscribe_call_frame u st :
  queue (unsubscribe_call u st) = queue st /\
  next_closure (unsubscribe_call u st) = next_closure st /\
  trace (unsubscribe_call u st) = trace st /\
  console (unsubscribe_call u st) = console st.
Proof.
  destruct u as [tu key h]. unfold unsubscribe_call.
  destruct (transport_unsubscribe_frame tu st) as (_ & Hq & Hn & Ht & Hc).
  destruct (OMap.get string_dec key _) as [m|]; [|tauto].
  destruct (forget_frame key h m (transport_unsubscribe tu st)) as (_ & Hq' & Hn' & Ht' & Hc').
  repeat split; congruence.
Qed.

Lemma subscribers_unsubscribe_call e h key h0 e' st :
  subscribers e' (unsubscribe_call (BusUnsub (TUnsub e h) key h0) st) =
  if string_dec e' e then OSet.delete handler_eq_dec h (subscribers e st)
  else subscribers e' st.
Proof.
  rewrite <- subscribers_transport_unsubscribe.
  unfold unsubscribe_call.
  destruct (OMap.get string_dec key _) as [m|]; [|reflexivity].
  unfold subscribers.
  destruct (forget_frame key h0 m (transport_unsubscribe (TUnsub e h) st)) as (Hl & _).
  now rewrite Hl.
Qed.

Lemma registered_unsubscribe_call tu e h e' h' st :
  registered e' h' (unsubscribe_call (BusUnsub tu (getEventKey e) h) st) =
  if string_dec e' e then
    if handler_eq_dec h' h then None else registered e' h' st
  else registered e' h' st.
Proof.
  unfold unsubscribe_call.
  destruct (transport_unsubscribe_frame tu st) as (Hr & _).
  destruct (OMap.get string_dec (getEventKey e) _) as [m|] eqn:Hm.
  - rewrite registered_forget by exact Hm.
    unfold registered. now rewrite Hr.
  - unfold registered. rewrite Hr. rewrite Hr in Hm.
    destruct (string_dec e' e) as [->|Hne]; [|reflexivity].
    rewrite Hm. now destruct (handler_eq_dec h' h).
Qed.

Lemma unsubscribe_call_idem u st :
  unsubscribe_call u (unsubscribe_call u st) = unsubscribe_call u st.
Proof.
  destruct u as [tu key h]. unfold unsubscribe_call.
  destruct (OMap.get string_dec key (unsubscribeFunctions (transport_unsubscribe tu st)))
    as [m|] eqn:Hm.
  - rewrite transport_unsubscribe_forget, transport_unsubscribe_idem.
    now apply forget_idem.
  - rewrite transport_unsubscribe_idem. now rewrite Hm.
Qed.

Lemma off_absent e h st : registered e h st = None -> off e h st = st.
Proof.
  unfold registered, off. destruct (OMap.get string_dec _ _) as [m|]; [|reflexivity].
  now intros ->.
Qed.

Lemma off_frame e h st :
  queue (off e h st) = queue st /\
  next_closure (off e h st) = next_closure st /\
  trace (off e h st) = trace st /\
  console (off e h st) = console st.
Proof.
  unfold off. destruct (OMap.get string_dec _ _) as [m|]; [|tauto].
  destruct (OMap.get handler_eq_dec h m) as [u|]; [|tauto].
  destruct (transport_unsubscribe_frame u st) as (_ & Hq & Hn & Ht & Hc).
  destruct (forget_frame (getEventKey e) h m (transport_unsubscribe u st))
    as (_ & Hq' & Hn' & Ht' & Hc').
  repeat split; congruence.
Qed.

Lemma registered_off e h e' h' st :
  registered e' h' (off e h st) =
  if string_dec e' e then
    if handler_eq_dec h' h then None else registered e' h' st
  else registered e' h' st.
Proof.
  destruct (registered e h st) as [u|] eqn:Hreg.
  - unfold off. unfold registered in Hreg.
    destruct (OMap.get string_dec (getEventKey e) (unsubscribeFunctions st)) as [m|] eqn:Hm;
      [|discriminate].
    rewrite Hreg.
    destruct (transport_unsubscribe_frame u st) as (Hr & _).
    rewrite registered_forget by (rewrite Hr; exact Hm).
    unfold registered. now rewrite Hr.
  - rewrite off_absent by exact Hreg.
    destruct (string_dec e' e) as [->|]; [|reflexivity].
    destruct (handler_eq_dec h' h) as [->|]; [exact Hreg|reflexivity].
Qed.

Lemma subscribers_off e h e' st :
  registered e h st = Some (TUnsub e h) ->
  subscribers e' (off e h st) =
  if string_dec e' e then OSet.delete handler_eq_dec h (subscribers e st)
  else subscribers e' st.
Proof.
  intros Hreg. rewrite <- subscribers_transport_unsubscribe.
  unfold off. unfold registered in Hreg.
  destruct (OMap.get string_dec (getEventKey e) (unsubscribeFunctions st)) as [m|];
    [|discriminate].
  rewrite Hreg. unfold subscribers.
  destruct (forget_frame (getEventKey e) h m (transport_unsubscribe (TUnsub e h) st))
    as (Hl & _).
  now rewrite Hl.
Qed.

Lemma off_idem e h st : off e h (off e h st) = off e h st.
Proof.
  apply off_absent. rewrite registered_off.
  destruct (string_dec e e); [|congruence].
  destruct (handler_eq_dec h h); congruence.
Qed.

Lemma clear_unsubscribes_frame (us : list tunsub) st :
  let st' := fold_left (fun s' unsubscribe => transport_unsubscribe unsubscribe s') us st in
  unsubscribeFunctions st' = unsubscribeFunctions st /\
  queue st' = queue st /\
  next_closure st' = next_closure st /\
  trace st' = trace st /\
  console st' = console st.
Proof.
  revert st. induction us as [|u us IH]; intros st; simpl; [tauto|].
  destruct (IH (transport_unsubscribe u st)) as (Hr & Hq & Hn & Ht & Hc).
  destruct (transport_unsubscribe_frame u st) as (Hr' & Hq' & Hn' & Ht' & Hc').
  repeat split; congruence.
Qed.

(** [clear] in closed form: everything is emptied, [close] is observed. *)
Lemma clear_eq st :
  clear st = mkState [] [] [] (next_closure st) (trace st ++ [Closed]) (console st).
Proof.
  unfold clear.
  set (ms := OMap.values (unsubscribeFunctions (set_queue [] st))).
  assert (H : forall (ms : list (OMap.t handler tunsub)) (s : state payload),
             let s' := fold_left
                         (fun s0 eventHandlers =>
                            fold_left (fun s' unsubscribe => transport_unsubscribe unsubscribe s')
                                      (OMap.values eventHandlers) s0) ms s in
             queue s' = queue s /\ next_closure s' = next_closure s /\
             trace s' = trace s /\ console s' = console s).
  { clear. induction ms as [|m ms IH]; intros s; simpl; [tauto|].
    destruct (IH (fold_left (fun s' unsubscribe => transport_unsubscribe unsubscribe s')
                            (OMap.values m) s)) as (Hq & Hn & Ht & Hc).
    destruct (clear_unsubscribes_frame (OMap.values m) s) as (_ & Hq' & Hn' & Ht' & Hc').
    repeat split; congruence. }
  destruct (H ms (set_queue [] st)) as (Hq & Hn & Ht & Hc).
  unfold close, observe, set_listeners, set_unsubscribeFunctions. simpl.
  rewrite Hq, Hn, Ht, Hc. reflexivity.
Qed.

Lemma registry_ok_create : registry_ok (@createRouteBus payload).
Proof. intros e h u. discriminate. Qed.

Lemma registry_ok_on e h st : registry_ok st -> registry_ok (snd (on e h st)).
Proof.
  intros Hok e' h' u. rewrite registered_on.
  destruct (string_dec e' e) as [->|]; [|apply Hok].
  destruct (handler_eq_dec h' h) as [->|]; [congruence|apply Hok].
Qed.

Lemma registry_ok_unsubscribe_call u st :
  registry_ok st -> registry_ok (unsubscribe_call u st).
Proof.
  intros Hok e' h' u'. destruct u as [tu key h].
  change key with (getEventKey key). rewrite registered_unsubscribe_call.
  destruct (string_dec e' key) as [->|]; [|apply Hok].
  destruct (handler_eq_dec h' h) as [->|]; [discriminate|apply Hok].
Qed.

Lemma registry_ok_off e h st : registry_ok st -> registry_ok (off e h st).
Proof.
  intros Hok e' h' u'. rewrite registered_off.
  destruct (string_dec e' e) as [->|]; [|apply Hok].
  destruct (handler_eq_dec h' h) as [->|]; [discriminate|apply Hok].
Qed.

Lemma registry_ok_clear st : registry_ok (clear st).
Proof. rewrite clear_eq. intros e h u. discriminate. Qed.

Lemma registry_ok_same st st' :
  unsubscribeFunctions st' = unsubscribeFunctions st ->
  registry_ok st -> registry_ok st'.
Proof.
  intros Heq Hok e h u. unfold registered. rewrite Heq. apply Hok.
Qed.

Lemma distinct_create : distinct (@createRouteBus payload).
Proof. intros e. constructor. Qed.

Lemma distinct_same st st' : listeners st' = listeners st -> distinct st -> distinct st'.
Proof. intros Heq H e. unfold subscribers. rewrite Heq. apply H. Qed.

Lemma distinct_on e h st : distinct st -> distinct (snd (on e h st)).
Proof.
  intros H e'. rewrite subscribers_on.
  destruct (string_dec e' e); [|apply H]. apply OSetFacts.nodup_add, H.
Qed.

Lemma distinct_transport_unsubscribe u st :
  distinct st -> distinct (transport_unsubscribe u st).
Proof.
  intros H e'. destruct u as [e h]. rewrite subscribers_transport_unsubscribe.
  destruct (string_dec e' e); [|apply H]. apply OSetFacts.nodup_delete, H.
Qed.

Lemma distinct_unsubscribe_call u st : distinct st -> distinct (unsubscribe_call u st).
Proof.
  intros H. destruct u as [tu key h]. unfold unsubscribe_call.
  destruct (OMap.get string_dec key _) as [m|].
  - eapply distinct_same; [apply forget_frame|]. now apply distinct_transport_unsubscribe.
  - now apply distinct_transport_unsubscribe.
Qed.

Lemma distinct_off e h st : distinct st -> distinct (off e h st).
Proof.
  intros H. unfold off.
  destruct (OMap.get string_dec _ _) as [m|]; [|exact H].
  destruct (OMap.get handler_eq_dec h m) as [u|]; [|exact H].
  eapply distinct_same; [apply forget_frame|]. now apply distinct_transport_unsubscribe.
Qed.

Lemma distinct_clear st : distinct (clear st).
Proof. rewrite clear_eq. intros e. constructor. Qed.

Lemma subscribers_transport_unsubscribe_subset u e' h' st :
  In h' (subscribers e' (transport_unsubscribe u st)) -> In h' (subscribers e' st).
Proof.
  destruct u as [e h]. rewrite subscribers_transport_unsubscribe.
  destruct (string_dec e' e) as [->|]; [|auto].
  rewrite OSetFacts.in_delete. tauto.
Qed.

Lemma subscribers_unsubscribe_call_subset u e' h' st :
  In h' (subscribers e' (unsubscribe_call u st)) -> In h' (subscribers e' st).
Proof.
  destruct u as [[e h] key h0]. rewrite subscribers_unsubscribe_call.
  destruct (string_dec e' e) as [->|]; [|auto].
  rewrite OSetFacts.in_delete. tauto.
Qed.

Lemma subscribers_off_subset e h e' h' st :
  In h' (subscribers e' (off e h st)) -> In h' (subscribers e' st).
Proof.
  unfold off.
  destruct (OMap.get string_dec _ _) as [m|]; [|auto].
  destruct (OMap.get handler_eq_dec h m) as [u|]; [|auto].
  intros H. apply (subscribers_transport_unsubscribe_subset u).
  unfold subscribers in *.
  destruct (forget_frame (getEventKey e) h m (transport_unsubscribe u st)) as (Hl & _).
  now rewrite Hl in H.
Qed.

End Registrations.

(** ** Reasoning about caller code

    A relation between the state before and after, indexed by the nesting
    depth, that holds of every step the bus takes holds of every call,
    whatever the handlers and processors do. *)

Section Calling.
Variable payload : Type.
Variable code : nat -> payload -> list (cmd payload).
Variable pcode : nat -> event -> payload -> list (cmd payload).
Implicit Types (st : state payload) (e : event) (h : handler) (p : payload).
Implicit Types (invoke : callee payload -> state payload -> option (completion * state payload)).

Section Rely.
Variable R : nat -> state payload -> state payload -> Prop.
Variable ok : cmd payload -> Prop.
Hypothesis R_refl : forall d st, R d st st.
Hypothesis R_trans : forall d st1 st2 st3, R d st1 st2 -> R d st2 st3 -> R d st1 st3.
Hypothesis R_deeper : forall d st st', R (S d) st st' -> R d st st'.
Hypothesis code_ok : forall id p, Forall ok (code id p).
Hypothesis pcode_ok : forall id e p, Forall ok (pcode id e p).
Hypothesis R_invoked : forall d h p st, R d st (observe (Invoked d h p) st).
Hypothesis R_processed : forall d id e p st, R d st (observe (Processed d id e p) st).
Hypothesis R_on : forall d e id st, ok (On e id) -> R d st (snd (on e (Fn id) st)).
Hypothesis R_once : forall d e id st, ok (Once e id) -> R d st (snd (once e id st)).
Hypothesis R_off : forall d e id st, ok (Off e id) -> R d st (off e (Fn id) st).
Hypothesis R_clear : forall d st, ok Clear -> R d st (clear st).
Hypothesis R_enqueue : forall d e p st, ok (Enqueue e p) -> R d st (enqueue e p st).
Hypothesis R_call : forall d u st, ok (Call u) -> R d st (unsubscribe_call u st).
Hypothesis R_shift : forall d processor item rest st,
  ok (Drain processor) -> queue st = item :: rest -> R d st (set_queue rest st).
Hypothesis R_error : forall d err st, R d st (console_error err st).
Hypothesis R_wrapper : forall d a e id st,
  R d st (unsubscribe_call (wrapper_unsubscribe e (Wrapped a e id)) st).

Lemma dispatch_rel d invoke hs p st c st' :
  respects (R d) invoke -> dispatch invoke hs p st = Some (c, st') -> R d st st'.
Proof.
  intros Hinv. revert st. induction hs as [|h hs IH]; intros st; simpl.
  - intros [= <- <-]. apply R_refl.
  - destruct (invoke (Handler h p) st) as [[[|err] st1]|] eqn:Hh; [| |discriminate].
    + intros H. eapply R_trans; [eapply Hinv; exact Hh|]. now apply IH.
    + intros [= <- <-]. eapply Hinv; exact Hh.
Qed.

Lemma publish_rel d invoke e p st c st' :
  respects (R d) invoke -> publish invoke e p st = Some (c, st') -> R d st st'.
Proof.
  intros Hinv. unfold publish.
  destruct (OMap.get string_dec e (listeners st)) as [hs|].
  - now apply dispatch_rel.
  - intros [= <- <-]. apply R_refl.
Qed.

Lemma emit_rel d invoke e p st st' :
  respects (R d) invoke -> emit invoke e p st = Some st' -> R d st st'.
Proof.
  intros Hinv. unfold emit.
  destruct (publish invoke e p st) as [[[|err] st1]|] eqn:Hp; [| |discriminate].
  - intros [= <-]. eapply publish_rel; eauto.
  - intros [= <-]. eapply R_trans; [eapply publish_rel; eauto|apply R_error].
Qed.

Lemma drain_loop_rel d k proc st c st' :
  (forall item rest s, queue s = item :: rest -> R d s (set_queue rest s)) ->
  (forall e p s c s', proc e p s = Some (c, s') -> R d s s') ->
  drain_loop k proc st = Some (c, st') -> R d st st'.
Proof.
  intros Hshift Hproc. revert st.
  induction k as [|k IH]; intros st; simpl;
    destruct (queue st) as [|item rest] eqn:Hq.
  - intros [= <- <-]. apply R_refl.
  - discriminate.
  - intros [= <- <-]. apply R_refl.
  - destruct (proc (fst item) (snd item) (set_queue rest st)) as [[[|err] st1]|] eqn:Hc;
      [| |discriminate].
    + intros H. eapply R_trans; [eapply Hshift; exact Hq|].
      eapply R_trans; [eapply Hproc; exact Hc|]. now apply IH.
    + intros [= <- <-]. eapply R_trans; [eapply Hshift; exact Hq|].
      eapply Hproc; exact Hc.
Qed.

Lemma drain_rel d invoke k processor st c st' :
  respects (R d) invoke -> ok (Drain processor) ->
  drain invoke k processor st = Some (c, st') -> R d st st'.
Proof.
  intros Hinv Hok. unfold drain. apply drain_loop_rel.
  - intros item rest s. now apply R_shift with processor.
  - destruct processor as [id|]; simpl.
    + intros e p s c0 s' H. eapply Hinv; exact H.
    + intros e p s c0 s'. unfold defaultProcessor.
      destruct (emit invoke e p s) as [s1|] eqn:He; [|discriminate].
      intros [= <- <-]. eapply emit_rel; eauto.
Qed.

Lemma exec_rel d invoke k c st r st' :
  respects (R d) invoke -> ok c -> exec invoke k c st = Some (r, st') -> R d st st'.
Proof.
  intros Hinv Hok. destruct c; simpl.
  - intros [= <- <-]. now apply R_on.
  - intros [= <- <-]. now apply R_once.
  - intros [= <- <-]. now apply R_off.
  - destruct (emit invoke e p st) as [s1|] eqn:He; [|discriminate].
    intros [= <- <-]. eapply emit_rel; eauto.
  - intros [= <- <-]. now apply R_clear.
  - intros [= <- <-]. now apply R_enqueue.
  - now apply drain_rel.
  - intros [= <- <-]. now apply R_call.
  - intros [= <- <-]. apply R_refl.
Qed.

Lemma run_rel d invoke k body st r st' :
  respects (R d) invoke -> Forall ok body ->
  run invoke k body st = Some (r, st') -> R d st st'.
Proof.
  intros Hinv Hok. revert st. induction Hok as [|c body Hc Hbody IH]; intros st; simpl.
  - intros [= <- <-]. apply R_refl.
  - destruct (exec invoke k c st) as [[[|err] st1]|] eqn:Hx; [| |discriminate].
    + intros H. eapply R_trans; [eapply exec_rel; eauto|]. now apply IH.
    + intros [= <- <-]. eapply exec_rel; eauto.
Qed.

Lemma call_rel n : forall d, respects (R d) (call code pcode n d).
Proof.
  induction n as [|n IH]; intros d f st c st'; simpl; [discriminate|].
  destruct f as [[id|a e id] p|id e p].
  - intros H. eapply R_trans; [apply R_invoked|].
    apply R_deeper. eapply run_rel; [apply IH|apply code_ok|exact H].
  - destruct (call code pcode n (S d) (Handler (Fn id) p) _) as [[[|err] st1]|] eqn:Hc;
      [| |discriminate].
    + intros [= <- <-]. eapply R_trans; [apply R_invoked|].
      eapply R_trans; [apply R_deeper; eapply IH; exact Hc|]. apply R_wrapper.
    + intros [= <- <-]. eapply R_trans; [apply R_invoked|].
      apply R_deeper. eapply IH; exact Hc.
  - intros H. eapply R_trans; [apply R_processed|].
    apply R_deeper. eapply run_rel; [apply IH|apply pcode_ok|exact H].
Qed.

Theorem rely : sound code pcode R ok.
Proof.
  pose proof call_rel as Hcall.
  repeat split.
  - exact Hcall.
  - intros n d k body st r st' Hok. apply run_rel; [apply Hcall|exact Hok].
  - intros n d hs p st c st'. apply dispatch_rel, Hcall.
  - intros n d e p st c st'. apply publish_rel, Hcall.
  - intros n d e p st st'. apply emit_rel, Hcall.
  - intros n d k processor st c st'. apply drain_rel, Hcall.
Qed.

End Rely.

(** *** The trace only grows, and only with deeper calls *)

Lemma grows_refl d st : grows d st st.
Proof. exists []. split; [now rewrite app_nil_r|constructor]. Qed.

Lemma grows_trans d st1 st2 st3 : grows d st1 st2 -> grows d st2 st3 -> grows d st1 st3.
Proof.
  intros (a & Ha & Fa) (b & Hb & Fb). exists (a ++ b). split.
  - now rewrite Hb, Ha, app_assoc.
  - apply Forall_app; auto.
Qed.

Lemma reaches_deeper d (o : obs payload) : reaches (S d) o -> reaches d o.
Proof. destruct o; simpl; lia. Qed.

Lemma grows_deeper d st st' : grows (S d) st st' -> grows d st st'.
Proof.
  intros (a & Ha & Fa). exists a. split; [exact Ha|].
  eapply Forall_impl; [|exact Fa]. apply reaches_deeper.
Qed.

Lemma grows_same d st st' : trace st' = trace st -> grows d st st'.
Proof. intros H. exists []. split; [now rewrite app_nil_r|constructor]. Qed.

Lemma grows_observe d o st : reaches d o -> grows d st (observe o st).
Proof. intros H. exists [o]. split; [reflexivity|now constructor]. Qed.

Lemma grows_sound : sound code pcode grows (fun _ => True).
Proof.
  apply rely.
  - apply grows_refl.
  - apply grows_trans.
  - apply grows_deeper.
  - intros. apply Forall_forall. auto.
  - intros. apply Forall_forall. auto.
  - intros. apply grows_observe. simpl. lia.
  - intros. apply grows_observe. simpl. lia.
  - intros. apply grows_same, on_frame.
  - intros. apply grows_same, once_frame.
  - intros. apply grows_same, off_frame.
  - intros. rewrite clear_eq. exists [Closed]. split; [reflexivity|]. now repeat constructor.
  - intros. now apply grows_same.
  - intros. apply grows_same, unsubscribe_call_frame.
  - intros. now apply grows_same.
  - intros. now apply grows_same.
  - intros. apply grows_same, unsubscribe_call_frame.
Qed.

(** *** What a call adds to the trace *)

Lemma since_app st st' added :
  trace st' = trace st ++ added -> since st st' = added.
Proof.
  intros H. unfold since. rewrite H, skipn_app, skipn_all, Nat.sub_diag. reflexivity.
Qed.

Lemma direct_app d st st' added :
  trace st' = trace st ++ added -> direct d st st' = filter (at_depth d) added.
Proof.
  intros H. unfold direct. now rewrite (since_app st st' added H).
Qed.

Lemma filter_deeper d (added : list (obs payload)) :
  Forall (reaches (S d)) added -> filter (at_depth d) added = [].
Proof.
  induction 1 as [|o added Ho _ IH]; simpl; [reflexivity|].
  rewrite IH. destruct o; simpl in *; try reflexivity.
  - destruct (Nat.eqb_spec depth d); [lia|reflexivity].
  - destruct (Nat.eqb_spec depth d); [lia|reflexivity].
Qed.

Lemma call_trace n d f st c st' :
  call code pcode n d f st = Some (c, st') ->
  exists added,
    trace st' = trace st ++ observation d f :: added /\
    Forall (reaches (S d)) added.
Proof.
  destruct grows_sound as (Hcall & Hrun & _).
  assert (Hobs : forall (o : obs payload) s s', grows (S d) (observe o s) s' ->
            exists added, trace s' = trace s ++ o :: added /\ Forall (reaches (S d)) added).
  { intros o s s' (added & Ht & Hf). exists added. split; [|exact Hf].
    rewrite Ht. simpl. now rewrite <- app_assoc. }
  destruct n as [|n]; simpl; [discriminate|].
  destruct f as [[id|a e id] p|id e p]; simpl.
  - intros H. apply Hobs. eapply Hrun; [|exact H]. apply Forall_forall. auto.
  - destruct (call code pcode n (S d) (Handler (Fn id) p) _) as [[[|err] st1]|] eqn:Hc;
      [| |discriminate].
    + intros [= <- <-]. apply Hcall in Hc. apply Hobs in Hc.
      destruct Hc as (added & Ht & Hf). exists added. split; [|exact Hf].
      rewrite <- Ht.
      change (trace (unsubscribe_call (wrapper_unsubscribe e (Wrapped a e id)) st1) = trace st1).
      apply unsubscribe_call_frame.
    + intros [= <- <-]. apply Hcall in Hc. now apply Hobs.
  - intros H. apply Hobs. eapply Hrun; [|exact H]. apply Forall_forall. auto.
Qed.

(** The handlers a dispatch has called when it ends: all of them when it
    returns, those up to the one that threw otherwise. *)
Lemma dispatch_trace n d hs p st c st' :
  dispatch (call code pcode n d) hs p st = Some (c, st') ->
  exists added called,
    trace st' = trace st ++ added /\
    filter (at_depth d) added = map (fun h => Invoked d h p) called /\
    match c with
    | Normal => called = hs
    | Throws _ => exists l1 h l2, hs = l1 ++ h :: l2 /\ called = l1 ++ [h]
    end.
Proof.
  revert st. induction hs as [|h hs IH]; intros st; simpl.
  - intros [= <- <-]. exists [], []. now rewrite app_nil_r.
  - destruct (call code pcode n d (Handler h p) st) as [[[|err] st1]|] eqn:Hh;
      [| |discriminate];
      apply call_trace in Hh; destruct Hh as (a1 & Ht1 & Hf1).
    + intros H. apply IH in H. destruct H as (a2 & called & Ht2 & Hfl & Hc).
      exists ((Invoked d h p :: a1) ++ a2).
      assert (Hfilter : filter (at_depth d) ((Invoked d h p :: a1) ++ a2) =
                        Invoked d h p :: map (fun h => Invoked d h p) called).
      { rewrite filter_app. simpl. rewrite Nat.eqb_refl, (filter_deeper d a1 Hf1), Hfl.
        reflexivity. }
      assert (Htr : trace st' = trace st ++ (Invoked d h p :: a1) ++ a2).
      { rewrite Ht2, Ht1. simpl. now rewrite <- app_assoc. }
      destruct c as [|err].
      * exists (h :: called). subst called. auto.
      * destruct Hc as (l1 & h' & l2 & Hhs & Hcalled).
        exists (h :: called). repeat split; auto.
        exists (h :: l1), h', l2. subst. auto.
    + intros [= <- <-]. exists (Invoked d h p :: a1), [h]. repeat split.
      * exact Ht1.
      * simpl. now rewrite Nat.eqb_refl, (filter_deeper d a1 Hf1).
      * exists [], h, hs. auto.
Qed.

Lemma publish_direct n d e p st st' :
  publish (call code pcode n d) e p st = Some (Normal, st') ->
  direct d st st' = map (fun h => Invoked d h p) (subscribers e st).
Proof.
  unfold publish, subscribers.
  destruct (OMap.get string_dec e (listeners st)) as [hs|].
  - intros H. apply dispatch_trace in H.
    destruct H as (added & called & Ht & Hf & ->).
    now rewrite (direct_app d st st' added Ht).
  - intros [= <-]. unfold direct, since. now rewrite skipn_all.
Qed.

(** *** What calls preserve *)

(** The registry stays well formed whatever the handlers do. *)
Lemma registry_sound :
  sound code pcode (fun _ st st' => registry_ok st -> registry_ok st') (fun _ => True).
Proof.
  apply rely.
  - auto.
  - auto.
  - auto.
  - intros. apply Forall_forall. auto.
  - intros. apply Forall_forall. auto.
  - auto.
  - auto.
  - intros. now apply registry_ok_on.
  - intros d e id st _ H. unfold once. apply registry_ok_on.
    eapply registry_ok_same; [|exact H]. reflexivity.
  - intros. now apply registry_ok_off.
  - intros. apply registry_ok_clear.
  - auto.
  - intros. now apply registry_ok_unsubscribe_call.
  - auto.
  - auto.
  - intros. now apply registry_ok_unsubscribe_call.
Qed.

(** No handler gets subscribed twice to an event, whatever the handlers do. *)
Lemma distinct_sound :
  sound code pcode (fun _ st st' => distinct st -> distinct st') (fun _ => True).
Proof.
  apply rely.
  - auto.
  - auto.
  - auto.
  - intros. apply Forall_forall. auto.
  - intros. apply Forall_forall. auto.
  - auto.
  - auto.
  - intros. now apply distinct_on.
  - intros d e id st _ H. unfold once. apply distinct_on.
    eapply distinct_same; [|exact H]. reflexivity.
  - intros. now apply distinct_off.
  - intros. apply distinct_clear.
  - auto.
  - intros. now apply distinct_unsubscribe_call.
  - auto.
  - auto.
  - intros. now apply distinct_unsubscribe_call.
Qed.

(** A function of the caller that is not subscribed to [e] stays so as
    long as nobody calls [on] with it for [e]. *)
Lemma unsubscribed_sound e id :
  (forall i p, Forall (not_on e id) (code i p)) ->
  (forall i e' p, Forall (not_on e id) (pcode i e' p)) ->
  sound code pcode
        (fun _ st st' => ~ In (Fn id) (subscribers e st) -> ~ In (Fn id) (subscribers e st'))
        (not_on e id).
Proof.
  intros Hcode Hpcode.
  apply rely.
  - auto.
  - auto.
  - auto.
  - exact Hcode.
  - exact Hpcode.
  - auto.
  - auto.
  - intros d e' id' st Hok Hni. rewrite subscribers_on.
    destruct (string_dec e e') as [<-|]; [|exact Hni].
    rewrite OSetFacts.in_add. intros [[= Heq]|Hin]; [|tauto].
    simpl in Hok. destruct Hok; congruence.
  - intros d e' id' st _ Hni. unfold once. rewrite subscribers_on.
    destruct (string_dec e e') as [<-|]; [|exact Hni].
    rewrite OSetFacts.in_add. intros [Heq|Hin]; [discriminate|tauto].
  - intros d e' id' st _ Hni Hin. now apply subscribers_off_subset in Hin.
  - intros d st _ _. rewrite clear_eq. simpl. tauto.
  - auto.
  - intros d u st _ Hni Hin. now apply subscribers_unsubscribe_call_subset in Hin.
  - auto.
  - auto.
  - intros d a e' id' st Hni Hin. now apply subscribers_unsubscribe_call_subset in Hin.
Qed.

(** The states a program reaches from a fresh bus. *)
Lemma program_invariants n body c st :
  program code pcode n body createRouteBus = Some (c, st) ->
  registry_ok st /\ distinct st.
Proof.
  intros H. unfold program in H.
  destruct registry_sound as (_ & Hr & _).
  destruct distinct_sound as (_ & Hd & _).
  split.
  - eapply Hr; [|exact H|apply registry_ok_create]. apply Forall_forall. auto.
  - eapply Hd; [|exact H|apply distinct_create]. apply Forall_forall. auto.
Qed.

Lemma closes_same st st' : trace st' = trace st -> closes st' = closes st.
Proof. unfold closes. now intros ->. Qed.

Lemma closes_observe_call d f st : closes (observe (observation d f) st) = closes st.
Proof.
  unfold closes, observe. simpl. rewrite filter_app.
  destruct f; simpl; now rewrite app_nil_r.
Qed.

(** Code that never calls [clear] never has [close] called. *)
Lemma closes_sound :
  (forall id p, Forall not_clear (code id p)) ->
  (forall id e p, Forall not_clear (pcode id e p)) ->
  sound code pcode (fun _ st st' => closes st' = closes st) not_clear.
Proof.
  intros Hcode Hpcode.
  apply rely.
  - auto.
  - intros; congruence.
  - auto.
  - exact Hcode.
  - exact Hpcode.
  - intros d h p st. apply (closes_observe_call d (Handler h p)).
  - intros d id e p st. apply (closes_observe_call d (Processor id e p)).
  - intros. apply closes_same, on_frame.
  - intros. apply closes_same, once_frame.
  - intros. apply closes_same, off_frame.
  - intros d st [].
  - intros. now apply closes_same.
  - intros. apply closes_same, unsubscribe_call_frame.
  - intros. now apply closes_same.
  - intros. now apply closes_same.
  - intros. apply closes_same, unsubscribe_call_frame.
Qed.

(** Code that never enqueues, clears or drains leaves the queue alone. *)
Lemma queue_sound :
  (forall id p, Forall keeps_queue (code id p)) ->
  (forall id e p, Forall keeps_queue (pcode id e p)) ->
  sound code pcode (fun _ st st' => queue st' = queue st) keeps_queue.
Proof.
  intros Hcode Hpcode.
  apply rely.
  - auto.
  - intros; congruence.
  - auto.
  - exact Hcode.
  - exact Hpcode.
  - auto.
  - auto.
  - intros. apply on_frame.
  - intros. apply once_frame.
  - intros. apply off_frame.
  - intros d st [].
  - intros d e p st [].
  - intros. apply unsubscribe_call_frame.
  - intros d processor item rest st [].
  - auto.
  - intros. apply unsubscribe_call_frame.
Qed.

(** *** Quiet code returns *)

Lemma exec_quiet invoke k c st :
  quiet c -> exists r st', exec invoke k c st = Some (r, st').
Proof.
  destruct c; simpl; intros H; try contradiction; eauto.
Qed.

Lemma run_quiet invoke k body st :
  Forall quiet body -> exists r st', run invoke k body st = Some (r, st').
Proof.
  intros H. revert st. induction H as [|c body Hc _ IH]; intros st; simpl; [eauto|].
  destruct (exec_quiet invoke k c st Hc) as ([|err] & st1 & ->); eauto.
Qed.

Lemma handler_call_quiet n d h p st :
  (forall id q, Forall quiet (code id q)) ->
  2 <= n -> exists r st', call code pcode n d (Handler h p) st = Some (r, st').
Proof.
  intros Hcode Hn.
  destruct n as [|[|n]]; [lia|lia|].
  destruct h as [id|a e id].
  - apply run_quiet, Hcode.
  - change (call code pcode (S (S n)) d (Handler (Wrapped a e id) p) st) with
      (match call code pcode (S n) (S d) (Handler (Fn id) p)
                  (observe (Invoked d (Wrapped a e id) p) st) with
       | Some (Normal, st1) =>
           Some (Normal, unsubscribe_call (wrapper_unsubscribe e (Wrapped a e id)) st1)
       | r => r
       end).
    destruct (run_quiet (call code pcode n (S (S d))) n (code id p)
                (observe (Invoked (S d) (Fn id) p) (observe (Invoked d (Wrapped a e id) p) st))
                (Hcode id p)) as ([|err] & st1 & H);
      simpl; rewrite H; eauto.
Qed.

Lemma dispatch_total invoke hs p st :
  (forall h s, exists r s', invoke (Handler h p) s = Some (r, s')) ->
  exists r st', dispatch invoke hs p st = Some (r, st').
Proof.
  intros Hinv. revert st. induction hs as [|h hs IH]; intros st; simpl; [eauto|].
  destruct (Hinv h st) as ([|err] & st1 & ->); eauto.
Qed.

Lemma emit_total invoke e p st :
  (forall h s, exists r s', invoke (Handler h p) s = Some (r, s')) ->
  exists st', emit invoke e p st = Some st'.
Proof.
  intros Hinv. unfold emit, publish.
  destruct (OMap.get string_dec e (listeners st)) as [hs|]; [|eauto].
  destruct (dispatch_total invoke hs p st Hinv) as ([|err] & st1 & ->); eauto.
Qed.

(** *** More fuel, same result *)

Lemma dispatch_mono invoke invoke' hs p st r :
  covers invoke invoke' ->
  dispatch invoke hs p st = Some r -> dispatch invoke' hs p st = Some r.
Proof.
  intros Hc. revert st. induction hs as [|h hs IH]; intros st; simpl; [auto|].
  destruct (invoke (Handler h p) st) as [[[|err] st1]|] eqn:Hh; [| |discriminate];
    rewrite (Hc _ _ _ Hh); auto.
Qed.

Lemma emit_mono invoke invoke' e p st st' :
  covers invoke invoke' ->
  emit invoke e p st = Some st' -> emit invoke' e p st = Some st'.
Proof.
  intros Hc. unfold emit, publish.
  destruct (OMap.get string_dec e (listeners st)) as [hs|]; [|auto].
  destruct (dispatch invoke hs p st) as [r|] eqn:Hd; [|discriminate].
  now rewrite (dispatch_mono invoke invoke' hs p st r Hc Hd).
Qed.

Lemma drain_loop_mono k k' proc proc' st r :
  k <= k' ->
  (forall e p s r0, proc e p s = Some r0 -> proc' e p s = Some r0) ->
  drain_loop k proc st = Some r -> drain_loop k' proc' st = Some r.
Proof.
  intros Hk Hp. revert k' Hk st. induction k as [|k IH]; intros k' Hk st.
  - simpl. destruct k'; simpl; destruct (queue st); auto; discriminate.
  - destruct k' as [|k']; [lia|]. simpl.
    destruct (queue st) as [|item rest]; [auto|].
    destruct (proc (fst item) (snd item) (set_queue rest st)) as [[[|err] st1]|] eqn:Hc;
      [| |discriminate]; rewrite (Hp _ _ _ _ Hc); [|auto].
    apply IH. lia.
Qed.

Lemma drain_mono invoke invoke' k k' processor st r :
  covers invoke invoke' -> k <= k' ->
  drain invoke k processor st = Some r -> drain invoke' k' processor st = Some r.
Proof.
  intros Hc Hk. unfold drain. apply drain_loop_mono; [exact Hk|].
  destruct processor as [id|]; simpl.
  - intros e p s r0. apply Hc.
  - intros e p s r0. unfold defaultProcessor.
    destruct (emit invoke e p s) as [s1|] eqn:He; [|discriminate].
    now rewrite (emit_mono invoke invoke' e p s s1 Hc He).
Qed.

Lemma exec_mono invoke invoke' k k' c st r :
  covers invoke invoke' -> k <= k' ->
  exec invoke k c st = Some r -> exec invoke' k' c st = Some r.
Proof.
  intros Hc Hk. destruct c; simpl; auto.
  - destruct (emit invoke e p st) as [s1|] eqn:He; [|discriminate].
    now rewrite (emit_mono invoke invoke' e p st s1 Hc He).
  - now apply drain_mono.
Qed.

Lemma run_mono invoke invoke' k k' body st r :
  covers invoke invoke' -> k <= k' ->
  run invoke k body st = Some r -> run invoke' k' body st = Some r.
Proof.
  intros Hc Hk. revert st. induction body as [|c body IH]; intros st; simpl; [auto|].
  destruct (exec invoke k c st) as [[[|err] st1]|] eqn:Hx; [| |discriminate];
    rewrite (exec_mono invoke invoke' k k' c st _ Hc Hk Hx); auto.
Qed.

(** The result of a call does not depend on the fuel, once there is enough. *)
Lemma call_mono n m d :
  n <= m -> covers (call code pcode n d) (call code pcode m d).
Proof.
  revert m d. induction n as [|n IH]; intros m d Hnm f st r; [discriminate|].
  destruct m as [|m]; [lia|].
  assert (Hc : forall d', covers (call code pcode n d') (call code pcode m d'))
    by (intros d'; apply IH; lia).
  assert (Hle : n <= m) by lia.
  destruct f as [[id|a e id] p|id e p]; simpl.
  - apply run_mono; auto.
  - destruct (call code pcode n (S d) (Handler (Fn id) p) _) as [r1|] eqn:H1;
      [|discriminate].
    now rewrite (Hc (S d) _ _ _ H1).
  - apply run_mono; auto.
Qed.

(** *** The drain loop *)


Lemma drain_loop_step k proc st item rest st1 :
  queue st = item :: rest ->
  proc (fst item) (snd item) (set_queue rest st) = Some (Normal, st1) ->
  drain_loop (S k) proc st = drain_loop k proc st1.
Proof.
  intros Hq Hp. simpl. now rewrite Hq, Hp.
Qed.

Lemma drain_loop_throws k proc st item rest err st1 :
  queue st = item :: rest ->
  proc (fst item) (snd item) (set_queue rest st) = Some (Throws err, st1) ->
  drain_loop (S k) proc st = Some (Throws err, st1).
Proof.
  intros Hq Hp. simpl. now rewrite Hq, Hp.
Qed.

(** With a processor that leaves the queue alone, the loop over the live
    queue is the pass over the items queued when [drain] was called. *)
Lemma drain_loop_for_each k proc st :
  (forall e p s c s', proc e p s = Some (c, s') -> queue s' = queue s) ->
  List.length (queue st) <= k ->
  drain_loop k proc st = for_each proc (queue st) st.
Proof.
  intros Hkeep. revert st. induction k as [|k IH]; intros st; simpl;
    destruct (queue st) as [|item rest] eqn:Hq; simpl; try reflexivity; try lia.
  intros Hlen.
  destruct (proc (fst item) (snd item) (set_queue rest st)) as [[[|err] st1]|] eqn:Hp;
    try reflexivity.
  apply Hkeep in Hp. simpl in Hp. rewrite <- Hp. apply IH. rewrite Hp. lia.
Qed.

Lemma for_each_processed n d id items st st' :
  for_each (fun e p => call code pcode n d (Processor id e p)) items st = Some (Normal, st') ->
  exists added,
    trace st' = trace st ++ added /\
    filter (at_depth d) added = map (fun item => Processed d id (fst item) (snd item)) items.
Proof.
  revert st. induction items as [|item rest IH]; intros st; simpl.
  - intros [= <-]. exists []. now rewrite app_nil_r.
  - destruct (call code pcode n d _ (set_queue rest st)) as [[[|err] st1]|] eqn:Hc;
      try discriminate.
    intros H. apply IH in H. destruct H as (a2 & Ht2 & Hf2).
    apply call_trace in Hc. destruct Hc as (a1 & Ht1 & Hf1). simpl in Ht1.
    exists ((Processed d id (fst item) (snd item) :: a1) ++ a2). split.
    + rewrite Ht2, Ht1. now rewrite <- app_assoc.
    + rewrite filter_app. simpl.
      now rewrite Nat.eqb_refl, (filter_deeper d a1 Hf1), Hf2.
Qed.


End Calling.

(** ** How a dispatch and a drain end, from how their calls end *)

Section Outcomes.
Variable payload : Type.
Variable code : nat -> payload -> list (cmd payload).
Variable pcode : nat -> event -> payload -> list (cmd payload).
Implicit Types (st s : state payload) (e : event) (h : handler) (p : payload).

Section Dispatching.
Variable invoke : callee payload -> state payload -> option (completion * state payload).

Lemma dispatch_returning p hs st st' :
  returning invoke p hs st st' -> dispatch invoke hs p st = Some (Normal, st').
Proof.
  induction 1 as [|h hs st st1 st' Hh _ IH]; simpl; [reflexivity|]. now rewrite Hh.
Qed.

Lemma dispatch_throwing p done h rest err st s1 s2 :
  returning invoke p done st s1 ->
  invoke (Handler h p) s1 = Some (Throws err, s2) ->
  dispatch invoke (done ++ h :: rest) p st = Some (Throws err, s2).
Proof.
  induction 1 as [|h0 hs st st1 st' Hh _ IH]; simpl; intros Hthrow.
  - now rewrite Hthrow.
  - rewrite Hh. auto.
Qed.

(** However a dispatch ends, the handlers before the end returned, and a
    dispatch that throws throws what the handler it reached threw. *)
Lemma dispatch_ends p hs st c st' :
  dispatch invoke hs p st = Some (c, st') ->
  match c with
  | Normal => returning invoke p hs st st'
  | Throws err =>
      exists done h rest s1,
        hs = done ++ h :: rest /\
        returning invoke p done st s1 /\
        invoke (Handler h p) s1 = Some (Throws err, st')
  end.
Proof.
  revert st. induction hs as [|h hs IH]; intros st; simpl.
  - intros [= <- <-]. constructor.
  - destruct (invoke (Handler h p) st) as [[[|err] st1]|] eqn:Hh; [| |discriminate].
    + intros H. apply IH in H. destruct c as [|err].
      * econstructor; eassumption.
      * destruct H as (done & h' & rest & s1 & -> & Hret & Hthrow).
        exists (h :: done), h', rest, s1. split; [reflexivity|].
        split; [econstructor; eassumption|exact Hthrow].
    + intros [= <- <-]. exists [], h, hs, st. split; [reflexivity|].
      split; [constructor|exact Hh].
Qed.

Lemma returning_total p hs :
  (forall h, In h hs -> returns invoke (Handler h p)) ->
  forall st, exists st', returning invoke p hs st st'.
Proof.
  induction hs as [|h hs IH]; intros Hret st.
  - exists st. constructor.
  - destruct (Hret h (or_introl eq_refl) st) as (st1 & Hh).
    destruct (IH (fun h' Hin => Hret h' (or_intror Hin)) st1) as (st' & Hrest).
    exists st'. econstructor; eassumption.
Qed.

Lemma returning_steady p hs :
  (forall h, In h hs -> steady invoke (Handler h p)) ->
  forall st, exists st',
    returning invoke p hs st st' /\ queue st' = queue st /\ listeners st' = listeners st.
Proof.
  induction hs as [|h hs IH]; intros Hret st.
  - exists st. split; [constructor|auto].
  - destruct (Hret h (or_introl eq_refl) st) as (st1 & Hh & Hq1 & Hl1).
    destruct (IH (fun h' Hin => Hret h' (or_intror Hin)) st1) as (st' & Hrest & Hq & Hl).
    exists st'. split; [econstructor; eassumption|]. split; congruence.
Qed.

Lemma publish_returning e p st st' :
  returning invoke p (subscribers e st) st st' ->
  publish invoke e p st = Some (Normal, st').
Proof.
  unfold publish, subscribers.
  destruct (OMap.get string_dec e (listeners st)) as [hs|].
  - apply dispatch_returning.
  - intros H. inversion H. reflexivity.
Qed.

Lemma publish_throwing e p done h rest err st s1 s2 :
  subscribers e st = done ++ h :: rest ->
  returning invoke p done st s1 ->
  invoke (Handler h p) s1 = Some (Throws err, s2) ->
  publish invoke e p st = Some (Throws err, s2).
Proof.
  unfold publish, subscribers.
  destruct (OMap.get string_dec e (listeners st)) as [hs|].
  - intros ->. apply dispatch_throwing.
  - intros H. destruct done; discriminate.
Qed.

Lemma publish_ends e p st c st' :
  publish invoke e p st = Some (c, st') ->
  match c with
  | Normal => returning invoke p (subscribers e st) st st'
  | Throws err =>
      exists done h rest s1,
        subscribers e st = done ++ h :: rest /\
        returning invoke p done st s1 /\
        invoke (Handler h p) s1 = Some (Throws err, st')
  end.
Proof.
  unfold publish, subscribers.
  destruct (OMap.get string_dec e (listeners st)) as [hs|].
  - apply dispatch_ends.
  - intros [= <- <-]. constructor.
Qed.

Lemma default_processor_returns e p st c st' :
  defaultProcessor invoke e p st = Some (c, st') -> c = Normal.
Proof.
  unfold defaultProcessor. destruct (emit invoke e p st); [|discriminate].
  now intros [= <- _].
Qed.

Lemma drain_loop_returns k proc st c st' :
  (forall e p s c' s', proc e p s = Some (c', s') -> c' = Normal) ->
  drain_loop k proc st = Some (c, st') -> c = Normal.
Proof.
  intros Hproc. revert st. induction k as [|k IH]; intros st; simpl;
    destruct (queue st) as [|item rest]; try discriminate; try (now intros [= <- _]).
  destruct (proc (fst item) (snd item) (set_queue rest st)) as [[[|err] st1]|] eqn:Hp;
    [apply IH| |discriminate].
  apply Hproc in Hp. discriminate.
Qed.

End Dispatching.

(** The calls a dispatch makes while its handlers return. *)
Lemma returning_trace n d p hs st st' :
  returning (call code pcode n d) p hs st st' ->
  exists added,
    trace st' = trace st ++ added /\
    filter (at_depth d) added = map (fun h => Invoked d h p) hs.
Proof.
  intros H. apply dispatch_returning in H. apply dispatch_trace in H.
  destruct H as (added & called & Ht & Hf & ->). eauto.
Qed.

(** The calls a dispatch has made when a handler throws. *)
Lemma throwing_trace n d p done h err st s1 s2 :
  returning (call code pcode n d) p done st s1 ->
  call code pcode n d (Handler h p) s1 = Some (Throws err, s2) ->
  exists added,
    trace s2 = trace st ++ added /\
    filter (at_depth d) added = map (fun h => Invoked d h p) (done ++ [h]).
Proof.
  intros Hret Hthrow. apply returning_trace in Hret. destruct Hret as (a1 & Ht1 & Hf1).
  apply call_trace in Hthrow. destruct Hthrow as (a2 & Ht2 & Hf2). simpl in Ht2.
  exists (a1 ++ Invoked d h p :: a2). split.
  - rewrite Ht2, Ht1. now rewrite <- app_assoc.
  - rewrite filter_app, Hf1, map_app. simpl.
    now rewrite Nat.eqb_refl, (filter_deeper payload d a2 Hf2).
Qed.

Lemma direct_console_error d err st st' :
  direct d st (console_error err st') = direct d st st'.
Proof. reflexivity. Qed.

(** An emit whose handlers are steady: they are all called, and the queue
    and the subscriptions are as before. *)
Lemma emit_steady n d e p st :
  (forall h, In h (subscribers e st) -> steady (call code pcode n d) (Handler h p)) ->
  exists st' added,
    emit (call code pcode n d) e p st = Some st' /\
    queue st' = queue st /\ listeners st' = listeners st /\
    trace st' = trace st ++ added /\
    filter (at_depth d) added = map (fun h => Invoked d h p) (subscribers e st).
Proof.
  intros Hsteady.
  destruct (returning_steady (call code pcode n d) p (subscribers e st) Hsteady st)
    as (st' & Hret & Hq & Hl).
  destruct (returning_trace n d p _ st st' Hret) as (added & Ht & Hf).
  exists st', added. split.
  - unfold emit. now rewrite (publish_returning _ e p st st' Hret).
  - auto.
Qed.

(** The drain loop while the processor returns: it has taken the items of
    [done] from the queue, one call each, and goes on with the rest. *)
Lemma drain_loop_prefix n d id done : forall st tail,
  queue st = done ++ tail ->
  (forall i, In i done -> keeping (call code pcode n d) (Processor id (fst i) (snd i))) ->
  exists s1 added,
    queue s1 = tail /\
    trace s1 = trace st ++ added /\
    filter (at_depth d) added = map (fun i => Processed d id (fst i) (snd i)) done /\
    forall k,
      drain_loop (List.length done + k) (fun e p => call code pcode n d (Processor id e p)) st =
      drain_loop k (fun e p => call code pcode n d (Processor id e p)) s1.
Proof.
  induction done as [|item done IH]; intros st tail Hq Hkeep.
  - exists st, []. simpl in *. rewrite app_nil_r. auto.
  - destruct (Hkeep item (or_introl eq_refl) (set_queue (done ++ tail) st))
      as (st1 & Hcall & Hq1). simpl in Hq1.
    destruct (IH st1 tail Hq1 (fun i Hin => Hkeep i (or_intror Hin)))
      as (s1 & a2 & Hqs & Ht2 & Hf2 & Hloop).
    destruct (call_trace payload code pcode n d _ _ _ _ Hcall) as (a1 & Ht1 & Hf1).
    simpl in Ht1.
    exists s1, ((Processed d id (fst item) (snd item) :: a1) ++ a2).
    split; [exact Hqs|]. split; [|split].
    + rewrite Ht2, Ht1. now rewrite <- app_assoc.
    + rewrite filter_app. simpl.
      now rewrite Nat.eqb_refl, (filter_deeper payload d a1 Hf1), Hf2.
    + intros k. simpl. rewrite Hq. simpl. rewrite Hcall. apply Hloop.
Qed.

(** The drain loop with the default processor and steady handlers: an
    emit per item, in queue order, to the subscribers of its event. *)
Lemma drain_loop_default_steady n d st0 items : forall st,
  queue st = items -> listeners st = listeners st0 ->
  (forall item h, In item items -> In h (subscribers (fst item) st0) ->
                  steady (call code pcode n d) (Handler h (snd item))) ->
  exists s1 added,
    queue s1 = [] /\ listeners s1 = listeners st0 /\
    trace s1 = trace st ++ added /\
    filter (at_depth d) added =
      flat_map (fun item => map (fun h => Invoked d h (snd item)) (subscribers (fst item) st0))
               items /\
    forall k, List.length items <= k ->
      drain_loop k (defaultProcessor (call code pcode n d)) st = Some (Normal, s1).
Proof.
  induction items as [|item rest IH]; intros st Hq Hl Hsteady.
  - exists st, []. rewrite app_nil_r. repeat split; auto.
    intros k _. destruct k; simpl; now rewrite Hq.
  - assert (Hsub : subscribers (fst item) (set_queue rest st) = subscribers (fst item) st0).
    { unfold subscribers. simpl. now rewrite Hl. }
    destruct (emit_steady n d (fst item) (snd item) (set_queue rest st))
      as (st1 & a1 & Hemit & Hq1 & Hl1 & Ht1 & Hf1).
    { rewrite Hsub. intros h Hin. apply Hsteady; [now left|exact Hin]. }
    simpl in Hq1, Hl1, Ht1.
    destruct (IH st1 Hq1 (eq_trans Hl1 Hl)
                (fun i h Hi Hh => Hsteady i h (or_intror Hi) Hh))
      as (s1 & a2 & Hqs & Hls & Ht2 & Hf2 & Hloop).
    exists s1, (a1 ++ a2). split; [exact Hqs|]. split; [exact Hls|]. split; [|split].
    + rewrite Ht2, Ht1. now rewrite <- app_assoc.
    + rewrite filter_app, Hf1, Hf2, Hsub. reflexivity.
    + intros [|k] Hk; simpl in Hk; [lia|]. simpl. rewrite Hq. simpl.
      unfold defaultProcessor at 1. rewrite Hemit. apply Hloop. lia.
Qed.

End Outcomes.

(** * The claims *)

Section Claims.
Variable payload : Type.
Variable code : nat -> payload -> list (cmd payload).
Variable pcode : nat -> event -> payload -> list (cmd payload).
Implicit Types (st s : state payload) (e : event) (h : handler) (p : payload).

(** C1, as the code has it.  [emit(E, P)] calls, within the call, the
    handlers subscribed to [E] when the call is made, in registration
    order, each with [P] itself, up to the first one that throws.  When
    the handlers return, each in the state the one before it left, or
    when each of them returns whatever the state, emit returns and the
    calls made at the nesting of this emit are exactly [Invoked d h P] for
    [h] through the subscribers of [E] in order; more fuel gives the same
    result.  However an emit ends, the handlers it has called are the
    subscribers up to some point, in order: all of them, every one having
    returned, or those up to and including the first that threw, the later
    ones not being called.  In a state a program reaches from a fresh bus
    no handler is subscribed twice to [E], and a registration appends to
    the subscribers.  With no subscriber emit returns at once and the
    state, trace included, is unchanged.  With handler code that
    dispatches nothing itself, fuel 2 is enough for emit to return. *)
Theorem emit_invokes_subscribers n d e p st :
  (forall st',
      returning (call code pcode n d) p (subscribers e st) st st' ->
      emit (call code pcode n d) e p st = Some st' /\
      direct d st st' = map (fun h => Invoked d h p) (subscribers e st) /\
      (forall m, n <= m -> emit (call code pcode m d) e p st = Some st')) /\
  ((forall h, In h (subscribers e st) -> returns (call code pcode n d) (Handler h p)) ->
   exists st',
     emit (call code pcode n d) e p st = Some st' /\
     direct d st st' = map (fun h => Invoked d h p) (subscribers e st)) /\
  (forall st',
      emit (call code pcode n d) e p st = Some st' ->
      exists called rest,
        subscribers e st = called ++ rest /\
        direct d st st' = map (fun h => Invoked d h p) called /\
        ((rest = [] /\ returning (call code pcode n d) p called st st') \/
         (exists done h err s1 s2,
             called = done ++ [h] /\
             returning (call code pcode n d) p done st s1 /\
             call code pcode n d (Handler h p) s1 = Some (Throws err, s2) /\
             st' = console_error err s2))) /\
  (forall m body c,
      program code pcode m body createRouteBus = Some (c, st) ->
      NoDup (subscribers e st)) /\
  (forall h s,
      subscribers e (snd (on e h s)) = OSet.add handler_eq_dec h (subscribers e s)) /\
  (subscribers e st = [] -> emit (call code pcode n d) e p st = Some st) /\
  ((forall id q, Forall quiet (code id q)) -> 2 <= n ->
   exists st', emit (call code pcode n d) e p st = Some st').
Proof.
  assert (Hall : forall st',
             returning (call code pcode n d) p (subscribers e st) st st' ->
             emit (call code pcode n d) e p st = Some st' /\
             direct d st st' = map (fun h => Invoked d h p) (subscribers e st) /\
             (forall m, n <= m -> emit (call code pcode m d) e p st = Some st')).
  { intros st' Hret.
    assert (He : emit (call code pcode n d) e p st = Some st')
      by (unfold emit; now rewrite (publish_returning payload _ e p st st' Hret)).
    split; [exact He|]. split.
    - destruct (returning_trace payload code pcode n d p _ st st' Hret) as (added & Ht & Hf).
      now rewrite (direct_app payload d st st' added Ht).
    - intros m Hm. eapply emit_mono; [|exact He]. now apply call_mono. }
  split; [exact Hall|]. split; [|split; [|split; [|split; [|split]]]].
  - intros Hret.
    destruct (returning_total payload (call code pcode n d) p (subscribers e st) Hret st)
      as (st' & Hchain).
    exists st'. destruct (Hall st' Hchain) as (He & Hd & _). auto.
  - intros st' He. unfold emit in He.
    destruct (publish (call code pcode n d) e p st) as [[[|err] s2]|] eqn:Hp;
      [| |discriminate]; injection He as <-;
      apply publish_ends in Hp.
    + exists (subscribers e st), []. split; [now rewrite app_nil_r|]. split; [|now left].
      destruct (returning_trace payload code pcode n d p _ st s2 Hp) as (added & Ht & Hf).
      now rewrite (direct_app payload d st s2 added Ht).
    + destruct Hp as (done & h & rest & s1 & Hsub & Hret & Hthrow).
      exists (done ++ [h]), rest. split; [now rewrite Hsub, <- app_assoc|]. split.
      * destruct (throwing_trace payload code pcode n d p done h err st s1 s2 Hret Hthrow)
          as (added & Ht & Hf).
        now rewrite (direct_app payload d st (console_error err s2) added Ht).
      * right. exists done, h, err, s1, s2. auto.
  - intros m body c H. eapply program_invariants in H. apply H.
  - intros h s. rewrite subscribers_on. destruct (string_dec e e); congruence.
  - unfold emit, publish, subscribers.
    destruct (OMap.get string_dec e (listeners st)) as [hs|]; [|reflexivity].
    now intros ->.
  - intros Hq Hn. apply emit_total. intros h s. now apply handler_call_quiet.
Qed.

Lemma in_invoked d p h (hs : list handler) :
  In (Invoked d h p) (map (fun h' => Invoked d h' p) hs) <-> In h hs.
Proof.
  rewrite in_map_iff. split.
  - intros (h' & [= ->] & Hin). exact Hin.
  - intros Hin. exists h. auto.
Qed.

Lemma not_subscribed_after_unsubscribe e h s0 s :
  ~ In h (subscribers e (unsubscribe_call (fst (on e h s0)) s)).
Proof.
  rewrite on_returns, subscribers_unsubscribe_call.
  destruct (string_dec e e); [|congruence].
  rewrite OSetFacts.in_delete. tauto.
Qed.

(** C5, as the code has it.  The handlers an emit of [E] calls are taken
    from those subscribed to [E] when its dispatch begins, in that order,
    whatever the handlers do to the subscriptions meanwhile.  However the
    dispatch ends, every handler it calls was subscribed then, so one
    subscribed meanwhile is not called, nor one that was unsubscribed (by
    its unsubscribe function, or by [off]) before the dispatch began; and
    the handlers called are all of them when the dispatch returns, those
    up to and including the one that threw otherwise.  A handler no longer
    subscribed when the dispatch returns was called all the same.  When
    the handlers return (each whatever the state, or each in the state the
    one before it left), the dispatch returns and has called exactly the
    handlers subscribed when it began. *)
Theorem dispatch_uses_snapshot n d e p st :
  (forall c st',
      publish (call code pcode n d) e p st = Some (c, st') ->
      (exists called rest,
          subscribers e st = called ++ rest /\
          direct d st st' = map (fun h => Invoked d h p) called /\
          match c with
          | Normal => rest = []
          | Throws err =>
              exists done h s1,
                called = done ++ [h] /\
                returning (call code pcode n d) p done st s1 /\
                call code pcode n d (Handler h p) s1 = Some (Throws err, st')
          end) /\
      (forall h, In (Invoked d h p) (direct d st st') -> In h (subscribers e st)) /\
      (c = Normal ->
       forall h, In h (subscribers e st) -> In (Invoked d h p) (direct d st st')) /\
      (forall h, ~ In h (subscribers e st) -> ~ In (Invoked d h p) (direct d st st')) /\
      (forall h s0 s, st = unsubscribe_call (fst (on e h s0)) s ->
                      ~ In (Invoked d h p) (direct d st st')) /\
      (forall h s, st = off e h s -> registered e h s = Some (TUnsub e h) ->
                   ~ In (Invoked d h p) (direct d st st'))) /\
  ((forall h, In h (subscribers e st) -> returns (call code pcode n d) (Handler h p)) ->
   exists st',
     publish (call code pcode n d) e p st = Some (Normal, st') /\
     forall h, In (Invoked d h p) (direct d st st') <-> In h (subscribers e st)) /\
  (forall st',
      returning (call code pcode n d) p (subscribers e st) st st' ->
      publish (call code pcode n d) e p st = Some (Normal, st') /\
      forall h, In (Invoked d h p) (direct d st st') <-> In h (subscribers e st)).
Proof.
  assert (Hall : forall st',
             returning (call code pcode n d) p (subscribers e st) st st' ->
             publish (call code pcode n d) e p st = Some (Normal, st') /\
             forall h, In (Invoked d h p) (direct d st st') <-> In h (subscribers e st)).
  { intros st' Hret. split; [now apply publish_returning|].
    destruct (returning_trace payload code pcode n d p _ st st' Hret) as (added & Ht & Hf).
    intros h. rewrite (direct_app payload d st st' added Ht), Hf. apply in_invoked. }
  split; [|split; [|exact Hall]].
  - intros c st' Hp.
    assert (Hdec : exists called rest,
               subscribers e st = called ++ rest /\
               direct d st st' = map (fun h => Invoked d h p) called /\
               match c with
               | Normal => rest = []
               | Throws err =>
                   exists done h s1,
                     called = done ++ [h] /\
                     returning (call code pcode n d) p done st s1 /\
                     call code pcode n d (Handler h p) s1 = Some (Throws err, st')
               end).
    { apply publish_ends in Hp. destruct c as [|err].
      - exists (subscribers e st), []. split; [now rewrite app_nil_r|].
        split; [|reflexivity].
        destruct (returning_trace payload code pcode n d p _ st st' Hp) as (added & Ht & Hf).
        now rewrite (direct_app payload d st st' added Ht).
      - destruct Hp as (done & h & rest & s1 & Hsub & Hret & Hthrow).
        exists (done ++ [h]), rest. split; [now rewrite Hsub, <- app_assoc|]. split.
        + destruct (throwing_trace payload code pcode n d p done h err st s1 st' Hret Hthrow)
            as (added & Ht & Hf).
          now rewrite (direct_app payload d st st' added Ht).
        + exists done, h, s1. auto. }
    assert (Hsub : forall h, In (Invoked d h p) (direct d st st') -> In h (subscribers e st)).
    { destruct Hdec as (called & rest & Hs & Hd & _). intros h.
      rewrite Hd, in_invoked, Hs, in_app_iff. auto. }
    split; [exact Hdec|]. split; [exact Hsub|]. split; [|split; [|split]].
    + intros -> h Hin. destruct Hdec as (called & rest & Hs & Hd & ->).
      rewrite app_nil_r in Hs. rewrite Hd, in_invoked, <- Hs. exact Hin.
    + intros h Hni Hin. apply Hni, Hsub, Hin.
    + intros h s0 s -> Hin. apply Hsub in Hin.
      now apply not_subscribed_after_unsubscribe in Hin.
    + intros h s -> Hreg Hin. apply Hsub in Hin.
      rewrite (subscribers_off payload e h e s Hreg) in Hin.
      destruct (string_dec e e); [|congruence].
      apply OSetFacts.in_delete in Hin. tauto.
  - intros Hret.
    destruct (returning_total payload (call code pcode n d) p (subscribers e st) Hret st)
      as (st' & Hchain).
    exists st'. now apply Hall.
Qed.

(** C7.  The function returned by [on(E, h)] and the transport's own
    unsubscribe function are idempotent: a second call changes nothing.
    A call removes [h] from the subscribers of [E] and [(E, h)] from the
    registry, keeps every other subscriber of [E] in place and in order
    and every other event and registry entry as it was, touches neither
    the queue nor the trace, returns normally, and no emit of [E] from the
    state it leaves calls [h]; a function of the caller stays unsubscribed
    through every later run of the program in which [on(E, h)] is not
    called again. *)
Theorem unsubscribe_idempotent e h s0 st :
  let u := fst (on e h s0) in
  let tu := fst (subscribe e h s0) in
  unsubscribe_call u (unsubscribe_call u st) = unsubscribe_call u st /\
  transport_unsubscribe tu (transport_unsubscribe tu st) = transport_unsubscribe tu st /\
  (forall e',
      subscribers e' (unsubscribe_call u st) =
      if string_dec e' e then OSet.delete handler_eq_dec h (subscribers e st)
      else subscribers e' st) /\
  (forall e',
      subscribers e' (transport_unsubscribe tu st) =
      if string_dec e' e then OSet.delete handler_eq_dec h (subscribers e st)
      else subscribers e' st) /\
  (forall h', In h' (subscribers e (unsubscribe_call u st)) <->
              h' <> h /\ In h' (subscribers e st)) /\
  (forall e' h',
      registered e' h' (unsubscribe_call u st) =
      if string_dec e' e then
        if handler_eq_dec h' h then None else registered e' h' st
      else registered e' h' st) /\
  queue (unsubscribe_call u st) = queue st /\
  trace (unsubscribe_call u st) = trace st /\
  (forall invoke k,
      exec invoke k (Call u) st = Some (Normal, unsubscribe_call u st)) /\
  (forall n d p st',
      publish (call code pcode n d) e p (unsubscribe_call u st) = Some (Normal, st') ->
      ~ In (Invoked d h p) (direct d (unsubscribe_call u st) st')) /\
  (forall id n body c st',
      h = Fn id ->
      (forall i q, Forall (not_on e id) (code i q)) ->
      (forall i e' q, Forall (not_on e id) (pcode i e' q)) ->
      Forall (not_on e id) body ->
      program code pcode n body (unsubscribe_call u st) = Some (c, st') ->
      ~ In h (subscribers e st')).
Proof.
  intros u tu. subst u tu. rewrite on_returns.
  change (fst (subscribe e h s0)) with (TUnsub e h).
  split; [apply unsubscribe_call_idem|].
  split; [apply transport_unsubscribe_idem|].
  split; [intros e'; apply subscribers_unsubscribe_call|].
  split; [intros e'; apply subscribers_transport_unsubscribe|].
  split.
  { intros h'. rewrite subscribers_unsubscribe_call.
    destruct (string_dec e e); [|congruence]. apply OSetFacts.in_delete. }
  split; [intros e' h'; apply registered_unsubscribe_call|].
  split; [apply unsubscribe_call_frame|].
  split; [apply unsubscribe_call_frame|].
  split; [reflexivity|].
  assert (Hgone : ~ In h (subscribers e
                    (unsubscribe_call (BusUnsub (TUnsub e h) (getEventKey e) h) st))).
  { rewrite subscribers_unsubscribe_call.
    destruct (string_dec e e); [|congruence].
    rewrite OSetFacts.in_delete. tauto. }
  split.
  { intros n d p st' H Hin.
    rewrite (publish_direct payload code pcode n d e p _ st' H) in Hin.
    apply in_invoked in Hin. now apply Hgone. }
  intros id n body c st' -> Hcode Hpcode Hbody H.
  destruct (unsubscribed_sound payload code pcode e id Hcode Hpcode) as (_ & Hrun & _).
  eapply Hrun; [exact Hbody|exact H|exact Hgone].
Qed.

(** C8.  [off(E, h)] with [(E, h)] absent from the registry returns the
    state it was given: no registration and no queued item changes, and
    nothing is raised.  With [(E, h)] present it removes that entry and no
    other from the registry and, the registry being well formed (as it is
    in every state a program reaches from a fresh bus), [h] and no other
    handler from the subscribers of [E].  A second [off] is again a
    no-op. *)
Theorem off_removes_only_its_registration e h st :
  (registered e h st = None -> off e h st = st) /\
  (forall e' h',
      registered e' h' (off e h st) =
      if string_dec e' e then
        if handler_eq_dec h' h then None else registered e' h' st
      else registered e' h' st) /\
  (registry_ok st -> registered e h st <> None ->
   forall e',
     subscribers e' (off e h st) =
     if string_dec e' e then OSet.delete handler_eq_dec h (subscribers e st)
     else subscribers e' st) /\
  (forall m body c,
      program code pcode m body createRouteBus = Some (c, st) -> registry_ok st) /\
  (forall invoke k id,
      exec invoke k (Off e id) st = Some (Normal, off e (Fn id) st)) /\
  queue (off e h st) = queue st /\
  trace (off e h st) = trace st /\
  off e h (off e h st) = off e h st.
Proof.
  split; [apply off_absent|].
  split; [intros e' h'; apply registered_off|].
  split.
  { intros Hok Hreg e'. apply subscribers_off.
    destruct (registered e h st) as [u|] eqn:Hu; [|congruence].
    now rewrite (Hok e h u Hu). }
  split.
  { intros m body c H. eapply program_invariants in H. apply H. }
  split; [reflexivity|].
  split; [apply off_frame|].
  split; [apply off_frame|].
  apply off_idem.
Qed.

(** C10.  After [on(E, h)] gave [u1], and [u1] was called (or [off(E, h)]),
    and [on(E, h)] was called again, the old [u1] is the very capability
    the second [on] returned; calling it removes the new registration from
    the transport and from the registry, and an emit of [E] no longer
    calls [h]. *)
Theorem stale_unsubscribe_removes_new_registration e h st :
  let u1 := fst (on e h st) in
  let s1 := snd (on e h st) in
  forall s2, s2 = unsubscribe_call u1 s1 \/ s2 = off e h s1 ->
  let u2 := fst (on e h s2) in
  let s3 := snd (on e h s2) in
  let s4 := unsubscribe_call u1 s3 in
  ~ In h (subscribers e s2) /\
  u1 = u2 /\
  In h (subscribers e s3) /\
  registered e h s3 = Some (TUnsub e h) /\
  ~ In h (subscribers e s4) /\
  registered e h s4 = None /\
  (forall n d p st',
      publish (call code pcode n d) e p s4 = Some (Normal, st') ->
      ~ In (Invoked d h p) (direct d s4 st')).
Proof.
  intros u1 s1 s2 Hs2 u2 s3 s4. subst u1 u2 s4 s3.
  rewrite !on_returns.
  assert (Hs4 : ~ In h (subscribers e
                    (unsubscribe_call (BusUnsub (TUnsub e h) (getEventKey e) h)
                                      (snd (on e h s2))))).
  { rewrite subscribers_unsubscribe_call.
    destruct (string_dec e e); [|congruence].
    rewrite OSetFacts.in_delete. tauto. }
  split.
  { destruct Hs2 as [-> | ->].
    - apply not_subscribed_after_unsubscribe.
    - subst s1. rewrite subscribers_off.
      + destruct (string_dec e e); [|congruence].
        rewrite OSetFacts.in_delete. tauto.
      + rewrite registered_on. destruct (string_dec e e); [|congruence].
        destruct (handler_eq_dec h h); congruence. }
  split; [reflexivity|].
  split.
  { rewrite subscribers_on. destruct (string_dec e e); [|congruence].
    apply OSetFacts.in_add. auto. }
  split.
  { rewrite registered_on. destruct (string_dec e e); [|congruence].
    destruct (handler_eq_dec h h); congruence. }
  split; [exact Hs4|].
  split.
  { rewrite registered_unsubscribe_call. destruct (string_dec e e); [|congruence].
    destruct (handler_eq_dec h h); congruence. }
  intros n d p st' H Hin.
  rewrite (publish_direct payload code pcode n d e p _ st' H) in Hin.
  apply in_invoked in Hin. now apply Hs4.
Qed.

(** C2, as the code has it.  [drain(processor)] takes the items from the
    head of the queue, in the order they were enqueued whatever their
    event names, and calls the processor on each, until the queue is empty
    or a call throws.  With a processor that returns on every item queued
    and leaves the queue as it found it, and loop fuel for the items,
    drain returns, the queue is empty, and the calls drain itself makes
    are exactly the processor's, one per item in queue order: no handler
    is called by drain.  With a processor that throws on an item, drain
    throws the same there: the processor has been called once on each item
    up to that one, which is gone from the queue, and the items behind it
    stay queued.  With no processor given, the processor is [emit]: with
    handlers that return and leave the queue and the subscriptions alone,
    drain returns, the queue is empty, and its calls are, item after item,
    those of the subscribers of the item's event with the item's payload;
    and it never throws.  [enqueue] appends at the tail.  On an empty
    queue drain returns at once, the state unchanged. *)
Theorem drain_is_fifo n d k st :
  (forall id,
      (forall item, In item (queue st) ->
                    keeping (call code pcode n d) (Processor id (fst item) (snd item))) ->
      List.length (queue st) <= k ->
      exists st',
        drain (call code pcode n d) k (Some id) st = Some (Normal, st') /\
        queue st' = [] /\
        direct d st st' =
          map (fun item => Processed d id (fst item) (snd item)) (queue st) /\
        (forall h p, ~ In (Invoked d h p) (direct d st st'))) /\
  (forall id done item rest err,
      queue st = done ++ item :: rest ->
      (forall i, In i done ->
                 keeping (call code pcode n d) (Processor id (fst i) (snd i))) ->
      failing (call code pcode n d) (Processor id (fst item) (snd item)) err ->
      List.length done < k ->
      exists st',
        drain (call code pcode n d) k (Some id) st = Some (Throws err, st') /\
        queue st' = rest /\
        direct d st st' =
          map (fun item => Processed d id (fst item) (snd item)) (done ++ [item])) /\
  ((forall item h, In item (queue st) -> In h (subscribers (fst item) st) ->
                   steady (call code pcode n d) (Handler h (snd item))) ->
   List.length (queue st) <= k ->
   exists st',
     drain (call code pcode n d) k None st = Some (Normal, st') /\
     queue st' = [] /\
     direct d st st' =
       flat_map (fun item => map (fun h => Invoked d h (snd item))
                                 (subscribers (fst item) st))
                (queue st)) /\
  (forall e p s,
      processor_of (call code pcode n d) None e p s =
      match emit (call code pcode n d) e p s with
      | Some s1 => Some (Normal, s1)
      | None => None
      end) /\
  (forall err st', drain (call code pcode n d) k None st <> Some (Throws err, st')) /\
  (forall e p s, queue (enqueue e p s) = queue s ++ [(e, p)]) /\
  (queue st = [] ->
   forall k0 processor, drain (call code pcode n d) k0 processor st = Some (Normal, st)).
Proof.
  split; [|split; [|split; [|split; [|split; [|split]]]]].
  - intros id Hkeep Hk.
    destruct (drain_loop_prefix payload code pcode n d id (queue st) st []
                (eq_sym (app_nil_r _)) Hkeep) as (s1 & added & Hq1 & Ht & Hf & Hloop).
    assert (Hd : direct d st s1 =
                 map (fun item => Processed d id (fst item) (snd item)) (queue st))
      by now rewrite (direct_app payload d st s1 added Ht).
    exists s1. split; [|split; [exact Hq1|split; [exact Hd|]]].
    + unfold drain. simpl.
      replace k with (List.length (queue st) + (k - List.length (queue st))) by lia.
      rewrite Hloop. destruct (k - List.length (queue st)); simpl; now rewrite Hq1.
    + intros h p. rewrite Hd, in_map_iff. intros (item & E & _). discriminate.
  - intros id done item rest err Hq Hkeep Hfail Hk.
    destruct (drain_loop_prefix payload code pcode n d id done st (item :: rest) Hq Hkeep)
      as (s1 & a1 & Hq1 & Ht1 & Hf1 & Hloop).
    destruct (Hfail (set_queue rest s1)) as (s2 & Hcall & Hq2). simpl in Hq2.
    destruct (call_trace payload code pcode n d _ _ _ _ Hcall) as (a2 & Ht2 & Hf2).
    simpl in Ht2.
    exists s2. split; [|split; [exact Hq2|]].
    + unfold drain. simpl.
      replace k with (List.length done + S (k - S (List.length done))) by lia.
      rewrite Hloop. now apply drain_loop_throws with (item := item) (rest := rest).
    + rewrite (direct_app payload d st s2
                 (a1 ++ Processed d id (fst item) (snd item) :: a2)).
      * rewrite filter_app, Hf1, map_app. simpl.
        now rewrite Nat.eqb_refl, (filter_deeper payload d a2 Hf2).
      * rewrite Ht2, Ht1. now rewrite <- app_assoc.
  - intros Hsteady Hk.
    destruct (drain_loop_default_steady payload code pcode n d st (queue st) st
                eq_refl eq_refl Hsteady) as (s1 & added & Hq1 & _ & Ht & Hf & Hloop).
    exists s1. split; [exact (Hloop k Hk)|]. split; [exact Hq1|].
    now rewrite (direct_app payload d st s1 added Ht).
  - reflexivity.
  - intros err st' H. unfold drain in H. simpl in H.
    apply drain_loop_returns in H; [discriminate|].
    intros e p s c' s'. apply default_processor_returns.
  - reflexivity.
  - intros Hq k0 processor. unfold drain. destruct k0; simpl; now rewrite Hq.
Qed.


Lemma closes_clear st : closes (clear st) = S (closes st).
Proof.
  rewrite clear_eq. unfold closes. simpl. rewrite filter_app, length_app. simpl. lia.
Qed.

(** C3, as the code has it.  Every call of [clear] calls the transport's
    [close] once: [k] calls of [clear] call it [k] times.  [on], [once],
    [off], [enqueue] and the unsubscribe functions never call it, and an
    emit or a drain calls it only where caller code calls [clear].  [clear]
    can be repeated: a second one finds the bus empty and leaves it empty. *)
Theorem clear_closes_once_per_call st :
  closes (clear st) = S (closes st) /\
  (forall k, closes (Nat.iter k (@clear payload) st) = closes st + k) /\
  (forall e h, closes (snd (on e h st)) = closes st) /\
  (forall e id, closes (snd (once e id st)) = closes st) /\
  (forall e h, closes (off e h st) = closes st) /\
  (forall e p, closes (enqueue e p st) = closes st) /\
  (forall u, closes (unsubscribe_call u st) = closes st) /\
  ((forall id p, Forall not_clear (code id p)) ->
   (forall id e p, Forall not_clear (pcode id e p)) ->
   (forall n d e p st',
       emit (call code pcode n d) e p st = Some st' -> closes st' = closes st) /\
   (forall n d k processor c st',
       drain (call code pcode n d) k processor st = Some (c, st') ->
       closes st' = closes st)) /\
  clear (clear st) = observe Closed (clear st) /\
  listeners (clear st) = [] /\
  unsubscribeFunctions (clear st) = [] /\
  queue (clear st) = [].
Proof.
  split; [apply closes_clear|].
  split.
  { induction k as [|k IH]; simpl; [lia|]. rewrite closes_clear, IH. lia. }
  split; [intros; apply closes_same, on_frame|].
  split; [intros; apply closes_same, once_frame|].
  split; [intros; apply closes_same, off_frame|].
  split; [intros; now apply closes_same|].
  split; [intros; apply closes_same, unsubscribe_call_frame|].
  split.
  { intros Hcode Hpcode.
    destruct (closes_sound payload code pcode Hcode Hpcode) as (_ & _ & _ & _ & Hemit & Hdrain).
    split.
    - intros n d e p st'. apply Hemit.
    - intros n d k processor c st'. apply Hdrain. exact I. }
  rewrite !clear_eq. repeat split.
Qed.

(** C4, as the code has it.  A handler that throws during a dispatch,
    the handlers before it having returned, ends that dispatch: the
    handlers up to and including it have been called, those after it are
    not, and the promise of [publish] is rejected with what it threw.
    [emit] has put a [catch] on that promise, whose callback hands the
    error to [console.error] (it runs once the synchronous code in
    progress has finished); emit itself returns, and nothing is thrown to
    its caller.  [drain] with the default processor goes on with the next
    item.  Only what a custom processor throws leaves [drain].  A function
    whose body begins with a throw throws, whatever the state. *)
Theorem emit_reports_handler_exception n d e p st done h rest err s1 s2 :
  subscribers e st = done ++ h :: rest ->
  returning (call code pcode n d) p done st s1 ->
  call code pcode n d (Handler h p) s1 = Some (Throws err, s2) ->
  publish (call code pcode n d) e p st = Some (Throws err, s2) /\
  emit (call code pcode n d) e p st = Some (console_error err s2) /\
  (forall k, exec (call code pcode n d) k (Emit e p) st =
             Some (Normal, console_error err s2)) /\
  direct d st (console_error err s2) = map (fun h => Invoked d h p) (done ++ [h]) /\
  (forall h', In h' rest -> ~ In h' (done ++ [h]) ->
              ~ In (Invoked d h' p) (direct d st (console_error err s2))) /\
  console (console_error err s2) = console s2 ++ [err] /\
  (forall k s rest',
      queue s = (e, p) :: rest' -> st = set_queue rest' s ->
      drain (call code pcode n d) (S k) None s =
      drain (call code pcode n d) k None (console_error err s2)) /\
  (forall k id s item rest' err' s3,
      queue s = item :: rest' ->
      call code pcode n d (Processor id (fst item) (snd item)) (set_queue rest' s) =
        Some (Throws err', s3) ->
      drain (call code pcode n d) (S k) (Some id) s = Some (Throws err', s3)) /\
  (forall m id err' post s,
      code id p = Throw err' :: post ->
      call code pcode (S m) d (Handler (Fn id) p) s =
        Some (Throws err', observe (Invoked d (Fn id) p) s)).
Proof.
  intros Hsub Hret Hthrow.
  assert (Hp : publish (call code pcode n d) e p st = Some (Throws err, s2))
    by (eapply publish_throwing; eassumption).
  assert (He : emit (call code pcode n d) e p st = Some (console_error err s2)).
  { unfold emit. now rewrite Hp. }
  assert (Hd : direct d st (console_error err s2) =
               map (fun h => Invoked d h p) (done ++ [h])).
  { destruct (throwing_trace payload code pcode n d p done h err st s1 s2 Hret Hthrow)
      as (added & Ht & Hf).
    now rewrite (direct_app payload d st (console_error err s2) added Ht). }
  split; [exact Hp|]. split; [exact He|].
  split; [intros k; simpl; now rewrite He|].
  split; [exact Hd|].
  split; [intros h' _ Hni; rewrite Hd, in_invoked; exact Hni|].
  split; [reflexivity|].
  split.
  { intros k s rest' Hq ->. unfold drain.
    apply drain_loop_step with (item := (e, p)) (rest := rest'); [exact Hq|].
    simpl. unfold defaultProcessor. now rewrite He. }
  split.
  { intros k id s item rest' err' s3 Hq Hc. unfold drain.
    now apply drain_loop_throws with (item := item) (rest := rest'). }
  intros m id err' post s Hcode. simpl. now rewrite Hcode.
Qed.

End Claims.

(** * The repository's tests, on the model *)

(** "supports multiple handlers for the same event", then the second
    handler unsubscribed. *)
Example test_multiple_handlers :
  Demo.log (Demo.after [On "e" 1; On "e" 2; On "e" 3; Emit "e" 7;
                        Call (fst (on "e" (Fn 2) (@createRouteBus nat))); Emit "e" 8])
  = [(1, 7); (2, 7); (3, 7); (1, 8); (3, 8)].
Proof. vm_compute. reflexivity. Qed.

(** "off: removes a specific handler" *)
Example test_off_removes_handler :
  Demo.log (Demo.after [On "e" 1; On "e" 2; Emit "e" 1; Off "e" 1; Emit "e" 2])
  = [(1, 1); (2, 1); (2, 2)].
Proof. vm_compute. reflexivity. Qed.

(** "handles mix of on, once, emit, and queue" *)
Example test_mix :
  Demo.log (Demo.after [On "e" 1; Once "e" 2; Emit "e" 1; Emit "e" 2;
                        Enqueue "e" 3; Enqueue "e" 4; Drain None])
  = [(1, 1); (2, 1); (1, 2); (1, 3); (1, 4)].
Proof. vm_compute. reflexivity. Qed.

(** "allows handler to safely modify listeners during emit" *)
Example test_self_removal :
  Demo.log (Demo.after [On "e" 10; On "e" 2; Emit "e" 1; Emit "e" 2])
  = [(10, 1); (2, 1); (2, 2)].
Proof. vm_compute. reflexivity. Qed.

(** "drain: works with custom processor", and "empties the queue" *)
Example test_custom_processor :
  let st := Demo.after [On "e" 1; Enqueue "e" 1; Enqueue "u" 2; Enqueue "e" 3;
                        Drain (Some 3); Drain None] in
  Demo.processed st = [(3, "e", 1); (3, "u", 2); (3, "e", 3)] /\
  Demo.log st = [] /\ queue st = [].
Proof. vm_compute. repeat split. Qed.

(** "clear: removes all listeners" *)
Example test_clear :
  Demo.log (Demo.after [On "e" 1; On "u" 2; Emit "e" 1; Clear; Emit "e" 2; Emit "u" 2])
  = [(1, 1)].
Proof. vm_compute. reflexivity. Qed.

(** * The claims on the concrete program

    Each theorem above applied to a run of the program of [Demo]. *)

Lemma emit_invokes_subscribers_witness :
  let st := Demo.after [On "e" 1; On "e" 10; On "e" 3] in
  (forall h, In h (subscribers "e" st) ->
             returns (call Demo.code Demo.pcode 8 0) (Handler h 5)) /\
  exists st',
    emit (call Demo.code Demo.pcode 8 0) "e" 5 st = Some st' /\
    direct 0 st st' = [Invoked 0 (Fn 1) 5; Invoked 0 (Fn 10) 5; Invoked 0 (Fn 3) 5].
Proof.
  intros st.
  assert (Hret : forall h, In h (subscribers "e" st) ->
                           returns (call Demo.code Demo.pcode 8 0) (Handler h 5)).
  { intros h Hin. vm_compute in Hin.
    destruct Hin as [<-|[<-|[<-|[]]]]; intros s; eexists; reflexivity. }
  split; [exact Hret|].
  destruct (emit_invokes_subscribers nat Demo.code Demo.pcode 8 0 "e" 5 st) as (_ & Hall & _).
  destruct (Hall Hret) as (st' & He & Hd).
  exists st'. split; [exact He|]. rewrite Hd. vm_compute. reflexivity.
Defined.

Lemma dispatch_uses_snapshot_witness :
  let st := Demo.after [On "e" 10; On "e" 12; On "e" 2] in
  (forall h, In h (subscribers "e" st) ->
             returns (call Demo.code Demo.pcode 8 0) (Handler h 5)) /\
  exists st',
    publish (call Demo.code Demo.pcode 8 0) "e" 5 st = Some (Normal, st') /\
    subscribers "e" st' = [Fn 12] /\
    In (Invoked 0 (Fn 10) 5) (direct 0 st st') /\
    In (Invoked 0 (Fn 2) 5) (direct 0 st st') /\
    ~ In (Invoked 0 (Fn 1) 5) (direct 0 st st').
Proof.
  intros st.
  assert (Hret : forall h, In h (subscribers "e" st) ->
                           returns (call Demo.code Demo.pcode 8 0) (Handler h 5)).
  { intros h Hin. vm_compute in Hin.
    destruct Hin as [<-|[<-|[<-|[]]]]; intros s; eexists; reflexivity. }
  split; [exact Hret|].
  destruct (dispatch_uses_snapshot nat Demo.code Demo.pcode 8 0 "e" 5 st) as (Hany & Hall & _).
  destruct (Hall Hret) as (st' & Hp & Hd).
  destruct (Hany Normal st' Hp) as (_ & _ & _ & Hnot & _).
  exists st'. split; [exact Hp|].
  assert (Hc : publish (call Demo.code Demo.pcode 8 0) "e" 5 st =
               Some (Normal, Demo.published "e" 5 st)) by (vm_compute; reflexivity).
  split; [rewrite Hc in Hp; injection Hp as <-; vm_compute; reflexivity|].
  split; [apply Hd; vm_compute; auto|].
  split; [apply Hd; vm_compute; auto|].
  apply Hnot. vm_compute. intros [E|[E|[E|[]]]]; discriminate.
Defined.

Lemma drain_is_fifo_witness :
  let st := Demo.after [Enqueue "a" 1; Enqueue "b" 3; Enqueue "a" 4] in
  let sf := Demo.after [Enqueue "a" 1; Enqueue "b" 2; Enqueue "c" 3] in
  let se := Demo.after [On "e" 1; On "f" 3; On "e" 2;
                        Enqueue "e" 1; Enqueue "f" 2; Enqueue "e" 3] in
  (forall item, In item (queue st) ->
     keeping (call Demo.code Faulty.pcode 8 0) (Processor 1 (fst item) (snd item))) /\
  (exists st',
     drain (call Demo.code Faulty.pcode 8 0) 8 (Some 1) st = Some (Normal, st') /\
     queue st' = [] /\
     direct 0 st st' = [Processed 0 1 "a" 1; Processed 0 1 "b" 3; Processed 0 1 "a" 4]) /\
  failing (call Demo.code Faulty.pcode 8 0) (Processor 1 "b" 2) "late" /\
  (exists st',
     drain (call Demo.code Faulty.pcode 8 0) 8 (Some 1) sf = Some (Throws "late", st') /\
     queue st' = [("c", 3)] /\
     direct 0 sf st' = [Processed 0 1 "a" 1; Processed 0 1 "b" 2]) /\
  (exists st',
     drain (call Demo.code Demo.pcode 8 0) 8 None se = Some (Normal, st') /\
     queue st' = [] /\
     direct 0 se st' =
       [Invoked 0 (Fn 1) 1; Invoked 0 (Fn 2) 1; Invoked 0 (Fn 3) 2;
        Invoked 0 (Fn 1) 3; Invoked 0 (Fn 2) 3]).
Proof.
  intros st sf se.
  assert (Hkeep : forall item, In item (queue st) ->
            keeping (call Demo.code Faulty.pcode 8 0) (Processor 1 (fst item) (snd item))).
  { intros item Hin. vm_compute in Hin.
    destruct Hin as [<-|[<-|[<-|[]]]]; intros s; eexists; split; reflexivity. }
  assert (Hfail : failing (call Demo.code Faulty.pcode 8 0) (Processor 1 "b" 2) "late").
  { intros s. eexists. split; reflexivity. }
  split; [exact Hkeep|]. split; [|split; [exact Hfail|split]].
  - destruct (drain_is_fifo nat Demo.code Faulty.pcode 8 0 8 st) as (Hall & _).
    destruct (Hall 1 Hkeep) as (st' & Hd & Hq & Hcalls & _); [vm_compute; lia|].
    exists st'. split; [exact Hd|]. split; [exact Hq|]. rewrite Hcalls.
    vm_compute. reflexivity.
  - destruct (drain_is_fifo nat Demo.code Faulty.pcode 8 0 8 sf) as (_ & Hthrow & _).
    destruct (Hthrow 1 [("a", 1)] ("b", 2) [("c", 3)] "late") as (st' & Hd & Hq & Hcalls).
    + vm_compute. reflexivity.
    + intros i [<-|[]]. intros s. eexists. split; reflexivity.
    + exact Hfail.
    + simpl. lia.
    + exists st'. split; [exact Hd|]. split; [exact Hq|]. rewrite Hcalls. reflexivity.
  - destruct (drain_is_fifo nat Demo.code Demo.pcode 8 0 8 se) as (_ & _ & Hdefault & _).
    destruct Hdefault as (st' & Hd & Hq & Hcalls).
    + intros item h Hi Hh. vm_compute in Hi.
      destruct Hi as [<-|[<-|[<-|[]]]]; vm_compute in Hh;
        repeat (destruct Hh as [<-|Hh];
                [intros s; eexists; split; [reflexivity|split; reflexivity]|]);
        destruct Hh.
    + vm_compute. lia.
    + exists st'. split; [exact Hd|]. split; [exact Hq|]. rewrite Hcalls.
      vm_compute. reflexivity.
Defined.


Lemma stale_unsubscribe_removes_new_registration_witness :
  let st := @createRouteBus nat in
  let u1 := fst (on "e" (Fn 1) st) in
  let s2 := unsubscribe_call u1 (snd (on "e" (Fn 1) st)) in
  let s4 := unsubscribe_call u1 (snd (on "e" (Fn 1) s2)) in
  (s2 = unsubscribe_call u1 (snd (on "e" (Fn 1) st)) \/
   s2 = off "e" (Fn 1) (snd (on "e" (Fn 1) st))) /\
  In (Fn 1) (subscribers "e" (snd (on "e" (Fn 1) s2))) /\
  ~ In (Fn 1) (subscribers "e" s4) /\
  registered "e" (Fn 1) s4 = None.
Proof.
  intros st u1 s2 s4.
  assert (H : s2 = unsubscribe_call u1 (snd (on "e" (Fn 1) st)) \/
              s2 = off "e" (Fn 1) (snd (on "e" (Fn 1) st))) by (left; reflexivity).
  split; [exact H|].
  destruct (stale_unsubscribe_removes_new_registration
              nat Demo.code Demo.pcode "e" (Fn 1) st s2 H)
    as (_ & _ & H3 & _ & H4 & Hr & _).
  repeat split; assumption.
Defined.

Lemma emit_reports_handler_exception_witness :
  let st := Demo.after [On "e" 1; On "e" 11; On "e" 2] in
  let s1 := observe (Invoked 0 (Fn 1) 5) st in
  let s2 := observe (Invoked 0 (Fn 11) 5) s1 in
  subscribers "e" st = [Fn 1] ++ Fn 11 :: [Fn 2] /\
  returning (call Demo.code Demo.pcode 8 0) 5 [Fn 1] st s1 /\
  call Demo.code Demo.pcode 8 0 (Handler (Fn 11) 5) s1 = Some (Throws "boom", s2) /\
  publish (call Demo.code Demo.pcode 8 0) "e" 5 st = Some (Throws "boom", s2) /\
  emit (call Demo.code Demo.pcode 8 0) "e" 5 st = Some (console_error "boom" s2) /\
  direct 0 st (console_error "boom" s2) = [Invoked 0 (Fn 1) 5; Invoked 0 (Fn 11) 5] /\
  ~ In (Invoked 0 (Fn 2) 5) (direct 0 st (console_error "boom" s2)).
Proof.
  intros st s1 s2.
  assert (Hsub : subscribers "e" st = [Fn 1] ++ Fn 11 :: [Fn 2]) by (vm_compute; reflexivity).
  assert (Hret : returning (call Demo.code Demo.pcode 8 0) 5 [Fn 1] st s1).
  { apply returning_cons with (st1 := s1); [vm_compute; reflexivity|apply returning_nil]. }
  assert (Hthrow : call Demo.code Demo.pcode 8 0 (Handler (Fn 11) 5) s1 =
                   Some (Throws "boom", s2)) by (vm_compute; reflexivity).
  destruct (emit_reports_handler_exception nat Demo.code Demo.pcode 8 0 "e" 5 st
              [Fn 1] (Fn 11) [Fn 2] "boom" s1 s2 Hsub Hret Hthrow)
    as (Hp & He & _ & Hd & Hrest & _).
  split; [exact Hsub|]. split; [exact Hret|]. split; [exact Hthrow|].
  split; [exact Hp|]. split; [exact He|]. split; [exact Hd|].
  apply Hrest; [left; reflexivity|]. simpl. intros [E|[E|[]]]; discriminate.
Defined.

Lemma unsubscribe_idempotent_witness :
  let st := Demo.after [On "e" 1; On "e" 2; On "u" 1] in
  let u := fst (on "e" (Fn 1) (@createRouteBus nat)) in
  let body := [Emit "e" 5; Once "e" 1; Off "e" 1; On "u" 1; Emit "e" 6] in
  Forall (not_on "e" 1) body /\
  unsubscribe_call u (unsubscribe_call u st) = unsubscribe_call u st /\
  subscribers "e" (unsubscribe_call u st) = [Fn 2] /\
  subscribers "u" (unsubscribe_call u st) = [Fn 1] /\
  ~ In (Fn 1) (subscribers "e" (Demo.after ([On "e" 1; On "e" 2; On "u" 1; Call u] ++ body))).
Proof.
  intros st u body.
  assert (Hbody : Forall (not_on "e" 1) body).
  { subst body. repeat (apply Forall_cons || apply Forall_nil); simpl; try exact I.
    left. discriminate. }
  assert (Hcode : forall i q, Forall (not_on "e" 1) (Demo.code i q)).
  { intros i q. do 22 (destruct i as [|i]; [repeat constructor|]). repeat constructor. }
  assert (Hpcode : forall i e' q, Forall (not_on "e" 1) (Demo.pcode i e' q)).
  { intros i e' q. do 3 (destruct i as [|i]; [destruct q; repeat constructor|]).
    repeat constructor. }
  destruct (unsubscribe_idempotent nat Demo.code Demo.pcode "e" (Fn 1) createRouteBus st)
    as (Hidem & _ & Hsub & _ & _ & _ & _ & _ & _ & _ & Hstay).
  split; [exact Hbody|]. split; [exact Hidem|].
  split; [rewrite Hsub; vm_compute; reflexivity|].
  split; [rewrite Hsub; vm_compute; reflexivity|].
  apply (Hstay 1 8 body Normal);
    [reflexivity|exact Hcode|exact Hpcode|exact Hbody|vm_compute; reflexivity].
Defined.

Lemma off_removes_only_its_registration_witness :
  let st := Demo.after [On "e" 1; On "e" 2; Enqueue "e" 7] in
  registered "e" (Fn 3) st = None /\
  off "e" (Fn 3) st = st /\
  registry_ok st /\
  registered "e" (Fn 1) st <> None /\
  subscribers "e" (off "e" (Fn 1) st) = [Fn 2] /\
  queue (off "e" (Fn 1) st) = [("e", 7)].
Proof.
  intros st.
  destruct (off_removes_only_its_registration nat Demo.code Demo.pcode "e" (Fn 3) st)
    as (Hnone & _).
  destruct (off_removes_only_its_registration nat Demo.code Demo.pcode "e" (Fn 1) st)
    as (_ & _ & Hsub & Hok & _ & Hq & _).
  assert (H3 : registered "e" (Fn 3) st = None) by (vm_compute; reflexivity).
  assert (Hreg : registry_ok st).
  { apply (Hok 8 [On "e" 1; On "e" 2; Enqueue "e" 7] Normal). vm_compute. reflexivity. }
  assert (H1 : registered "e" (Fn 1) st <> None) by (vm_compute; discriminate).
  split; [exact H3|]. split; [exact (Hnone H3)|]. split; [exact Hreg|].
  split; [exact H1|]. split.
  - rewrite (Hsub Hreg H1). vm_compute. reflexivity.
  - rewrite Hq. vm_compute. reflexivity.
Defined.

Lemma clear_closes_once_per_call_witness :
  let st := Demo.after [On "e" 1; Enqueue "e" 7; Clear] in
  closes st = 1 /\
  closes (clear st) = 2 /\
  clear (clear st) = observe Closed (clear st) /\
  closes (snd (on "e" (Fn 1) st)) = 1.
Proof.
  intros st.
  destruct (clear_closes_once_per_call nat Demo.code Demo.pcode st)
    as (Hc & _ & Hon & _ & _ & _ & _ & _ & Hcc & _).
  assert (H1 : closes st = 1) by (vm_compute; reflexivity).
  split; [exact H1|]. split; [rewrite Hc, H1; reflexivity|].
  split; [exact Hcc|]. rewrite Hon. exact H1.
Defined.

(** C1, as the spec words it, fails: handler 11 throws, and handler 2,
    registered after it, is not called by the emit, whatever the fuel. *)
Lemma emit_stops_at_a_throwing_handler :
  let st := Demo.after [On "e" 1; On "e" 11; On "e" 2] in
  exists st',
    emit (call Demo.code Demo.pcode 8 0) "e" 5 st = Some st' /\
    subscribers "e" st = [Fn 1; Fn 11; Fn 2] /\
    direct 0 st st' = [Invoked 0 (Fn 1) 5; Invoked 0 (Fn 11) 5] /\
    ~ In (Invoked 0 (Fn 2) 5) (trace st') /\
    ~ (forall h, In h (subscribers "e" st) -> In (Invoked 0 h 5) (direct 0 st st')) /\
    forall m, 8 <= m -> emit (call Demo.code Demo.pcode m 0) "e" 5 st = Some st'.
Proof.
  intros st.
  assert (He : emit (call Demo.code Demo.pcode 8 0) "e" 5 st =
               Some (console_error "boom" (Demo.published "e" 5 st)))
    by (vm_compute; reflexivity).
  exists (console_error "boom" (Demo.published "e" 5 st)).
  split; [exact He|]. split; [vm_compute; reflexivity|]. split; [vm_compute; reflexivity|].
  split; [|split].
  - vm_compute. intros [E|[E|[]]]; discriminate.
  - intros H. specialize (H (Fn 2)). vm_compute in H.
    destruct H as [E|[E|[]]]; [auto|discriminate|discriminate].
  - intros m Hm. eapply emit_mono; [|exact He]. now apply call_mono.
Qed.

(** C5, as the spec words it, fails: handler 11 throws, and of the two
    handlers subscribed when the dispatch began only it is called. *)
Lemma throwing_handler_cuts_the_snapshot :
  let st := Demo.after [On "e" 11; On "e" 3] in
  exists st',
    publish (call Demo.code Demo.pcode 8 0) "e" 5 st = Some (Throws "boom", st') /\
    subscribers "e" st = [Fn 11; Fn 3] /\
    direct 0 st st' = [Invoked 0 (Fn 11) 5] /\
    ~ (forall h, In (Invoked 0 h 5) (direct 0 st st') <-> In h (subscribers "e" st)).
Proof.
  intros st. exists (Demo.published "e" 5 st).
  split; [vm_compute; reflexivity|]. split; [vm_compute; reflexivity|].
  split; [vm_compute; reflexivity|].
  intros H. destruct (H (Fn 3)) as [_ Hin].
  assert (Hsub : In (Fn 3) (subscribers "e" st)) by (vm_compute; auto).
  apply Hin in Hsub. vm_compute in Hsub. destruct Hsub as [E|[]]. discriminate.
Qed.

(** C2, as the spec words it, fails: processor 1 throws on the second of
    three items; it has been called twice, not once per item, and the
    third item is still queued when drain ends, whatever the fuel. *)
Lemma drain_stops_at_a_throwing_processor :
  let st := Demo.after [Enqueue "a" 1; Enqueue "b" 2; Enqueue "c" 3] in
  exists st',
    drain (call Demo.code Faulty.pcode 8 0) 8 (Some 1) st = Some (Throws "late", st') /\
    queue st = [("a", 1); ("b", 2); ("c", 3)] /\
    queue st' = [("c", 3)] /\
    direct 0 st st' = [Processed 0 1 "a" 1; Processed 0 1 "b" 2] /\
    direct 0 st st' <> map (fun item => Processed 0 1 (fst item) (snd item)) (queue st) /\
    forall m k, 8 <= m -> 8 <= k ->
      drain (call Demo.code Faulty.pcode m 0) k (Some 1) st = Some (Throws "late", st').
Proof.
  intros st.
  destruct (drain (call Demo.code Faulty.pcode 8 0) 8 (Some 1) st) as [[c st']|] eqn:Hd;
    [|vm_compute in Hd; discriminate].
  assert (Hc : c = Throws "late") by (vm_compute in Hd; congruence).
  subst c. exists st'. split; [reflexivity|].
  assert (Hst : Some (Throws "late", st') =
                drain (call Demo.code Faulty.pcode 8 0) 8 (Some 1) st) by (symmetry; exact Hd).
  vm_compute in Hst. injection Hst as ->.
  split; [vm_compute; reflexivity|]. split; [vm_compute; reflexivity|].
  split; [vm_compute; reflexivity|]. split; [vm_compute; discriminate|].
  intros m k Hm Hk. eapply drain_mono; [|exact Hk|exact Hd]. now apply call_mono.
Qed.

(** C3, as the spec words it, fails: two calls of [clear] call [close]
    twice. *)
Lemma clear_twice_closes_twice :
  closes (clear (clear (@createRouteBus nat))) = 2 /\
  ~ closes (clear (clear (@createRouteBus nat))) <= 1.
Proof.
  assert (H : closes (clear (clear (@createRouteBus nat))) = 2) by reflexivity.
  split; [exact H|]. rewrite H. lia.
Qed.

(** C4, as the spec words it, fails: handler 11 throws ["boom"], and the
    [emit] that dispatched to it, and the [drain] that emitted to it,
    complete normally; the error is in the console. *)
Lemma handler_exception_stays_inside_emit :
  let st := Demo.after [On "e" 11] in
  option_map fst (call Demo.code Demo.pcode 8 0 (Handler (Fn 11) 5) st) = Some (Throws "boom") /\
  option_map fst (program Demo.code Demo.pcode 8 [Emit "e" 5] st) = Some Normal /\
  option_map fst (program Demo.code Demo.pcode 8 [Enqueue "e" 5; Drain None] st) = Some Normal /\
  option_map fst (program Demo.code Demo.pcode 8 [Emit "e" 5] st) <> Some (Throws "boom") /\
  console (Demo.after [On "e" 11; Emit "e" 5]) = ["boom"].
Proof.
  vm_compute. repeat split; discriminate.
Qed.

(** C6 at the failing inputs.  Function 11, registered with [once], throws:
    it is called by both emits, and its wrapper is still subscribed.
    Function 20, registered with [once], emits ["f"], whose handler emits
    ["e"] again: it is called twice by one emit, and nothing throws.  For
    comparison, function 1, which does nothing, is called once by three
    emits, and not at all when the function [once] returned is called
    before the first emit. *)
Lemma once_handler_fires_again :
  calls_of 11 (Demo.after [Once "e" 11; Emit "e" 1; Emit "e" 2]) = 2 /\
  subscribers "e" (Demo.after [Once "e" 11; Emit "e" 1; Emit "e" 2]) = [Wrapped 0 "e" 11] /\
  calls_of 20 (Demo.after [Once "e" 20; On "f" 21; Emit "e" 1]) = 2 /\
  console (Demo.after [Once "e" 20; On "f" 21; Emit "e" 1]) = [] /\
  calls_of 1 (Demo.after [Once "e" 1; Emit "e" 1; Emit "e" 2; Emit "e" 3]) = 1 /\
  option_map (fun r => (fst r, calls_of 1 (snd r)))
             (program Demo.code Demo.pcode 8
                      [Once "e" 1; Call (fst (once "e" 1 (@createRouteBus nat))); Emit "e" 1]
                      createRouteBus)
  = Some (Normal, 0).
Proof.
  vm_compute. repeat split.
Qed.

(** * Further properties of the bus and the in-memory transport *)

Section MapFacts.
Variables K V : Type.
Variable eq_dec : forall x y : K, {x = y} + {x <> y}.
Implicit Types (k : K) (v : V) (m : OMap.t K V).

Lemma omap_set_set k v v' m :
  OMap.set eq_dec k v (OMap.set eq_dec k v' m) = OMap.set eq_dec k v m.
Proof.
  induction m as [|[k' w] m IH]; simpl.
  - destruct (eq_dec k k); congruence.
  - destruct (eq_dec k k') as [E|N]; simpl.
    + destruct (eq_dec k k); congruence.
    + destruct (eq_dec k k'); [contradiction|]. now rewrite IH.
Qed.

Lemma omap_delete_set k v m :
  OMap.get eq_dec k m = None -> OMap.delete eq_dec k (OMap.set eq_dec k v m) = m.
Proof.
  induction m as [|[k' w] m IH]; simpl.
  - destruct (eq_dec k k); congruence.
  - destruct (eq_dec k k') as [E|N]; [discriminate|].
    intros H. simpl. destruct (eq_dec k k'); [contradiction|]. now rewrite IH.
Qed.

Lemma omap_set_not_nil k v m : OMap.set eq_dec k v m <> [].
Proof.
  destruct m as [|[k' w] m]; simpl; [discriminate|].
  destruct (eq_dec k k'); discriminate.
Qed.
End MapFacts.

Section SetFacts.
Variable A : Type.
Variable eq_dec : forall x y : A, {x = y} + {x <> y}.

Lemma oset_add_not_nil a (s : OSet.t A) : OSet.add eq_dec a s <> [].
Proof.
  unfold OSet.add. destruct (in_dec eq_dec a s) as [Hin|_].
  - destruct s; [contradiction|discriminate].
  - destruct s; discriminate.
Qed.

Lemma oset_add_present a (s : OSet.t A) : In a s -> OSet.add eq_dec a s = s.
Proof.
  intros H. unfold OSet.add. destruct (in_dec eq_dec a s); [reflexivity|contradiction].
Qed.

Lemma oset_add_absent a (s : OSet.t A) : ~ In a s -> OSet.add eq_dec a s = s ++ [a].
Proof.
  intros H. unfold OSet.add. destruct (in_dec eq_dec a s); [contradiction|reflexivity].
Qed.
End SetFacts.

Section Shaping.
Variable payload : Type.
Implicit Types (st s : state payload) (e : event) (h : handler).

Lemma state_eq st st' :
  listeners st = listeners st' ->
  unsubscribeFunctions st = unsubscribeFunctions st' ->
  queue st = queue st' ->
  next_closure st = next_closure st' ->
  trace st = trace st' ->
  console st = console st' ->
  st = st'.
Proof.
  destruct st, st'. simpl. intros. subst. reflexivity.
Qed.

Lemma listeners_subscribe e h st :
  listeners (snd (subscribe e h st)) =
  OMap.set string_dec e (OSet.add handler_eq_dec h (subscribers e st)) (listeners st).
Proof.
  unfold subscribe, subscribers. simpl.
  destruct (OMap.has string_dec e (listeners st)) eqn:Hhas.
  - apply OMapFacts.has_true in Hhas. destruct Hhas as [hs Hhs]. now rewrite Hhs.
  - apply OMapFacts.has_false in Hhas. rewrite Hhas.
    rewrite OMapFacts.get_set_eq. apply omap_set_set.
Qed.

Lemma registry_on e h st :
  unsubscribeFunctions (snd (on e h st)) =
  OMap.set string_dec (getEventKey e)
    (OMap.set handler_eq_dec h (TUnsub e h)
       match OMap.get string_dec (getEventKey e) (unsubscribeFunctions st) with
       | Some m => m
       | None => []
       end)
    (unsubscribeFunctions st).
Proof.
  unfold on. simpl.
  destruct (OMap.has string_dec (getEventKey e) (unsubscribeFunctions st)) eqn:Hhas.
  - apply OMapFacts.has_true in Hhas. destruct Hhas as [m Hm]. now rewrite Hm.
  - apply OMapFacts.has_false in Hhas. rewrite Hhas.
    rewrite OMapFacts.get_set_eq. apply omap_set_set.
Qed.

Lemma listeners_on e h st : listeners (snd (on e h st)) = listeners (snd (subscribe e h st)).
Proof. reflexivity. Qed.

(** *** No empty bucket *)

Lemma compact_same st st' :
  listeners st' = listeners st -> unsubscribeFunctions st' = unsubscribeFunctions st ->
  compact st -> compact st'.
Proof. intros Hl Hr [H1 H2]. split; intros k; [rewrite Hl|rewrite Hr]; auto. Qed.

Lemma compact_on e h st : compact st -> compact (snd (on e h st)).
Proof.
  intros [H1 H2]. split.
  - intros e'. rewrite listeners_on, listeners_subscribe.
    destruct (string_dec e' e) as [->|Hne].
    + rewrite OMapFacts.get_set_eq. intros [= H]. now apply oset_add_not_nil in H.
    + rewrite OMapFacts.get_set_neq by exact Hne. apply H1.
  - intros key. rewrite registry_on.
    destruct (string_dec key (getEventKey e)) as [->|Hne].
    + rewrite OMapFacts.get_set_eq. intros [= H]. now apply omap_set_not_nil in H.
    + rewrite OMapFacts.get_set_neq by exact Hne. apply H2.
Qed.

Lemma compact_transport_unsubscribe u st :
  compact st -> compact (transport_unsubscribe u st).
Proof.
  intros [H1 H2]. destruct u as [e h].
  destruct (transport_unsubscribe_frame payload (TUnsub e h) st) as (Hr & _).
  split; [|intros key; rewrite Hr; apply H2].
  intros e'. unfold transport_unsubscribe.
  destruct (OMap.get string_dec e (listeners st)) as [hs|] eqn:Hhs; [|apply H1].
  destruct (Nat.eqb _ 0) eqn:Hsz; simpl.
  - destruct (string_dec e' e) as [->|Hne].
    + rewrite OMapFacts.get_delete_eq. discriminate.
    + rewrite OMapFacts.get_delete_neq, OMapFacts.get_set_neq by exact Hne. apply H1.
  - destruct (string_dec e' e) as [->|Hne].
    + rewrite OMapFacts.get_set_eq. intros [= H]. now rewrite H in Hsz.
    + rewrite OMapFacts.get_set_neq by exact Hne. apply H1.
Qed.

Lemma compact_forget key h m st : compact st -> compact (forget key h m st).
Proof.
  intros [H1 H2].
  destruct (forget_frame payload key h m st) as (Hl & _).
  split; [intros e; rewrite Hl; apply H1|].
  intros key'. unfold forget.
  destruct (Nat.eqb _ 0) eqn:Hsz; simpl.
  - destruct (string_dec key' key) as [->|Hne].
    + rewrite OMapFacts.get_delete_eq. discriminate.
    + rewrite OMapFacts.get_delete_neq, OMapFacts.get_set_neq by exact Hne. apply H2.
  - destruct (string_dec key' key) as [->|Hne].
    + rewrite OMapFacts.get_set_eq. intros [= H]. now rewrite H in Hsz.
    + rewrite OMapFacts.get_set_neq by exact Hne. apply H2.
Qed.

Lemma compact_unsubscribe_call u st : compact st -> compact (unsubscribe_call u st).
Proof.
  intros H. destruct u as [tu key h]. unfold unsubscribe_call.
  destruct (OMap.get string_dec key _) as [m|].
  - now apply compact_forget, compact_transport_unsubscribe.
  - now apply compact_transport_unsubscribe.
Qed.

Lemma compact_off e h st : compact st -> compact (off e h st).
Proof.
  intros H. unfold off.
  destruct (OMap.get string_dec _ _) as [m|]; [|exact H].
  destruct (OMap.get handler_eq_dec h m) as [u|]; [|exact H].
  now apply compact_forget, compact_transport_unsubscribe.
Qed.

Lemma compact_clear st : compact (clear st).
Proof. rewrite clear_eq. split; intros k; discriminate. Qed.

(** *** The registry mirrors the transport *)

Lemma mirrored_same st st' :
  listeners st' = listeners st -> unsubscribeFunctions st' = unsubscribeFunctions st ->
  mirrored st -> mirrored st'.
Proof.
  intros Hl Hr H e h. unfold registered, subscribers. rewrite Hl, Hr. apply H.
Qed.

Lemma mirrored_on e h st : mirrored st -> mirrored (snd (on e h st)).
Proof.
  intros H e' h'. rewrite registered_on, subscribers_on.
  destruct (string_dec e' e) as [->|]; [|apply H].
  rewrite OSetFacts.in_add.
  destruct (handler_eq_dec h' h) as [->|Hne].
  - split; [auto|discriminate].
  - pose proof (H e h'). tauto.
Qed.

Lemma mirrored_unsubscribe_call e h st :
  mirrored st -> mirrored (unsubscribe_call (BusUnsub (TUnsub e h) (getEventKey e) h) st).
Proof.
  intros H e' h'. rewrite registered_unsubscribe_call, subscribers_unsubscribe_call.
  destruct (string_dec e' e) as [->|]; [|apply H].
  rewrite OSetFacts.in_delete.
  destruct (handler_eq_dec h' h) as [->|Hne].
  - split; [congruence|tauto].
  - pose proof (H e h'). tauto.
Qed.

Lemma mirrored_off e h st : registry_ok st -> mirrored st -> mirrored (off e h st).
Proof.
  intros Hok H.
  destruct (registered e h st) as [u|] eqn:Hreg.
  - pose proof (Hok e h u Hreg) as ->.
    intros e' h'. rewrite registered_off, (subscribers_off payload e h e' st Hreg).
    destruct (string_dec e' e) as [->|]; [|apply H].
    rewrite OSetFacts.in_delete.
    destruct (handler_eq_dec h' h) as [->|Hne].
    + split; [congruence|tauto].
    + pose proof (H e h'). tauto.
  - now rewrite off_absent.
Qed.

Lemma mirrored_clear st : mirrored (clear st).
Proof.
  rewrite clear_eq. intros e h. unfold registered, subscribers. simpl. tauto.
Qed.

(** *** Wrappers are numbered as they are allocated *)

Lemma fresh_same st st' :
  listeners st' = listeners st -> next_closure st' = next_closure st ->
  fresh st -> fresh st'.
Proof.
  intros Hl Hn H e a e' id. unfold subscribers. rewrite Hl, Hn. apply H.
Qed.

Lemma fresh_subset st st' :
  (forall e h, In h (subscribers e st') -> In h (subscribers e st)) ->
  next_closure st' = next_closure st ->
  fresh st -> fresh st'.
Proof.
  intros Hs Hn H e a e' id Hin. rewrite Hn. eapply H, Hs, Hin.
Qed.

Lemma fresh_on_fn e id st : fresh st -> fresh (snd (on e (Fn id) st)).
Proof.
  intros H e' a e2 id2. rewrite subscribers_on.
  destruct (on_frame payload e (Fn id) st) as (_ & -> & _).
  destruct (string_dec e' e) as [->|]; [|apply H].
  rewrite OSetFacts.in_add. intros [Heq|Hin]; [discriminate|]. eapply H, Hin.
Qed.

Lemma fresh_once e id st : fresh st -> fresh (snd (once e id st)).
Proof.
  intros H e' a e2 id2. unfold once. rewrite subscribers_on.
  destruct (on_frame payload e (Wrapped (next_closure st) e id)
              (set_next_closure (S (next_closure st)) st)) as (_ & -> & _).
  simpl.
  destruct (string_dec e' e) as [->|].
  - rewrite OSetFacts.in_add. intros [[= -> _ _]|Hin]; [lia|].
    apply Nat.lt_lt_succ_r. eapply H, Hin.
  - intros Hin. apply Nat.lt_lt_succ_r. eapply H, Hin.
Qed.

Lemma fresh_clear st : fresh (clear st).
Proof. rewrite clear_eq. intros e a e' id []. Qed.

End Shaping.

Section Shaped.
Variable payload : Type.
Variable code : nat -> payload -> list (cmd payload).
Variable pcode : nat -> event -> payload -> list (cmd payload).
Implicit Types (st s : state payload) (e : event) (h : handler) (p : payload).

Lemma well_formed_create : well_formed (@createRouteBus payload).
Proof.
  split; [apply registry_ok_create|]. split; [|split].
  - intros e h. unfold registered, subscribers. simpl. tauto.
  - split; intros k; discriminate.
  - intros e a e' id [].
Qed.

Lemma well_formed_same st st' :
  listeners st' = listeners st ->
  unsubscribeFunctions st' = unsubscribeFunctions st ->
  next_closure st' = next_closure st ->
  well_formed st -> well_formed st'.
Proof.
  intros Hl Hr Hn (H1 & H2 & H3 & H4). split; [|split; [|split]].
  - now apply (registry_ok_same payload st).
  - now apply (mirrored_same payload st).
  - now apply (compact_same payload st).
  - now apply (fresh_same payload st).
Qed.

Lemma well_formed_on e id st : well_formed st -> well_formed (snd (on e (Fn id) st)).
Proof.
  intros (H1 & H2 & H3 & H4). split; [|split; [|split]].
  - now apply registry_ok_on.
  - now apply mirrored_on.
  - now apply compact_on.
  - now apply fresh_on_fn.
Qed.

Lemma well_formed_once e id st : well_formed st -> well_formed (snd (once e id st)).
Proof.
  intros (H1 & H2 & H3 & H4). split; [|split; [|split]].
  - unfold once. apply registry_ok_on. eapply registry_ok_same; [|exact H1]. reflexivity.
  - unfold once. apply mirrored_on.
    eapply mirrored_same; [| |exact H2]; reflexivity.
  - unfold once. apply compact_on.
    eapply compact_same; [| |exact H3]; reflexivity.
  - now apply fresh_once.
Qed.

Lemma well_formed_off e h st : well_formed st -> well_formed (off e h st).
Proof.
  intros (H1 & H2 & H3 & H4). split; [|split; [|split]].
  - now apply registry_ok_off.
  - now apply mirrored_off.
  - now apply compact_off.
  - eapply fresh_subset; [| |exact H4].
    + intros e' h'. apply subscribers_off_subset.
    + apply off_frame.
Qed.

Lemma well_formed_clear st : well_formed (clear st).
Proof.
  split; [|split; [|split]].
  - apply registry_ok_clear.
  - apply mirrored_clear.
  - apply compact_clear.
  - apply fresh_clear.
Qed.

Lemma well_formed_unsubscribe_call e h st :
  well_formed st ->
  well_formed (unsubscribe_call (BusUnsub (TUnsub e h) (getEventKey e) h) st).
Proof.
  intros (H1 & H2 & H3 & H4). split; [|split; [|split]].
  - now apply registry_ok_unsubscribe_call.
  - now apply mirrored_unsubscribe_call.
  - now apply compact_unsubscribe_call.
  - eapply fresh_subset; [| |exact H4].
    + intros e' h'. apply subscribers_unsubscribe_call_subset.
    + apply unsubscribe_call_frame.
Qed.

(** The shapes survive every call, whatever the handlers do and however
    they end, as long as the unsubscribe functions called are ones [on]
    or [once] returned. *)
Lemma well_formed_sound :
  (forall id p, Forall (@genuine payload) (code id p)) ->
  (forall id e p, Forall (@genuine payload) (pcode id e p)) ->
  sound code pcode (fun _ st st' => well_formed st -> well_formed st') (@genuine payload).
Proof.
  intros Hcode Hpcode.
  apply rely.
  - auto.
  - auto.
  - auto.
  - exact Hcode.
  - exact Hpcode.
  - intros. eapply well_formed_same; [| | |eassumption]; reflexivity.
  - intros. eapply well_formed_same; [| | |eassumption]; reflexivity.
  - intros. now apply well_formed_on.
  - intros. now apply well_formed_once.
  - intros. now apply well_formed_off.
  - intros. apply well_formed_clear.
  - intros. eapply well_formed_same; [| | |eassumption]; reflexivity.
  - intros d [[e h] key h'] st [-> ->] H. now apply well_formed_unsubscribe_call.
  - intros. eapply well_formed_same; [| | |eassumption]; reflexivity.
  - intros. eapply well_formed_same; [| | |eassumption]; reflexivity.
  - intros d a e id st H. now apply well_formed_unsubscribe_call.
Qed.

Lemma program_well_formed n body c st :
  (forall id p, Forall (@genuine payload) (code id p)) ->
  (forall id e p, Forall (@genuine payload) (pcode id e p)) ->
  Forall (@genuine payload) body ->
  program code pcode n body createRouteBus = Some (c, st) ->
  well_formed st.
Proof.
  intros Hcode Hpcode Hbody H.
  destruct (well_formed_sound Hcode Hpcode) as (_ & Hrun & _).
  eapply Hrun; [exact Hbody|exact H|apply well_formed_create].
Qed.

End Shaped.

Section RoundTrips.
Variable payload : Type.
Implicit Types (st s : state payload) (e : event) (h : handler).

Lemma set_queue_same st : set_queue (queue st) st = st.
Proof. now destruct st. Qed.

Lemma subscribers_nil e st :
  compact st -> subscribers e st = [] -> OMap.get string_dec e (listeners st) = None.
Proof.
  intros [H1 _]. unfold subscribers. specialize (H1 e).
  destruct (OMap.get string_dec e (listeners st)) as [hs|]; [|reflexivity].
  intros ->. congruence.
Qed.

Lemma subscribers_not_nil e st :
  subscribers e st <> [] ->
  OMap.get string_dec e (listeners st) = Some (subscribers e st).
Proof.
  unfold subscribers.
  destruct (OMap.get string_dec e (listeners st)) as [hs|]; [reflexivity|congruence].
Qed.

Lemma listeners_round_trip e h st :
  compact st -> ~ In h (subscribers e st) ->
  listeners (transport_unsubscribe (TUnsub e h) (snd (on e h st))) = listeners st.
Proof.
  intros Hc Hni. unfold transport_unsubscribe.
  rewrite listeners_on, listeners_subscribe, OMapFacts.get_set_eq.
  rewrite OSetFacts.delete_add_absent by exact Hni.
  rewrite omap_set_set.
  destruct (subscribers e st) as [|h0 hs] eqn:Hs; simpl.
  - apply omap_delete_set. now apply subscribers_nil.
  - apply OMapFacts.set_same. rewrite <- Hs. apply subscribers_not_nil. congruence.
Qed.

Lemma on_then_its_unsubscribe e h st :
  compact st -> ~ In h (subscribers e st) -> registered e h st = None ->
  unsubscribe_call (fst (on e h st)) (snd (on e h st)) = st.
Proof.
  intros Hc Hni Hreg. rewrite on_returns. unfold unsubscribe_call.
  set (s1 := transport_unsubscribe (TUnsub e h) (snd (on e h st))).
  assert (Hl : listeners s1 = listeners st) by now apply listeners_round_trip.
  destruct (transport_unsubscribe_frame payload (TUnsub e h) (snd (on e h st)))
    as (Hr & Hq & Hn & Ht & Hco). fold s1 in Hr, Hq, Hn, Ht, Hco.
  rewrite Hr, registry_on, OMapFacts.get_set_eq.
  unfold registered in Hreg.
  apply state_eq.
  - destruct (forget_frame payload (getEventKey e) h
                (OMap.set handler_eq_dec h (TUnsub e h)
                   match OMap.get string_dec (getEventKey e) (unsubscribeFunctions st) with
                   | Some m => m | None => [] end) s1) as (-> & _).
    exact Hl.
  - unfold forget. rewrite Hr, registry_on, omap_set_set.
    destruct (OMap.get string_dec (getEventKey e) (unsubscribeFunctions st)) as [m|] eqn:Hm.
    + rewrite omap_delete_set by exact Hreg.
      destruct m as [|x m].
      * destruct Hc as [_ Hc]. now apply Hc in Hm.
      * simpl. now apply OMapFacts.set_same.
    + simpl. destruct (handler_eq_dec h h); [|congruence]. simpl.
      now apply omap_delete_set.
  - destruct (forget_frame payload (getEventKey e) h
                (OMap.set handler_eq_dec h (TUnsub e h)
                   match OMap.get string_dec (getEventKey e) (unsubscribeFunctions st) with
                   | Some m => m | None => [] end) s1) as (_ & -> & _).
    rewrite Hq. reflexivity.
  - destruct (forget_frame payload (getEventKey e) h
                (OMap.set handler_eq_dec h (TUnsub e h)
                   match OMap.get string_dec (getEventKey e) (unsubscribeFunctions st) with
                   | Some m => m | None => [] end) s1) as (_ & _ & -> & _).
    rewrite Hn. reflexivity.
  - destruct (forget_frame payload (getEventKey e) h
                (OMap.set handler_eq_dec h (TUnsub e h)
                   match OMap.get string_dec (getEventKey e) (unsubscribeFunctions st) with
                   | Some m => m | None => [] end) s1) as (_ & _ & _ & -> & _).
    rewrite Ht. reflexivity.
  - destruct (forget_frame payload (getEventKey e) h
                (OMap.set handler_eq_dec h (TUnsub e h)
                   match OMap.get string_dec (getEventKey e) (unsubscribeFunctions st) with
                   | Some m => m | None => [] end) s1) as (_ & _ & _ & _ & ->).
    rewrite Hco. reflexivity.
Qed.

Lemma off_after_on e h st :
  off e h (snd (on e h st)) = unsubscribe_call (fst (on e h st)) (snd (on e h st)).
Proof.
  rewrite on_returns. unfold off, unsubscribe_call.
  destruct (transport_unsubscribe_frame payload (TUnsub e h) (snd (on e h st))) as (Hr & _).
  rewrite Hr, registry_on, !OMapFacts.get_set_eq. reflexivity.
Qed.

Lemma on_twice e h st : snd (on e h (snd (on e h st))) = snd (on e h st).
Proof.
  apply state_eq; try reflexivity.
  - rewrite !listeners_on, !listeners_subscribe.
    change (subscribers e (snd (subscribe e h st))) with (subscribers e (snd (on e h st))).
    rewrite subscribers_on. destruct (string_dec e e); [|congruence].
    rewrite (oset_add_present handler handler_eq_dec) by (apply OSetFacts.in_add; auto).
    rewrite listeners_on, listeners_subscribe. apply omap_set_set.
  - rewrite (registry_on payload e h (snd (on e h st))), (registry_on payload e h st).
    rewrite OMapFacts.get_set_eq, !omap_set_set. reflexivity.
Qed.

End RoundTrips.

Section MoreProperties.
Variable payload : Type.
Variable code : nat -> payload -> list (cmd payload).
Variable pcode : nat -> event -> payload -> list (cmd payload).
Implicit Types (st s : state payload) (e : event) (h : handler) (p : payload).
Implicit Types (invoke : callee payload -> state payload -> option (completion * state payload)).

Lemma nodup_invoked d p (hs : list handler) :
  NoDup hs -> NoDup (map (fun h => Invoked d h p) hs).
Proof.
  induction 1 as [|h hs Hni _ IH]; simpl; constructor; [|exact IH].
  rewrite in_map_iff. intros (h' & [= ->] & Hin). contradiction.
Qed.

(** X1.  In every state a program reaches from a fresh bus, however its
    calls ended, the registry has an entry for [(E, h)] exactly when the
    transport lists [h] among the subscribers of [E].  So [off(E, h)]
    removes [h] whenever it is subscribed, keeping the other subscribers
    in order, and returns the state it was given exactly when it is not. *)
Theorem registry_mirrors_transport n body c st :
  (forall id p, Forall (@genuine payload) (code id p)) ->
  (forall id e p, Forall (@genuine payload) (pcode id e p)) ->
  Forall (@genuine payload) body ->
  program code pcode n body createRouteBus = Some (c, st) ->
  (forall e h, registered e h st <> None <-> In h (subscribers e st)) /\
  (forall e h,
      In h (subscribers e st) ->
      subscribers e (off e h st) = OSet.delete handler_eq_dec h (subscribers e st) /\
      ~ In h (subscribers e (off e h st)) /\
      registered e h (off e h st) = None) /\
  (forall e h, ~ In h (subscribers e st) -> off e h st = st).
Proof.
  intros Hcode Hpcode Hbody H.
  destruct (program_well_formed payload code pcode n body c st Hcode Hpcode Hbody H)
    as (Hok & Hm & _).
  split; [exact Hm|]. split.
  - intros e h Hin. apply Hm in Hin.
    destruct (registered e h st) as [u|] eqn:Hreg; [|congruence].
    pose proof (Hok e h u Hreg) as ->.
    assert (Hs : subscribers e (off e h st) =
                 OSet.delete handler_eq_dec h (subscribers e st)).
    { rewrite (subscribers_off payload e h e st Hreg).
      destruct (string_dec e e); congruence. }
    split; [exact Hs|]. split.
    + rewrite Hs, OSetFacts.in_delete. tauto.
    + rewrite registered_off. destruct (string_dec e e); [|congruence].
      destruct (handler_eq_dec h h); congruence.
  - intros e h Hni. apply off_absent.
    destruct (registered e h st) eqn:Hreg; [|reflexivity].
    exfalso. apply Hni, Hm. congruence.
Qed.

(** X2.  In every state a program reaches from a fresh bus no event is
    left with an empty set of listeners and no event key with an empty map
    of unsubscribe functions: an event has a bucket in the transport
    exactly when it has a subscriber. *)
Theorem no_empty_bucket_is_left n body c st :
  (forall id p, Forall (@genuine payload) (code id p)) ->
  (forall id e p, Forall (@genuine payload) (pcode id e p)) ->
  Forall (@genuine payload) body ->
  program code pcode n body createRouteBus = Some (c, st) ->
  (forall e, OMap.get string_dec e (listeners st) <> Some []) /\
  (forall key, OMap.get string_dec key (unsubscribeFunctions st) <> Some []) /\
  (forall e, OMap.has string_dec e (listeners st) = true <-> subscribers e st <> []).
Proof.
  intros Hcode Hpcode Hbody H.
  destruct (program_well_formed payload code pcode n body c st Hcode Hpcode Hbody H)
    as (_ & _ & (Hl & Hr) & _).
  split; [exact Hl|]. split; [exact Hr|].
  intros e. unfold OMap.has, subscribers. specialize (Hl e).
  destruct (OMap.get string_dec e (listeners st)) as [hs|].
  - split; [congruence|reflexivity].
  - split; [discriminate|congruence].
Qed.

(** X3.  [on(E, h)] with [h] already registered for [E] changes nothing:
    the second call returns the same unsubscribe function and leaves the
    state of the first, so [h] keeps its place among the subscribers and
    is listed, hence delivered to, once. *)
Theorem on_twice_is_once e h st :
  snd (on e h (snd (on e h st))) = snd (on e h st) /\
  fst (on e h (snd (on e h st))) = fst (on e h st) /\
  (In h (subscribers e st) -> subscribers e (snd (on e h st)) = subscribers e st) /\
  (NoDup (subscribers e st) ->
   NoDup (subscribers e (snd (on e h (snd (on e h st))))) /\
   forall n d p s1,
     publish (call code pcode n d) e p (snd (on e h (snd (on e h st)))) = Some (Normal, s1) ->
     NoDup (direct d (snd (on e h (snd (on e h st)))) s1)).
Proof.
  split; [apply on_twice|]. split; [reflexivity|]. split.
  - intros Hin. rewrite subscribers_on. destruct (string_dec e e); [|congruence].
    now apply oset_add_present.
  - intros Hnd.
    assert (Hnd' : NoDup (subscribers e (snd (on e h (snd (on e h st)))))).
    { rewrite on_twice, subscribers_on. destruct (string_dec e e); [|congruence].
      now apply OSetFacts.nodup_add. }
    split; [exact Hnd'|].
    intros n d p s1 H.
    rewrite (publish_direct payload code pcode n d e p _ s1 H).
    now apply nodup_invoked.
Qed.

(** X4.  In a well-formed state, registering a handler that is not yet
    subscribed to [E] and then removing it, by the function [on] returned
    or by [off], gives back the state exactly: no bucket, entry or
    ordering is left behind. *)
Theorem on_then_unsubscribe_restores e h st :
  well_formed st -> ~ In h (subscribers e st) ->
  unsubscribe_call (fst (on e h st)) (snd (on e h st)) = st /\
  off e h (snd (on e h st)) = st.
Proof.
  intros (_ & Hm & Hc & _) Hni.
  assert (Hreg : registered e h st = None).
  { destruct (registered e h st) eqn:Hr; [|reflexivity].
    exfalso. apply Hni, Hm. congruence. }
  assert (H : unsubscribe_call (fst (on e h st)) (snd (on e h st)) = st)
    by now apply on_then_its_unsubscribe.
  split; [exact H|]. now rewrite off_after_on.
Qed.

(** X5.  After [clear] the bus is as when created, but for the trace, the
    console and the allocation counter: no event has a subscriber, the
    registry and the queue are empty.  Unsubscribe functions obtained
    before, and [off], find nothing and change nothing; every emit and
    every drain returns at once with the state unchanged; and the bus can
    be used again: a handler registered afterwards is the only subscriber
    of its event. *)
Theorem clear_resets_the_bus st :
  clear st = mkState [] [] [] (next_closure st) (trace st ++ [Closed]) (console st) /\
  (forall e, subscribers e (clear st) = []) /\
  (forall e h, registered e h (clear st) = None) /\
  (forall u, unsubscribe_call u (clear st) = clear st) /\
  (forall e h, off e h (clear st) = clear st) /\
  (forall invoke e p, emit invoke e p (clear st) = Some (clear st)) /\
  (forall invoke k processor,
      drain invoke k processor (clear st) = Some (Normal, clear st)) /\
  (forall e h e',
      subscribers e' (snd (on e h (clear st))) = if string_dec e' e then [h] else []).
Proof.
  split; [apply clear_eq|]. rewrite clear_eq.
  split; [reflexivity|]. split; [reflexivity|].
  split; [intros [[e h] key h']; reflexivity|].
  split; [reflexivity|]. split; [reflexivity|].
  split; [intros invoke k processor; destruct k; reflexivity|].
  intros e h e'. rewrite subscribers_on. destruct (string_dec e' e); reflexivity.
Qed.

(** X6.  On an empty queue, [enqueue(E, P)] followed by [drain] is the
    processor applied to [(E, P)]: when the call leaves the queue empty,
    or throws, drain ends as the call did, in the state the call left.
    With no processor given that call is [emit(E, P)]. *)
Theorem enqueue_then_drain invoke k processor e p st c s1 :
  queue st = [] ->
  processor_of invoke processor e p st = Some (c, s1) ->
  (c = Normal -> queue s1 = []) ->
  drain invoke (S k) processor (enqueue e p st) = Some (c, s1) /\
  (processor = None -> emit invoke e p st = Some s1 /\ c = Normal).
Proof.
  intros Hq Hp Hs1. split.
  - unfold drain, enqueue. simpl. rewrite Hq. simpl.
    replace (set_queue [] (set_queue [(e, p)] st)) with st.
    + rewrite Hp. destruct c as [|err]; [|reflexivity].
      destruct k; simpl; now rewrite (Hs1 eq_refl).
    + destruct st. simpl in *. now subst.
  - intros ->. simpl in Hp. unfold defaultProcessor in Hp.
    destruct (emit invoke e p st) as [s|]; [|discriminate].
    now injection Hp as <- <-.
Qed.

Lemma for_each_throws n d id items st err st' :
  (forall e p s c s',
      call code pcode n d (Processor id e p) s = Some (c, s') -> queue s' = queue s) ->
  for_each (fun e p => call code pcode n d (Processor id e p)) items st
    = Some (Throws err, st') ->
  exists done item rest added,
    items = done ++ item :: rest /\ queue st' = rest /\
    trace st' = trace st ++ added /\
    filter (at_depth d) added =
      map (fun item => Processed d id (fst item) (snd item)) (done ++ [item]).
Proof.
  intros Hkeep. revert st. induction items as [|item rest IH]; intros st; simpl.
  - discriminate.
  - destruct (call code pcode n d _ (set_queue rest st)) as [[[|err0] s1]|] eqn:Hp;
      [| |discriminate].
    + intros H. destruct (IH _ H) as (done & item' & rest' & a2 & -> & Hq & Ht2 & Hf2).
      apply call_trace in Hp. destruct Hp as (a1 & Ht1 & Hf1). simpl in Ht1.
      exists (item :: done), item', rest',
        ((Processed d id (fst item) (snd item) :: a1) ++ a2).
      repeat split; auto.
      * rewrite Ht2, Ht1. now rewrite <- app_assoc.
      * rewrite filter_app. simpl.
        now rewrite Nat.eqb_refl, (filter_deeper payload d a1 Hf1), Hf2.
    + intros [= -> ->]. pose proof (Hkeep _ _ _ _ _ Hp) as Hq.
      apply call_trace in Hp. destruct Hp as (a1 & Ht1 & Hf1). simpl in Ht1.
      exists [], item, rest, (Processed d id (fst item) (snd item) :: a1).
      repeat split; auto.
      simpl. now rewrite Nat.eqb_refl, (filter_deeper payload d a1 Hf1).
Qed.

(** X7.  When a processor that leaves the queue alone throws, [drain]
    throws what it threw.  The processor has been called on the items up
    to the one it threw on, once each in queue order; that item has
    already been taken from the queue and is lost, and the items behind it
    stay queued, in order, for a later drain. *)
Theorem drain_stops_where_the_processor_throws n d k id st err st' :
  (forall e p s c s',
      call code pcode n d (Processor id e p) s = Some (c, s') -> queue s' = queue s) ->
  List.length (queue st) <= k ->
  drain (call code pcode n d) k (Some id) st = Some (Throws err, st') ->
  exists done item rest,
    queue st = done ++ item :: rest /\
    queue st' = rest /\
    direct d st st' =
      map (fun item => Processed d id (fst item) (snd item)) (done ++ [item]).
Proof.
  intros Hkeep Hk H. unfold drain in H.
  rewrite drain_loop_for_each in H by assumption.
  simpl in H. apply for_each_throws in H; [|exact Hkeep].
  destruct H as (done & item & rest & added & Hq & Hq' & Ht & Hf).
  exists done, item, rest. repeat split; auto.
  now rewrite (direct_app payload d st st' added Ht).
Qed.

(** X8.  [drain()] with no processor never throws: whatever the handlers
    do, the default processor is [emit], which catches. *)
Theorem default_drain_never_throws invoke k st err st' :
  drain invoke k None st <> Some (Throws err, st').
Proof.
  unfold drain. simpl. revert st. induction k as [|k IH]; intros st; simpl;
    destruct (queue st) as [|item rest]; try discriminate.
  unfold defaultProcessor at 1.
  destruct (emit invoke (fst item) (snd item) (set_queue rest st)) as [s1|];
    [apply IH|discriminate].
Qed.

(** X9.  A wrapper of [once] ends as the function it wraps ends.  When
    that function returns, the wrapper then unsubscribes itself: it is
    gone from the subscribers of its event and from the registry, and
    every other subscription, of the same function too, is as the function
    left it.  When the function throws, the wrapper throws the same with
    nothing done after the call: it removes nothing. *)
Theorem once_wrapper_ends_as_its_handler n d a e id p st c st' :
  call code pcode n d (Handler (Wrapped a e id) p) st = Some (c, st') ->
  exists m s1,
    n = S m /\
    call code pcode m (S d) (Handler (Fn id) p)
         (observe (Invoked d (Wrapped a e id) p) st) = Some (c, s1) /\
    match c with
    | Normal =>
        ~ In (Wrapped a e id) (subscribers e st') /\
        registered e (Wrapped a e id) st' = None /\
        (forall e',
            subscribers e' st' =
            if string_dec e' e
            then OSet.delete handler_eq_dec (Wrapped a e id) (subscribers e s1)
            else subscribers e' s1) /\
        queue st' = queue s1 /\ trace st' = trace s1
    | Throws _ => st' = s1
    end.
Proof.
  destruct n as [|m]; [discriminate|]. intros H. exists m.
  change (call code pcode (S m) d (Handler (Wrapped a e id) p) st) with
    (match call code pcode m (S d) (Handler (Fn id) p)
                (observe (Invoked d (Wrapped a e id) p) st) with
     | Some (Normal, st1) =>
         Some (Normal, unsubscribe_call (wrapper_unsubscribe e (Wrapped a e id)) st1)
     | r => r
     end) in H.
  destruct (call code pcode m (S d) (Handler (Fn id) p) _) as [[[|err] s1]|];
    [| |discriminate].
  - injection H as <- <-. exists s1. split; [reflexivity|]. split; [reflexivity|].
    unfold wrapper_unsubscribe.
    assert (Hs : forall e',
               subscribers e'
                 (unsubscribe_call
                    (BusUnsub (TUnsub e (Wrapped a e id)) (getEventKey e) (Wrapped a e id)) s1) =
               if string_dec e' e
               then OSet.delete handler_eq_dec (Wrapped a e id) (subscribers e s1)
               else subscribers e' s1)
      by (intros e'; apply subscribers_unsubscribe_call).
    split.
    { rewrite Hs. destruct (string_dec e e); [|congruence].
      rewrite OSetFacts.in_delete. tauto. }
    split.
    { pose proof (registered_unsubscribe_call payload (TUnsub e (Wrapped a e id)) e
                    (Wrapped a e id) e (Wrapped a e id) s1) as Hr.
      destruct (string_dec e e); [|congruence].
      destruct (handler_eq_dec (Wrapped a e id) (Wrapped a e id)); [|congruence].
      exact Hr. }
    split; [exact Hs|].
    split; apply (unsubscribe_call_frame payload
                    (BusUnsub (TUnsub e (Wrapped a e id)) (getEventKey e) (Wrapped a e id)) s1).
  - injection H as <- <-. exists s1. auto.
Qed.

(** X10.  In a well-formed state [once(E, h)] registers a wrapper that is
    new: it goes to the end of the subscribers of [E], also when [h] or an
    earlier wrapper of [h] is subscribed already, and a second [once(E, h)]
    adds a second, independent wrapper.  Calling the function [once]
    returned before any emit gives back the state, but for the allocation
    counter. *)
Theorem once_registers_a_new_wrapper e id st :
  well_formed st ->
  let w := Wrapped (next_closure st) e id in
  let w' := Wrapped (S (next_closure st)) e id in
  fst (once e id st) = wrapper_unsubscribe e w /\
  subscribers e (snd (once e id st)) = subscribers e st ++ [w] /\
  unsubscribe_call (fst (once e id st)) (snd (once e id st))
    = set_next_closure (S (next_closure st)) st /\
  subscribers e (snd (once e id (snd (once e id st)))) = subscribers e st ++ [w; w'] /\
  fst (once e id (snd (once e id st))) <> fst (once e id st).
Proof.
  intros (Hok & Hm & Hc & Hf) w w'.
  assert (Hni : ~ In w (subscribers e st)).
  { intros Hin. apply Hf in Hin. lia. }
  assert (Hs : subscribers e (snd (once e id st)) = subscribers e st ++ [w]).
  { unfold once. rewrite subscribers_on. destruct (string_dec e e); [|congruence].
    now apply oset_add_absent. }
  split; [reflexivity|]. split; [exact Hs|]. split; [|split].
  - unfold once. apply on_then_its_unsubscribe.
    + eapply compact_same; [| |exact Hc]; reflexivity.
    + exact Hni.
    + assert (Hreg : registered e w st = None).
      { destruct (registered e w st) eqn:Hr; [|reflexivity].
        exfalso. apply Hni, Hm. congruence. }
      exact Hreg.
  - assert (Hn : next_closure (snd (once e id st)) = S (next_closure st)) by reflexivity.
    unfold once at 1. rewrite subscribers_on. destruct (string_dec e e); [|congruence].
    change (subscribers e (set_next_closure (S (next_closure (snd (once e id st))))
                             (snd (once e id st))))
      with (subscribers e (snd (once e id st))).
    rewrite Hn, Hs. fold w'.
    rewrite oset_add_absent.
    + now rewrite <- app_assoc.
    + rewrite in_app_iff. intros [Hin|[Heq|[]]].
      * apply Hf in Hin. lia.
      * injection Heq as Heq. lia.
  - unfold once, on. simpl. intros [= Heq]. lia.
Qed.

End MoreProperties.

(** * The further properties on the concrete program

    Each of the theorems above that has a premise, applied to a run of the
    program of [Demo]. *)

Lemma demo_code_genuine id p : Forall (@genuine nat) (Demo.code id p).
Proof.
  do 22 (destruct id as [|id];
         [simpl; repeat (apply Forall_cons || apply Forall_nil); simpl; auto|]).
  simpl. constructor.
Qed.

Lemma demo_pcode_genuine id e p : Forall (@genuine nat) (Demo.pcode id e p).
Proof.
  do 3 (destruct id as [|id];
        [destruct p; simpl; repeat (apply Forall_cons || apply Forall_nil); simpl; auto|]).
  simpl. constructor.
Qed.

Lemma demo_body_genuine (body : list (cmd nat)) :
  forallb (fun c => match c with Call _ => false | _ => true end) body = true ->
  Forall (@genuine nat) body.
Proof.
  induction body as [|c body IH]; simpl; [constructor|].
  destruct c; simpl; try discriminate; intros H; constructor; simpl; auto.
Qed.

Lemma registry_mirrors_transport_witness :
  let body := [On "e" 1; Once "e" 2; On "f" 1; Off "e" 1; On "e" 3] in
  let st := Demo.after body in
  program Demo.code Demo.pcode 8 body createRouteBus = Some (Normal, st) /\
  In (Fn 3) (subscribers "e" st) /\
  registered "e" (Fn 3) st <> None /\
  subscribers "e" (off "e" (Fn 3) st) = [Wrapped 0 "e" 2] /\
  off "e" (Fn 1) st = st.
Proof.
  intros body st.
  assert (H : program Demo.code Demo.pcode 8 body createRouteBus = Some (Normal, st))
    by (vm_compute; reflexivity).
  assert (Hbody : Forall (@genuine nat) body) by (apply demo_body_genuine; reflexivity).
  destruct (registry_mirrors_transport nat Demo.code Demo.pcode 8 body Normal st
              demo_code_genuine demo_pcode_genuine Hbody H) as (Hm & Hoff & Hid).
  assert (Hin : In (Fn 3) (subscribers "e" st)) by (vm_compute; auto).
  split; [exact H|]. split; [exact Hin|]. split; [apply Hm; exact Hin|]. split.
  - destruct (Hoff "e" (Fn 3) Hin) as (-> & _). vm_compute. reflexivity.
  - apply Hid. vm_compute. intros [E|[E|[]]]; discriminate.
Defined.

Lemma no_empty_bucket_is_left_witness :
  let body := [On "e" 1; Off "e" 1; Once "f" 2; Emit "f" 5; On "g" 3] in
  let st := Demo.after body in
  program Demo.code Demo.pcode 8 body createRouteBus = Some (Normal, st) /\
  listeners st = [("g", [Fn 3])] /\
  OMap.get string_dec "e" (listeners st) <> Some [] /\
  OMap.get string_dec "f" (unsubscribeFunctions st) <> Some [] /\
  (OMap.has string_dec "g" (listeners st) = true <-> subscribers "g" st <> []).
Proof.
  intros body st.
  assert (H : program Demo.code Demo.pcode 8 body createRouteBus = Some (Normal, st))
    by (vm_compute; reflexivity).
  assert (Hbody : Forall (@genuine nat) body) by (apply demo_body_genuine; reflexivity).
  destruct (no_empty_bucket_is_left nat Demo.code Demo.pcode 8 body Normal st
              demo_code_genuine demo_pcode_genuine Hbody H) as (Hl & Hu & Hhas).
  split; [exact H|]. split; [vm_compute; reflexivity|].
  split; [apply Hl|]. split; [apply Hu|apply Hhas].
Defined.

Lemma on_twice_is_once_witness :
  let st := Demo.after [On "e" 1; On "e" 2] in
  snd (on "e" (Fn 1) (snd (on "e" (Fn 1) st))) = st /\
  subscribers "e" (snd (on "e" (Fn 1) st)) = [Fn 1; Fn 2].
Proof.
  intros st.
  destruct (on_twice_is_once nat Demo.code Demo.pcode "e" (Fn 1) st) as (_ & _ & Hsame & _).
  split; [vm_compute; reflexivity|].
  rewrite Hsame; vm_compute; auto.
Defined.

Lemma on_then_unsubscribe_restores_witness :
  let body := [On "e" 1; On "f" 2] in
  let st := Demo.after body in
  well_formed st /\
  ~ In (Fn 3) (subscribers "e" st) /\
  unsubscribe_call (fst (on "e" (Fn 3) st)) (snd (on "e" (Fn 3) st)) = st /\
  off "e" (Fn 3) (snd (on "e" (Fn 3) st)) = st.
Proof.
  intros body st.
  assert (Hbody : Forall (@genuine nat) body) by (apply demo_body_genuine; reflexivity).
  assert (Hwf : well_formed st).
  { apply (program_well_formed nat Demo.code Demo.pcode 8 body Normal st
             demo_code_genuine demo_pcode_genuine Hbody).
    vm_compute. reflexivity. }
  assert (Hni : ~ In (Fn 3) (subscribers "e" st))
    by (vm_compute; intros [E|[]]; discriminate).
  split; [exact Hwf|]. split; [exact Hni|].
  exact (on_then_unsubscribe_restores nat "e" (Fn 3) st Hwf Hni).
Defined.

Lemma enqueue_then_drain_witness :
  let st := Demo.after [On "e" 1; On "e" 2] in
  let s1 := Demo.published "e" 5 st in
  queue st = [] /\
  drain (call Demo.code Demo.pcode 8 0) 1 None (enqueue "e" 5 st) = Some (Normal, s1) /\
  emit (call Demo.code Demo.pcode 8 0) "e" 5 st = Some s1.
Proof.
  intros st s1.
  assert (Hq : queue st = []) by (vm_compute; reflexivity).
  assert (Hp : processor_of (call Demo.code Demo.pcode 8 0) None "e" 5 st = Some (Normal, s1))
    by (vm_compute; reflexivity).
  assert (Hs : Normal = Normal -> queue s1 = []) by (intros _; vm_compute; reflexivity).
  destruct (enqueue_then_drain nat (call Demo.code Demo.pcode 8 0) 0 None "e" 5 st Normal s1
              Hq Hp Hs) as (Hd & He).
  split; [exact Hq|]. split; [exact Hd|]. exact (proj1 (He eq_refl)).
Defined.

Lemma drain_stops_where_the_processor_throws_witness :
  let st := Demo.after [Enqueue "a" 1; Enqueue "b" 2; Enqueue "c" 3] in
  let st' := Demo.drained (Some 2) st in
  drain (call Demo.code Demo.pcode 8 0) 8 (Some 2) st = Some (Throws "stop", st') /\
  exists done item rest,
    queue st = done ++ item :: rest /\
    queue st' = rest /\
    direct 0 st st' = map (fun item => Processed 0 2 (fst item) (snd item)) (done ++ [item]).
Proof.
  intros st st'.
  assert (Hd : drain (call Demo.code Demo.pcode 8 0) 8 (Some 2) st = Some (Throws "stop", st'))
    by (vm_compute; reflexivity).
  split; [exact Hd|].
  apply (drain_stops_where_the_processor_throws nat Demo.code Demo.pcode 8 0 8 2 st "stop" st').
  - intros e p s c s' H. simpl in H. injection H as _ <-. reflexivity.
  - vm_compute. lia.
  - exact Hd.
Defined.

Lemma default_drain_never_throws_witness :
  let st := Demo.after [On "e" 11; Enqueue "e" 1] in
  drain (call Demo.code Demo.pcode 8 0) 8 None st <> Some (Throws "boom", st).
Proof.
  intros st. apply default_drain_never_throws.
Defined.

Lemma once_wrapper_ends_as_its_handler_witness :
  let st := Demo.after [Once "e" 1; On "e" 1] in
  subscribers "e" st = [Wrapped 0 "e" 1; Fn 1] /\
  (exists s, call Demo.code Demo.pcode 8 0 (Handler (Wrapped 0 "e" 1) 5) st = Some (Normal, s) /\
             ~ In (Wrapped 0 "e" 1) (subscribers "e" s) /\
             registered "e" (Wrapped 0 "e" 1) s = None).
Proof.
  intros st. split; [vm_compute; reflexivity|].
  destruct (call Demo.code Demo.pcode 8 0 (Handler (Wrapped 0 "e" 1) 5) st)
    as [[c s]|] eqn:Hcall; [|vm_compute in Hcall; discriminate].
  assert (Hc : c = Normal) by (vm_compute in Hcall; congruence).
  subst c. exists s. split; [reflexivity|].
  destruct (once_wrapper_ends_as_its_handler nat Demo.code Demo.pcode 8 0 0 "e" 1 5 st
              Normal s Hcall) as (m & s1 & _ & _ & Hni & Hreg & _).
  split; [exact Hni|exact Hreg].
Defined.

Lemma once_registers_a_new_wrapper_witness :
  let body := [On "e" 1; Once "e" 1] in
  let st := Demo.after body in
  well_formed st /\
  subscribers "e" (snd (once "e" 1 st)) = [Fn 1; Wrapped 0 "e" 1; Wrapped 1 "e" 1] /\
  unsubscribe_call (fst (once "e" 1 st)) (snd (once "e" 1 st)) = set_next_closure 2 st.
Proof.
  intros body st.
  assert (Hbody : Forall (@genuine nat) body) by (apply demo_body_genuine; reflexivity).
  assert (Hwf : well_formed st).
  { apply (program_well_formed nat Demo.code Demo.pcode 8 body Normal st
             demo_code_genuine demo_pcode_genuine Hbody).
    vm_compute. reflexivity. }
  destruct (once_registers_a_new_wrapper nat "e" 1 st Hwf) as (_ & Hsub & Hback & _).
  split; [exact Hwf|]. split.
  - rewrite Hsub. vm_compute. reflexivity.
  - rewrite Hback. vm_compute. reflexivity.
Defined.

(** * The Redis transport *)

Import Redis.

Lemma append_inj (p a b : string) : (p ++ a = p ++ b)%string -> a = b.
Proof.
  induction p as [|c p IH]; simpl; [auto|]. intros [= H]. auto.
Qed.

Lemma append_assoc (a b c : string) : ((a ++ b) ++ c = a ++ (b ++ c))%string.
Proof.
  induction a as [|x a IH]; simpl; congruence.
Qed.

Lemma last_handler (h : handler) (hs : list handler) :
  NoDup hs -> hs <> [] ->
  (OSet.delete handler_eq_dec h hs = [] <-> hs = [h]).
Proof.
  intros Hnd Hne. destruct hs as [|a t]; [congruence|]. simpl.
  inversion Hnd as [|? ? Hni Ht]; subst.
  destruct (handler_eq_dec h a) as [->|Hha].
  - rewrite OSetFacts.delete_missing by exact Hni. split; congruence.
  - split; [discriminate|]. intros [= -> _]. congruence.
Qed.

Section RedisFacts.
Variable payload : Type.
Variable cfg : setting payload.
Implicit Types (st : tstate payload) (e : event) (h : handler) (p : payload).

Lemma channel_inj e e' : getChannelName cfg e = getChannelName cfg e' -> e = e'.
Proof.
  unfold getChannelName. intros H. apply append_inj in H. now apply append_inj in H.
Qed.

Lemma redis_listeners_subscribe e h st :
  listeners (subscribe cfg e h st) =
  OMap.set string_dec e (OSet.add handler_eq_dec h (handlers_of e st)) (listeners st).
Proof.
  unfold subscribe, handlers_of.
  destruct (in_dec string_dec (getChannelName cfg e) (subscribedChannels st)); simpl;
    (destruct (OMap.has string_dec e (listeners st)) eqn:Hhas;
     [apply OMapFacts.has_true in Hhas; destruct Hhas as [hs Hhs]; now rewrite Hhs
     |apply OMapFacts.has_false in Hhas; rewrite Hhas, OMapFacts.get_set_eq;
      apply omap_set_set]).
Qed.

Lemma redis_channels_subscribe e h st :
  subscribedChannels (subscribe cfg e h st) =
  OSet.add string_dec (getChannelName cfg e) (subscribedChannels st).
Proof.
  unfold subscribe, OSet.add.
  destruct (in_dec string_dec (getChannelName cfg e) (subscribedChannels st)); reflexivity.
Qed.

Lemma redis_sent_subscribe e h st :
  sent (subscribe cfg e h st) =
  if in_dec string_dec (getChannelName cfg e) (subscribedChannels st)
  then sent st else sent st ++ [Subscribe (getChannelName cfg e)].
Proof.
  unfold subscribe.
  destruct (in_dec string_dec (getChannelName cfg e) (subscribedChannels st)); reflexivity.
Qed.

Lemma redis_handlers_of_subscribe e h e' st :
  handlers_of e' (subscribe cfg e h st) =
  if string_dec e' e then OSet.add handler_eq_dec h (handlers_of e st)
  else handlers_of e' st.
Proof.
  unfold handlers_of at 1. rewrite redis_listeners_subscribe.
  destruct (string_dec e' e) as [->|Hne].
  - now rewrite OMapFacts.get_set_eq.
  - now rewrite OMapFacts.get_set_neq.
Qed.

Lemma redis_handlers_of_unsubscribe e h e' st :
  handlers_of e' (unsubscribe cfg e h st) =
  if string_dec e' e then OSet.delete handler_eq_dec h (handlers_of e st)
  else handlers_of e' st.
Proof.
  unfold unsubscribe, handlers_of.
  destruct (OMap.get string_dec e (listeners st)) as [hs|] eqn:Hhs.
  - destruct (Nat.eqb _ 0) eqn:Hsz; simpl.
    + apply OSetFacts.empty_of_size in Hsz. rewrite Hsz.
      destruct (string_dec e' e) as [->|Hne].
      * now rewrite OMapFacts.get_delete_eq.
      * now rewrite OMapFacts.get_delete_neq, OMapFacts.get_set_neq.
    + destruct (string_dec e' e) as [->|Hne].
      * now rewrite OMapFacts.get_set_eq.
      * now rewrite OMapFacts.get_set_neq.
  - destruct (string_dec e' e) as [->|Hne]; [now rewrite Hhs|reflexivity].
Qed.

(** What [tracked] says of one event. *)
Lemma tracked_channel e st :
  tracked cfg st ->
  (In (getChannelName cfg e) (subscribedChannels st) <->
   OMap.get string_dec e (listeners st) <> None).
Proof.
  intros (H1 & _). rewrite H1. split.
  - intros (e' & Heq & Hget). apply channel_inj in Heq. now subst.
  - intros Hget. exists e. auto.
Qed.

Lemma tracked_handlers e st :
  tracked cfg st ->
  (handlers_of e st = [] <-> OMap.get string_dec e (listeners st) = None).
Proof.
  intros (_ & H2 & _). unfold handlers_of. specialize (H2 e).
  destruct (OMap.get string_dec e (listeners st)) as [hs|].
  - split; [intros ->; congruence|discriminate].
  - tauto.
Qed.

Lemma tracked_create : tracked cfg (createRedisTransport payload).
Proof.
  split; [|split].
  - intros ch. simpl. split; [tauto|]. intros (e & _ & H). congruence.
  - discriminate.
  - intros e. constructor.
Qed.

Lemma tracked_same st st' :
  listeners st' = listeners st -> subscribedChannels st' = subscribedChannels st ->
  tracked cfg st -> tracked cfg st'.
Proof.
  intros Hl Hc (H1 & H2 & H3). unfold tracked, handlers_of. rewrite Hl, Hc. auto.
Qed.

Lemma tracked_subscribe e h st : tracked cfg st -> tracked cfg (subscribe cfg e h st).
Proof.
  intros (H1 & H2 & H3). split; [|split].
  - intros ch. rewrite redis_channels_subscribe, redis_listeners_subscribe, OSetFacts.in_add, H1.
    split.
    + intros [->|(e' & -> & Hget)].
      * exists e. split; [reflexivity|]. rewrite OMapFacts.get_set_eq. discriminate.
      * exists e'. split; [reflexivity|].
        destruct (string_dec e' e) as [->|Hne].
        -- rewrite OMapFacts.get_set_eq. discriminate.
        -- now rewrite OMapFacts.get_set_neq.
    + intros (e' & -> & Hget).
      destruct (string_dec e' e) as [->|Hne]; [now left|].
      right. exists e'. split; [reflexivity|].
      now rewrite OMapFacts.get_set_neq in Hget.
  - intros e'. rewrite redis_listeners_subscribe.
    destruct (string_dec e' e) as [->|Hne].
    + rewrite OMapFacts.get_set_eq. intros [= H]. now apply oset_add_not_nil in H.
    + rewrite OMapFacts.get_set_neq by exact Hne. apply H2.
  - intros e'. rewrite redis_handlers_of_subscribe.
    destruct (string_dec e' e); [apply OSetFacts.nodup_add|]; apply H3.
Qed.

Lemma tracked_unsubscribe e h st : tracked cfg st -> tracked cfg (unsubscribe cfg e h st).
Proof.
  intros Ht. pose proof Ht as (H1 & H2 & H3). split; [|split].
  - intros ch. unfold unsubscribe.
    destruct (OMap.get string_dec e (listeners st)) as [hs|] eqn:Hhs; [|apply H1].
    destruct (Nat.eqb _ 0) eqn:Hsz; simpl.
    + rewrite OSetFacts.in_delete, H1. split.
      * intros (Hne & e' & -> & Hget). exists e'. split; [reflexivity|].
        assert (e' <> e) by congruence.
        now rewrite OMapFacts.get_delete_neq, OMapFacts.get_set_neq.
      * intros (e' & -> & Hget).
        destruct (string_dec e' e) as [->|Hne].
        -- now rewrite OMapFacts.get_delete_eq in Hget.
        -- rewrite OMapFacts.get_delete_neq, OMapFacts.get_set_neq in Hget by exact Hne.
           split; [|eauto]. intros Heq. now apply channel_inj in Heq.
    + rewrite H1. split; intros (e' & -> & Hget); exists e'; (split; [reflexivity|]).
      * destruct (string_dec e' e) as [->|Hne].
        -- rewrite OMapFacts.get_set_eq. discriminate.
        -- now rewrite OMapFacts.get_set_neq.
      * destruct (string_dec e' e) as [->|Hne]; [congruence|].
        now rewrite OMapFacts.get_set_neq in Hget.
  - intros e'. unfold unsubscribe.
    destruct (OMap.get string_dec e (listeners st)) as [hs|] eqn:Hhs; [|apply H2].
    destruct (Nat.eqb _ 0) eqn:Hsz; simpl.
    + destruct (string_dec e' e) as [->|Hne].
      * rewrite OMapFacts.get_delete_eq. discriminate.
      * rewrite OMapFacts.get_delete_neq, OMapFacts.get_set_neq by exact Hne. apply H2.
    + destruct (string_dec e' e) as [->|Hne].
      * rewrite OMapFacts.get_set_eq. intros [= H]. now rewrite H in Hsz.
      * rewrite OMapFacts.get_set_neq by exact Hne. apply H2.
  - intros e'. rewrite redis_handlers_of_unsubscribe.
    destruct (string_dec e' e); [apply OSetFacts.nodup_delete|]; apply H3.
Qed.

Lemma tracked_close st : tracked cfg (close cfg st).
Proof.
  split; [|split].
  - intros ch. simpl. split; [tauto|]. intros (e & _ & H). congruence.
  - discriminate.
  - intros e. constructor.
Qed.

Lemma tracked_exec c st r st' :
  exec cfg c st = (r, st') -> tracked cfg st -> tracked cfg st'.
Proof.
  destruct c; simpl; intros [= <- <-] H.
  - now apply tracked_subscribe.
  - now apply tracked_unsubscribe.
  - unfold publish. destruct (stringify cfg e p); [|exact H].
    eapply tracked_same; [| |exact H]; reflexivity.
  - apply tracked_close.
  - exact H.
Qed.

Lemma tracked_run cs st r st' :
  run cfg cs st = (r, st') -> tracked cfg st -> tracked cfg st'.
Proof.
  revert st. induction cs as [|c cs IH]; intros st; simpl.
  - now intros [= <- <-].
  - destruct (exec cfg c st) as [[|err] s1] eqn:Hx.
    + intros H Ht. eapply IH; [exact H|]. eapply tracked_exec; eauto.
    + intros [= <- <-]. eapply tracked_exec; eauto.
Qed.

Lemma tracked_deliver hs p st r st' :
  deliver cfg hs p st = (r, st') -> tracked cfg st -> tracked cfg st'.
Proof.
  revert st. induction hs as [|h hs IH]; intros st; simpl.
  - now intros [= <- <-].
  - destruct (run cfg (body cfg h p) _) as [[|err] s1] eqn:Hr.
    + intros H Ht. eapply IH; [exact H|]. eapply tracked_run; [exact Hr|].
      eapply tracked_same; [| |exact Ht]; reflexivity.
    + intros [= <- <-] Ht. eapply tracked_run; [exact Hr|].
      eapply tracked_same; [| |exact Ht]; reflexivity.
Qed.

Lemma tracked_on_message channel message st :
  tracked cfg st -> tracked cfg (on_message cfg channel message st).
Proof.
  intros Ht. unfold on_message.
  destruct (parse cfg message) as [err|[e|] p]; [| |exact Ht].
  - eapply tracked_same; [| |exact Ht]; reflexivity.
  - destruct (OMap.get string_dec e (listeners st)) as [hs|]; [|exact Ht].
    destruct (deliver cfg hs p st) as [[|err] s1] eqn:Hd.
    + eapply tracked_deliver; eauto.
    + eapply tracked_same; [| |eapply tracked_deliver; eauto]; reflexivity.
Qed.

Lemma tracked_step i st : tracked cfg st -> tracked cfg (step cfg i st).
Proof.
  destruct i as [c|channel message]; simpl.
  - destruct (exec cfg c st) as [r s1] eqn:Hx. simpl. eapply tracked_exec; eauto.
  - apply tracked_on_message.
Qed.

Lemma tracked_after inputs : tracked cfg (after cfg inputs).
Proof.
  unfold after. generalize (tracked_create).
  generalize (createRedisTransport payload).
  induction inputs as [|i inputs IH]; intros st Ht; simpl; [exact Ht|].
  apply IH. now apply tracked_step.
Qed.


Lemma redis_exec_frame c st r st' :
  exec cfg c st = (r, st') -> calls st' = calls st /\ console st' = console st.
Proof.
  destruct c; simpl; intros [= <- <-].
  - unfold subscribe.
    destruct (in_dec string_dec (getChannelName cfg e) (subscribedChannels st)); auto.
  - unfold unsubscribe. destruct (OMap.get string_dec e (listeners st)); [|auto].
    destruct (Nat.eqb _ 0); auto.
  - unfold publish. destruct (stringify cfg e p); auto.
  - auto.
  - auto.
Qed.

Lemma redis_run_frame cs st r st' :
  run cfg cs st = (r, st') -> calls st' = calls st /\ console st' = console st.
Proof.
  revert st. induction cs as [|c cs IH]; intros st; simpl.
  - intros [= <- <-]. auto.
  - destruct (exec cfg c st) as [[|err] s1] eqn:Hx;
      destruct (redis_exec_frame _ _ _ _ Hx) as [Hc Hk].
    + intros H. destruct (IH _ H). split; congruence.
    + intros [= <- <-]. auto.
Qed.

(** A body throws at its first [Raise]. *)
Lemma redis_run_throws cs st err st' :
  run cfg cs st = (Throws err, st') ->
  exists pre post, cs = pre ++ Raise err :: post /\ forall err', ~ In (Raise err') pre.
Proof.
  revert st. induction cs as [|c cs IH]; intros st; simpl; [discriminate|].
  destruct (exec cfg c st) as [[|err0] s1] eqn:Hx.
  - intros H. destruct (IH _ H) as (pre & post & -> & Hpre).
    exists (c :: pre), post. split; [reflexivity|].
    intros err' [->|Hin]; [discriminate|]. now apply (Hpre err').
  - intros [= -> <-]. destruct c; try discriminate. simpl in Hx.
    injection Hx as -> _. exists [], cs. split; [reflexivity|]. intros err' [].
Qed.

Lemma redis_deliver_calls hs p st r st' :
  deliver cfg hs p st = (r, st') ->
  console st' = console st /\
  exists called rest,
    hs = called ++ rest /\
    calls st' = calls st ++ map (fun h => (h, p)) called /\
    match r with
    | Normal => rest = []
    | Throws err =>
        exists done h pre post,
          called = done ++ [h] /\ body cfg h p = pre ++ Raise err :: post /\
          forall err', ~ In (Raise err') pre
    end.
Proof.
  revert st. induction hs as [|h hs IH]; intros st; simpl.
  - intros [= <- <-]. split; [reflexivity|]. exists [], []. simpl.
    now rewrite app_nil_r.
  - destruct (run cfg (body cfg h p) _) as [[|err] s1] eqn:Hr;
      destruct (redis_run_frame _ _ _ _ Hr) as [Hc Hk]; simpl in Hc, Hk.
    + intros H. destruct (IH _ H) as (Hk' & called & rest & -> & Hcalls & Hres).
      split; [congruence|]. exists (h :: called), rest. split; [reflexivity|].
      split; [rewrite Hcalls, Hc; simpl; now rewrite <- app_assoc|].
      destruct r as [|err]; [exact Hres|].
      destruct Hres as (done & h' & pre & post & -> & Hb & Hpre).
      exists (h :: done), h', pre, post. auto.
    + intros [= <- <-]. split; [exact Hk|]. exists [h], hs. split; [reflexivity|].
      split; [exact Hc|]. apply redis_run_throws in Hr.
      destruct Hr as (pre & post & Hb & Hpre). exists [], h, pre, post. auto.
Qed.

Lemma requested_snoc cs c :
  requested (cs ++ [c]) =
  match c with
  | Subscribe ch => OSet.add string_dec ch (requested cs)
  | Unsubscribe ch => OSet.delete string_dec ch (requested cs)
  | Publish _ _ => requested cs
  | Quit => []
  end.
Proof.
  unfold requested. rewrite fold_left_app. reflexivity.
Qed.

Lemma asked_exec c st r st' :
  exec cfg c st = (r, st') -> asked st -> asked st'.
Proof.
  unfold asked. destruct c; simpl; intros [= <- <-] H ch.
  - rewrite redis_channels_subscribe, redis_sent_subscribe.
    destruct (in_dec string_dec (getChannelName cfg e) (subscribedChannels st)) as [Hin|Hni].
    + rewrite OSetFacts.in_add. intros [->|Hch]; auto.
    + rewrite requested_snoc, !OSetFacts.in_add. intros [->|Hch]; auto.
  - unfold unsubscribe. destruct (OMap.get string_dec e (listeners st)); [|apply H].
    destruct (Nat.eqb _ 0); simpl; [|apply H].
    rewrite OSetFacts.in_delete. intros [Hne Hch].
    destruct (has_unsubscribe cfg); [|auto].
    rewrite requested_snoc, OSetFacts.in_delete. auto.
  - unfold publish. destruct (stringify cfg e p); simpl; [|apply H].
    rewrite requested_snoc. apply H.
  - intros [].
  - apply H.
Qed.

Lemma exact_exec c st r st' :
  exec cfg c st = (r, st') -> exact cfg st -> exact cfg st'.
Proof.
  unfold exact. destruct c; simpl; intros [= <- <-] H Hu Hq; specialize (H Hu Hq).
  - rewrite redis_channels_subscribe, redis_sent_subscribe.
    destruct (in_dec string_dec (getChannelName cfg e) (subscribedChannels st)) as [Hin|Hni].
    + now rewrite oset_add_present.
    + rewrite requested_snoc. congruence.
  - unfold unsubscribe. destruct (OMap.get string_dec e (listeners st)); [|exact H].
    destruct (Nat.eqb _ 0); simpl; [|exact H].
    rewrite Hu, requested_snoc. congruence.
  - unfold publish. destruct (stringify cfg e p); simpl; [|exact H].
    now rewrite requested_snoc.
  - unfold close. simpl. rewrite Hq, requested_snoc. reflexivity.
  - exact H.
Qed.

Section Kept.
Variable ok : tstate payload -> Prop.
Hypothesis ok_exec : forall c st r st', exec cfg c st = (r, st') -> ok st -> ok st'.
Hypothesis ok_same : forall st st',
  listeners st' = listeners st -> subscribedChannels st' = subscribedChannels st ->
  sent st' = sent st -> ok st -> ok st'.

Lemma kept_run cs st r st' : run cfg cs st = (r, st') -> ok st -> ok st'.
Proof.
  revert st. induction cs as [|c cs IH]; intros st; simpl.
  - now intros [= <- <-].
  - destruct (exec cfg c st) as [[|err] s1] eqn:Hx.
    + intros H Ht. eapply IH; [exact H|]. eapply ok_exec; eauto.
    + intros [= <- <-]. eapply ok_exec; eauto.
Qed.

Lemma kept_deliver hs p st r st' : deliver cfg hs p st = (r, st') -> ok st -> ok st'.
Proof.
  revert st. induction hs as [|h hs IH]; intros st; simpl.
  - now intros [= <- <-].
  - destruct (run cfg (body cfg h p) _) as [[|err] s1] eqn:Hr.
    + intros H Ht. eapply IH; [exact H|]. eapply kept_run; [exact Hr|].
      eapply ok_same; [| | |exact Ht]; reflexivity.
    + intros [= <- <-] Ht. eapply kept_run; [exact Hr|].
      eapply ok_same; [| | |exact Ht]; reflexivity.
Qed.

Lemma kept_on_message channel message st : ok st -> ok (on_message cfg channel message st).
Proof.
  intros Ht. unfold on_message.
  destruct (parse cfg message) as [err|[e|] p]; [| |exact Ht].
  - eapply ok_same; [| | |exact Ht]; reflexivity.
  - destruct (OMap.get string_dec e (listeners st)) as [hs|]; [|exact Ht].
    destruct (deliver cfg hs p st) as [[|err] s1] eqn:Hd.
    + eapply kept_deliver; eauto.
    + eapply ok_same; [| | |eapply kept_deliver; eauto]; reflexivity.
Qed.

Lemma kept_after inputs : ok (createRedisTransport payload) -> ok (after cfg inputs).
Proof.
  unfold after. generalize (createRedisTransport payload).
  induction inputs as [|i inputs IH]; intros st Ht; simpl; [exact Ht|].
  apply IH. destruct i as [c|channel message]; simpl.
  - destruct (exec cfg c st) as [r s1] eqn:Hx. simpl. eapply ok_exec; eauto.
  - now apply kept_on_message.
Qed.

End Kept.

(** X11.  Channel names.  For one transport distinct events have distinct
    channels.  With no prefix option, and also with the empty string as
    prefix (the code uses [||]), the channel of [E] is ["routebus:" ++ E];
    any other prefix is put before [":" ++ E].  Two transports may share a
    channel: prefix [s] with event [t ++ ":" ++ E] and prefix
    [s ++ ":" ++ t] with event [E] name the same channel. *)
Theorem redis_channel_names e :
  (forall e', getChannelName cfg e = getChannelName cfg e' -> e = e') /\
  (options_prefix cfg = None \/ options_prefix cfg = Some ""%string ->
   getChannelName cfg e = ("routebus:" ++ e)%string) /\
  (forall s, options_prefix cfg = Some s -> s <> ""%string ->
             getChannelName cfg e = (s ++ ":" ++ e)%string) /\
  (forall (cfg' : setting payload) s t,
     options_prefix cfg = Some s -> s <> ""%string ->
     options_prefix cfg' = Some (s ++ ":" ++ t)%string ->
     getChannelName cfg (t ++ ":" ++ e)%string = getChannelName cfg' e).
Proof.
  split; [|split; [|split]].
  - intros e'. apply channel_inj.
  - unfold getChannelName, prefix. intros [->| ->]; reflexivity.
  - intros s Hs Hne. unfold getChannelName, prefix. rewrite Hs.
    destruct (String.eqb_spec s ""); [contradiction|reflexivity].
  - intros cfg' s t Hs Hne Hs'. unfold getChannelName, prefix. rewrite Hs, Hs'.
    destruct (String.eqb_spec s ""); [contradiction|].
    destruct (String.eqb_spec (s ++ ":" ++ t) "") as [E|_].
    + destruct s; [contradiction|discriminate].
    + now rewrite !append_assoc.
Qed.


Lemma redis_unsubscribe_idem e h st :
  unsubscribe cfg e h (unsubscribe cfg e h st) = unsubscribe cfg e h st.
Proof.
  destruct (OMap.get string_dec e (listeners st)) as [hs|] eqn:Hhs.
  - destruct (Nat.eqb (OSet.size (OSet.delete handler_eq_dec h hs)) 0) eqn:Hsz.
    + assert (H : listeners (unsubscribe cfg e h st) =
                  OMap.delete string_dec e
                    (OMap.set string_dec e (OSet.delete handler_eq_dec h hs) (listeners st)))
        by (unfold unsubscribe; rewrite Hhs, Hsz; reflexivity).
      unfold unsubscribe at 1. now rewrite H, OMapFacts.get_delete_eq.
    + assert (H : unsubscribe cfg e h st =
                  mkT (OMap.set string_dec e (OSet.delete handler_eq_dec h hs) (listeners st))
                      (subscribedChannels st) (sent st) (calls st) (console st))
        by (unfold unsubscribe; rewrite Hhs, Hsz; reflexivity).
      rewrite H. unfold unsubscribe. simpl.
      now rewrite OMapFacts.get_set_eq, OSetFacts.delete_idem, Hsz, omap_set_set.
  - assert (H : unsubscribe cfg e h st = st) by (unfold unsubscribe; now rewrite Hhs).
    now rewrite !H.
Qed.

Lemma redis_sent_unsubscribe e h st :
  tracked cfg st ->
  (handlers_of e st = [h] ->
   sent (unsubscribe cfg e h st) =
   if has_unsubscribe cfg then sent st ++ [Unsubscribe (getChannelName cfg e)]
   else sent st) /\
  (handlers_of e st <> [h] -> sent (unsubscribe cfg e h st) = sent st).
Proof.
  intros (_ & H2 & H3). specialize (H2 e). specialize (H3 e).
  unfold unsubscribe. unfold handlers_of in *.
  destruct (OMap.get string_dec e (listeners st)) as [hs|]; [|split; [discriminate|reflexivity]].
  assert (Hne : hs <> []) by congruence.
  pose proof (last_handler h hs H3 Hne) as Hlast.
  destruct (Nat.eqb _ 0) eqn:Hsz; simpl.
  - apply OSetFacts.empty_of_size in Hsz. split; [reflexivity|]. tauto.
  - split; [|reflexivity]. intros Hhs. apply Hlast in Hhs. now rewrite Hhs in Hsz.
Qed.

Lemma redis_round_trip e h st :
  tracked cfg st -> ~ In h (handlers_of e st) ->
  listeners (unsubscribe cfg e h (subscribe cfg e h st)) = listeners st /\
  subscribedChannels (unsubscribe cfg e h (subscribe cfg e h st)) = subscribedChannels st.
Proof.
  intros Ht Hni. pose proof (tracked_channel e st Ht) as Hch.
  pose proof (tracked_handlers e st Ht) as Hhs.
  pose proof (redis_listeners_subscribe e h st) as Hl.
  pose proof (redis_channels_subscribe e h st) as Hc.
  rewrite (oset_add_absent _ _ _ _ Hni) in Hl.
  remember (subscribe cfg e h st) as s1 eqn:Hs1. clear Hs1.
  unfold unsubscribe. rewrite Hl, OMapFacts.get_set_eq, OSetFacts.delete_app.
  rewrite (OSetFacts.delete_missing _ _ _ _ Hni). simpl.
  destruct (handler_eq_dec h h); [|congruence]. rewrite app_nil_r.
  unfold handlers_of in *.
  destruct (OMap.get string_dec e (listeners st)) as [hs|] eqn:Hget.
  - assert (Hne : hs <> []) by (intros ->; destruct Hhs as [Hhs _]; now specialize (Hhs eq_refl)).
    destruct hs as [|a hs]; [congruence|]. simpl.
    rewrite Hc, omap_set_set, OMapFacts.set_same by exact Hget.
    split; [reflexivity|]. apply oset_add_present. apply Hch. congruence.
  - simpl. rewrite Hc, omap_set_set, omap_delete_set by exact Hget.
    split; [reflexivity|]. apply OSetFacts.delete_add_absent. rewrite Hch. tauto.
Qed.

(** X12.  The bookkeeping of the transport, in every state it reaches from
    its creation, whatever is called on it, whatever messages arrive and
    whatever the handlers do: the channel of an event is in
    [subscribedChannels] exactly when the event has a handler; every
    channel held is the channel of an event; no handler is listed twice;
    every channel held has been requested of the client and not been left
    since; and with a client that has [unsubscribe] and [quit] the channels
    requested are exactly the channels held. *)
Theorem redis_channels_follow_listeners inputs :
  (forall e, In (getChannelName cfg e) (subscribedChannels (after cfg inputs)) <->
             handlers_of e (after cfg inputs) <> []) /\
  (forall ch, In ch (subscribedChannels (after cfg inputs)) ->
              exists e, ch = getChannelName cfg e) /\
  (forall e, NoDup (handlers_of e (after cfg inputs))) /\
  (forall e, handlers_of e (after cfg inputs) <> [] ->
             In (getChannelName cfg e) (requested (sent (after cfg inputs)))) /\
  (has_unsubscribe cfg = true -> has_quit cfg = true ->
   requested (sent (after cfg inputs)) = subscribedChannels (after cfg inputs)).
Proof.
  pose proof (tracked_after inputs) as Ht.
  assert (Ha : asked (after cfg inputs)).
  { apply kept_after.
    - apply asked_exec.
    - unfold asked. intros st st' _ Hc Hs. now rewrite Hc, Hs.
    - intros ch []. }
  assert (He : exact cfg (after cfg inputs)).
  { apply kept_after.
    - apply exact_exec.
    - unfold exact. intros st st' _ Hc Hs. now rewrite Hc, Hs.
    - intros _ _. reflexivity. }
  assert (Hiff : forall e, In (getChannelName cfg e) (subscribedChannels (after cfg inputs)) <->
                           handlers_of e (after cfg inputs) <> []).
  { intros e. rewrite (tracked_channel e _ Ht), (tracked_handlers e _ Ht). tauto. }
  split; [exact Hiff|]. split; [|split; [|split]].
  - intros ch Hch. destruct Ht as (H1 & _). apply H1 in Hch.
    destruct Hch as (e & -> & _). eauto.
  - apply Ht.
  - intros e Hne. apply Ha. now apply Hiff.
  - exact He.
Qed.

(** X13.  When the client is asked.  In a state that keeps the bookkeeping,
    [subscribe(E, h)] asks the client to subscribe exactly when [E] has no
    handler yet; the function it returns asks the client to unsubscribe
    exactly when [h] is the only handler of [E] and the client has
    [unsubscribe], and calling it again changes nothing; subscribing a
    handler that was not there and calling the function returned gives
    back the listeners and the channels as they were. *)
Theorem redis_asks_on_first_and_last_handler e h st :
  tracked cfg st ->
  (handlers_of e st = [] ->
   sent (subscribe cfg e h st) = sent st ++ [Subscribe (getChannelName cfg e)]) /\
  (handlers_of e st <> [] -> sent (subscribe cfg e h st) = sent st) /\
  (handlers_of e st = [h] ->
   sent (unsubscribe cfg e h st) =
   if has_unsubscribe cfg then sent st ++ [Unsubscribe (getChannelName cfg e)]
   else sent st) /\
  (handlers_of e st <> [h] -> sent (unsubscribe cfg e h st) = sent st) /\
  unsubscribe cfg e h (unsubscribe cfg e h st) = unsubscribe cfg e h st /\
  (~ In h (handlers_of e st) ->
   listeners (unsubscribe cfg e h (subscribe cfg e h st)) = listeners st /\
   subscribedChannels (unsubscribe cfg e h (subscribe cfg e h st)) = subscribedChannels st).
Proof.
  intros Ht. pose proof (tracked_channel e st Ht) as Hch.
  pose proof (tracked_handlers e st Ht) as Hhs.
  pose proof (redis_sent_unsubscribe e h st Ht) as [Hu1 Hu2].
  split; [|split; [|split; [exact Hu1|split; [exact Hu2|split]]]].
  - intros Hnil. rewrite redis_sent_subscribe.
    destruct (in_dec string_dec _ _) as [Hin|_]; [|reflexivity]. tauto.
  - intros Hne. rewrite redis_sent_subscribe.
    destruct (in_dec string_dec _ _) as [_|Hni]; [reflexivity|]. tauto.
  - apply redis_unsubscribe_idem.
  - now apply redis_round_trip.
Qed.

Lemma redis_message_prefix channel message e p st :
  parse cfg message = Data (Some e) p ->
  exists called rest,
    handlers_of e st = called ++ rest /\
    calls (on_message cfg channel message st) =
      calls st ++ map (fun h => (h, p)) called /\
    ((rest = [] /\ console (on_message cfg channel message st) = console st) \/
     (exists done h err pre post,
        called = done ++ [h] /\
        body cfg h p = pre ++ Raise err :: post /\
        (forall err', ~ In (Raise err') pre) /\
        console (on_message cfg channel message st) = console st ++ [err])).
Proof.
  intros Hparse. unfold on_message, handlers_of. rewrite Hparse.
  destruct (OMap.get string_dec e (listeners st)) as [hs|].
  - destruct (deliver cfg hs p st) as [[|err] s1] eqn:Hd;
      destruct (redis_deliver_calls _ _ _ _ _ Hd) as (Hk & called & rest & -> & Hc & Hres).
    + exists called, rest. auto.
    + destruct Hres as (done & h & pre & post & -> & Hb & Hpre).
      exists (done ++ [h]), rest. split; [reflexivity|]. split; [exact Hc|].
      right. exists done, h, err, pre, post. simpl. rewrite Hk. auto.
  - exists [], []. simpl. rewrite app_nil_r. auto.
Qed.

Lemma redis_message_all channel message e p st :
  parse cfg message = Data (Some e) p ->
  (forall h err, In h (handlers_of e st) -> ~ In (Raise err) (body cfg h p)) ->
  calls (on_message cfg channel message st) =
    calls st ++ map (fun h => (h, p)) (handlers_of e st) /\
  console (on_message cfg channel message st) = console st.
Proof.
  intros Hparse Hret.
  destruct (redis_message_prefix channel message e p st Hparse)
    as (called & rest & Hsnap & Hc & [[-> Hk]|Hthrow]).
  - rewrite app_nil_r in Hsnap. now rewrite Hsnap.
  - destruct Hthrow as (done & h & err & pre & post & -> & Hb & _ & _).
    exfalso. apply (Hret h err).
    + rewrite Hsnap. rewrite !in_app_iff. simpl. auto.
    + rewrite Hb. apply in_elt.
Qed.

(** X14.  A message that names an event.  The handlers called are a prefix
    of the handlers the event had when the message arrived, in the order
    they were subscribed, each with the payload of the message: either all
    of them, and nothing is reported, or the handlers up to the first one
    that throws, whose exception is reported through [console.error] and
    goes no further.  When no handler of the event throws all of them are
    called, also those another handler removes meanwhile.  The channel the
    message arrived on plays no part. *)
Theorem redis_message_calls_the_snapshot channel message e p st :
  parse cfg message = Data (Some e) p ->
  (exists called rest,
     handlers_of e st = called ++ rest /\
     calls (on_message cfg channel message st) =
       calls st ++ map (fun h => (h, p)) called /\
     ((rest = [] /\ console (on_message cfg channel message st) = console st) \/
      (exists done h err pre post,
         called = done ++ [h] /\
         body cfg h p = pre ++ Raise err :: post /\
         (forall err', ~ In (Raise err') pre) /\
         console (on_message cfg channel message st) = console st ++ [err]))) /\
  ((forall h err, In h (handlers_of e st) -> ~ In (Raise err) (body cfg h p)) ->
   calls (on_message cfg channel message st) =
     calls st ++ map (fun h => (h, p)) (handlers_of e st) /\
   console (on_message cfg channel message st) = console st) /\
  (forall channel', on_message cfg channel' message st = on_message cfg channel message st).
Proof.
  intros Hparse. split; [now apply redis_message_prefix|].
  split; [now apply redis_message_all|reflexivity].
Qed.

(** X15.  [publish] hands the message to the client and to nobody else: one
    [publish] command on the channel of the event with the string
    [JSON.stringify] gave, no handler of this transport called, listeners
    and channels as before; when [JSON.stringify] throws the promise is
    rejected and nothing happened.  The handlers of this transport get the
    payload when the client hands the message back: if the string parses
    to the event and the payload, and no handler of the event throws, they
    are then called with it in the order they were subscribed. *)
Theorem redis_publish_goes_through_the_client e p st :
  (forall json, stringify cfg e p = inl json ->
     fst (publish cfg e p st) = Normal /\
     sent (snd (publish cfg e p st)) = sent st ++ [Publish (getChannelName cfg e) json] /\
     calls (snd (publish cfg e p st)) = calls st /\
     listeners (snd (publish cfg e p st)) = listeners st /\
     subscribedChannels (snd (publish cfg e p st)) = subscribedChannels st) /\
  (forall err, stringify cfg e p = inr err -> publish cfg e p st = (Throws err, st)) /\
  (forall json channel,
     stringify cfg e p = inl json -> parse cfg json = Data (Some e) p ->
     (forall h err, In h (handlers_of e st) -> ~ In (Raise err) (body cfg h p)) ->
     calls (on_message cfg channel json (snd (publish cfg e p st))) =
       calls st ++ map (fun h => (h, p)) (handlers_of e st)).
Proof.
  split; [|split].
  - intros json Hjson. unfold publish. rewrite Hjson. simpl. auto.
  - intros err Herr. unfold publish. now rewrite Herr.
  - intros json channel Hjson Hparse Hret.
    assert (Hsame : handlers_of e (snd (publish cfg e p st)) = handlers_of e st)
      by (unfold publish; rewrite Hjson; reflexivity).
    assert (Hcalls : calls (snd (publish cfg e p st)) = calls st)
      by (unfold publish; rewrite Hjson; reflexivity).
    destruct (redis_message_all channel json e p
                (snd (publish cfg e p st)) Hparse) as [Hc _].
    + now rewrite Hsame.
    + now rewrite Hc, Hsame, Hcalls.
Qed.

(** X16.  [close] forgets every handler and every channel and calls [quit]
    when the client has it; the bookkeeping holds afterwards.  A message
    that arrives later calls no handler, and the functions [subscribe]
    returned before do nothing.  The transport can be used again, and then
    asks the client to subscribe anew.  With a client that has no [quit]
    the channels requested of the client stay requested. *)
Theorem redis_close_forgets e h st :
  tracked cfg (close cfg st) /\
  (forall e', handlers_of e' (close cfg st) = []) /\
  subscribedChannels (close cfg st) = [] /\
  sent (close cfg st) = (if has_quit cfg then sent st ++ [Quit] else sent st) /\
  (forall channel message,
     calls (on_message cfg channel message (close cfg st)) = calls st) /\
  unsubscribe cfg e h (close cfg st) = close cfg st /\
  handlers_of e (subscribe cfg e h (close cfg st)) = [h] /\
  sent (subscribe cfg e h (close cfg st)) =
    sent (close cfg st) ++ [Subscribe (getChannelName cfg e)] /\
  (has_quit cfg = false -> requested (sent (close cfg st)) = requested (sent st)).
Proof.
  split; [apply tracked_close|]. split; [reflexivity|]. split; [reflexivity|].
  split; [reflexivity|]. split; [|split; [reflexivity|split; [|split]]].
  - intros channel message. unfold on_message.
    destruct (parse cfg message) as [err|[e'|] p]; reflexivity.
  - rewrite redis_handlers_of_subscribe.
    destruct (string_dec e e); [reflexivity|congruence].
  - rewrite redis_sent_subscribe. reflexivity.
  - intros Hq. simpl. now rewrite Hq.
Qed.

End RedisFacts.

(** ** The transport of [RedisDemo] *)

Lemma redis_channel_names_witness :
  getChannelName RedisDemo.cfg "e" = "routebus:e"%string /\
  getChannelName RedisDemo.bare "e" = "routebus:e"%string.
Proof.
  destruct (redis_channel_names nat RedisDemo.cfg "e") as (_ & H1 & _).
  destruct (redis_channel_names nat RedisDemo.bare "e") as (_ & H2 & _).
  split; [apply H1; left; reflexivity|apply H2; right; reflexivity].
Defined.

Lemma redis_channels_follow_listeners_witness :
  let inputs :=
    [Calls (Listen "e" (Fn 2)); Calls (Listen "e" (Fn 1)); Calls (Listen "f" (Fn 1));
     Message "routebus:e" "e#1"; Calls (Unlisten "f" (Fn 1)); Message "routebus:e" "oops"] in
  handlers_of "e" (after RedisDemo.cfg inputs) = [Fn 2] /\
  In "routebus:e"%string (subscribedChannels (after RedisDemo.cfg inputs)) /\
  requested (sent (after RedisDemo.cfg inputs)) = subscribedChannels (after RedisDemo.cfg inputs).
Proof.
  intros inputs.
  destruct (redis_channels_follow_listeners nat RedisDemo.cfg inputs)
    as (Hiff & _ & _ & _ & Hexact).
  split; [vm_compute; reflexivity|]. split.
  - apply (Hiff "e"). vm_compute. discriminate.
  - apply Hexact; reflexivity.
Defined.

Lemma redis_asks_on_first_and_last_handler_witness :
  let st := after RedisDemo.cfg [Calls (Listen "e" (Fn 1)); Calls (Send "e" 1)] in
  tracked RedisDemo.cfg st /\
  handlers_of "e" st = [Fn 1] /\
  sent (subscribe RedisDemo.cfg "f" (Fn 1) st) = sent st ++ [Subscribe "routebus:f"] /\
  sent (subscribe RedisDemo.cfg "e" (Fn 2) st) = sent st /\
  sent (unsubscribe RedisDemo.cfg "e" (Fn 1) st) = sent st ++ [Unsubscribe "routebus:e"].
Proof.
  intros st.
  assert (Ht : tracked RedisDemo.cfg st) by apply tracked_after.
  assert (He : handlers_of "e" st = [Fn 1]) by (vm_compute; reflexivity).
  destruct (redis_asks_on_first_and_last_handler nat RedisDemo.cfg "f" (Fn 1) st Ht)
    as (Hfirst & _).
  destruct (redis_asks_on_first_and_last_handler nat RedisDemo.cfg "e" (Fn 2) st Ht)
    as (_ & Hmore & _).
  destruct (redis_asks_on_first_and_last_handler nat RedisDemo.cfg "e" (Fn 1) st Ht)
    as (_ & _ & Hlast & _).
  split; [exact Ht|]. split; [exact He|]. split; [|split].
  - apply Hfirst. vm_compute. reflexivity.
  - apply Hmore. rewrite He. discriminate.
  - apply (Hlast He).
Defined.

Lemma redis_message_calls_the_snapshot_witness :
  let st := after RedisDemo.cfg
              [Calls (Listen "e" (Fn 2)); Calls (Listen "e" (Fn 1)); Calls (Listen "e" (Fn 4))] in
  parse RedisDemo.cfg "e#1" = Data (Some "e") 1 /\
  calls (on_message RedisDemo.cfg "routebus:e" "e#1" st) = [(Fn 2, 1); (Fn 1, 1); (Fn 4, 1)] /\
  handlers_of "e" (on_message RedisDemo.cfg "routebus:e" "e#1" st) = [Fn 2; Fn 4] /\
  on_message RedisDemo.cfg "other:x" "e#1" st = on_message RedisDemo.cfg "routebus:e" "e#1" st.
Proof.
  intros st.
  assert (Hp : parse RedisDemo.cfg "e#1" = Data (Some "e") 1) by reflexivity.
  destruct (redis_message_calls_the_snapshot nat RedisDemo.cfg "routebus:e" "e#1" "e" 1 st Hp)
    as (_ & Hall & Hch).
  split; [exact Hp|]. split; [|split; [vm_compute; reflexivity|apply Hch]].
  destruct Hall as [-> _]; [|vm_compute; reflexivity].
  intros h err Hin Hraise. vm_compute in Hin.
  destruct Hin as [<-|[<-|[<-|[]]]]; vm_compute in Hraise;
    repeat (destruct Hraise as [Hraise|Hraise]; [discriminate|]); exact Hraise.
Defined.

Lemma redis_publish_goes_through_the_client_witness :
  let st := after RedisDemo.cfg [Calls (Listen "e" (Fn 1)); Calls (Listen "e" (Fn 4))] in
  stringify RedisDemo.cfg "e" 1 = inl "e#1"%string /\
  sent (snd (publish RedisDemo.cfg "e" 1 st)) = sent st ++ [Publish "routebus:e" "e#1"] /\
  calls (snd (publish RedisDemo.cfg "e" 1 st)) = [] /\
  publish RedisDemo.cfg "e" 99 st = (Throws "TypeError: cyclic object value", st) /\
  calls (on_message RedisDemo.cfg "routebus:e" "e#1" (snd (publish RedisDemo.cfg "e" 1 st)))
    = [(Fn 1, 1); (Fn 4, 1)].
Proof.
  intros st.
  assert (Hs : stringify RedisDemo.cfg "e" 1 = inl "e#1"%string) by reflexivity.
  destruct (redis_publish_goes_through_the_client nat RedisDemo.cfg "e" 1 st)
    as (Hsend & _ & Hback).
  destruct (redis_publish_goes_through_the_client nat RedisDemo.cfg "e" 99 st)
    as (_ & Hthrow & _).
  destruct (Hsend _ Hs) as (_ & Hsent & Hcalls & _).
  split; [exact Hs|]. split; [exact Hsent|]. split; [rewrite Hcalls; vm_compute; reflexivity|].
  split; [apply Hthrow; reflexivity|].
  rewrite (Hback "e#1"%string "routebus:e"%string Hs eq_refl); [vm_compute; reflexivity|].
  intros h err Hin Hraise. vm_compute in Hin.
  destruct Hin as [<-|[<-|[]]]; vm_compute in Hraise;
    repeat (destruct Hraise as [Hraise|Hraise]; [discriminate|]); exact Hraise.
Defined.

Lemma redis_close_forgets_witness :
  let st := after RedisDemo.bare [Calls (Listen "e" (Fn 1))] in
  requested (sent (close RedisDemo.bare st)) = ["routebus:e"%string] /\
  subscribedChannels (close RedisDemo.bare st) = [] /\
  calls (on_message RedisDemo.bare "routebus:e" "e#1" (close RedisDemo.bare st)) = [] /\
  sent (subscribe RedisDemo.bare "e" (Fn 1) (close RedisDemo.bare st))
    = [Subscribe "routebus:e"; Subscribe "routebus:e"].
Proof.
  intros st.
  destruct (redis_close_forgets nat RedisDemo.bare "e" (Fn 1) st)
    as (_ & _ & Hch & _ & Hcalls & _ & _ & Hsent & Hleak).
  split; [rewrite Hleak; [vm_compute; reflexivity|reflexivity]|].
  split; [exact Hch|]. split; [rewrite Hcalls; vm_compute; reflexivity|].
  rewrite Hsent. vm_compute. reflexivity.
Defined.
